(** * team-manager: the reconciliation engine of [pkg/team/manager.go]

    A shallow embedding of [Manager.GetCurrentConfig], [Manager.SyncTeams],
    [Manager.SyncTeamMembers], [getExcludedUsers] and [slug], with the
    properties of the reconciliation engine proved about them.

    Conventions of the embedding:
    - a Go slice is an [option (list A)]: [None] is the nil slice, which
      [reflect.DeepEqual] tells apart from an empty non-nil one;
    - a Go map keyed by strings is a [gmap string V]; the order in which a
      [range] statement visits its keys is chosen by the runtime, and is a
      parameter of the model ([MapOrder]);
    - the remote platform and the terminal are oracles held by [Manager] and
      [Runtime]; every query, prompt, printed line and mutation call is
      recorded, in program order, in a trace of [Event]s;
    - the two unbounded [for] loops of [GetCurrentConfig] take fuel. *)

From stdpp Require Import gmap strings list fin_maps sorting.
From Stdlib Require Import Ascii ZArith.

Open Scope string_scope.
Open Scope list_scope.

(** ** [slug] *)

Module Slug.

Definition byte_in (lo hi : nat) (c : ascii) : bool :=
  (lo <=? nat_of_ascii c)%nat && (nat_of_ascii c <=? hi)%nat.

(** [c < utf8.RuneSelf] *)
Definition isASCII (c : ascii) : bool := (nat_of_ascii c <? 128)%nat.

(** ['A' <= c && c <= 'Z'] *)
Definition isUpper (c : ascii) : bool := byte_in 65 90 c.

(** [c += 'a' - 'A'] for an upper-case byte. *)
Definition lowerByte (c : ascii) : ascii :=
  if isUpper c then ascii_of_nat (nat_of_ascii c + 32) else c.

(** The character class [a-z0-9] of the regular expression. *)
Definition isSlugChar (c : ascii) : bool := byte_in 97 122 c || byte_in 48 57 c.

Definition isDash (c : ascii) : bool := Ascii.eqb c "-".

Fixpoint allb (p : ascii → bool) (s : string) : bool :=
  match s with
  | EmptyString => true
  | String c s' => p c && allb p s'
  end.

Fixpoint anyb (p : ascii → bool) (s : string) : bool :=
  match s with
  | EmptyString => false
  | String c s' => p c || anyb p s'
  end.

Fixpoint mapBytes (f : ascii → ascii) (s : string) : string :=
  match s with
  | EmptyString => EmptyString
  | String c s' => String (f c) (mapBytes f s')
  end.

Section ToLower.

(** [strings.Map(unicode.ToLower, s)], the path [strings.ToLower] takes for
    a string with a byte outside ASCII. The Unicode case tables belong to the
    Go library, not to this repository: the mapping is a parameter. *)
Variable unicodeToLower : string → string.

(** [strings.ToLower]: an ASCII-only string is returned as it is when it has
    no upper-case byte, and with [A-Z] shifted to [a-z] otherwise. *)
Definition ToLower (s : string) : string :=
  if allb isASCII s then
    if anyb isUpper s then mapBytes lowerByte s else s
  else unicodeToLower s.

(** [regexp.MustCompile("[^a-z0-9]+").ReplaceAllString(s, "-")]: every
    maximal run of bytes outside [a-z0-9] becomes one ["-"]. A rune outside
    ASCII is encoded by bytes that are all at least 128, and a byte that is
    not valid UTF-8 matches the negated class too, so the runs of runes and
    the runs of bytes coincide. [inRun] says that the byte before the
    current one already belongs to a run. *)
Fixpoint replaceRuns (inRun : bool) (s : string) : string :=
  match s with
  | EmptyString => EmptyString
  | String c s' =>
      if isSlugChar c then String c (replaceRuns false s')
      else if inRun then replaceRuns true s'
      else String "-" (replaceRuns true s')
  end.

(** [strings.TrimLeft(s, "-")] *)
Fixpoint trimLeft (s : string) : string :=
  match s with
  | EmptyString => EmptyString
  | String c s' => if isDash c then trimLeft s' else s
  end.

(** [strings.TrimRight(s, "-")] *)
Fixpoint trimRight (s : string) : string :=
  match s with
  | EmptyString => EmptyString
  | String c s' =>
      match trimRight s' with
      | EmptyString => if isDash c then EmptyString else String c EmptyString
      | t => String c t
      end
  end.

(** [strings.Trim(s, "-")] *)
Definition Trim (s : string) : string := trimRight (trimLeft s).

Definition slug (s : string) : string :=
  let s := ToLower s in
  let s := replaceRuns false s in
  Trim s.

End ToLower.

(** The first and the last byte of a string. *)
Definition first (s : string) : option ascii :=
  match s with
  | EmptyString => None
  | String c _ => Some c
  end.

Fixpoint last (s : string) : option ascii :=
  match s with
  | EmptyString => None
  | String c EmptyString => Some c
  | String _ s' => last s'
  end.

(** No byte outside [a-z0-9-] and no two dashes in a row; [prevDash]
    forbids a dash as the first byte. *)
Fixpoint noDouble (prevDash : bool) (s : string) : bool :=
  match s with
  | EmptyString => true
  | String c s' =>
      if isSlugChar c then noDouble false s'
      else isDash c && negb prevDash && noDouble true s'
  end.

Definition endsWithDash (s : string) : bool :=
  match last s with
  | Some c => isDash c
  | None => false
  end.

End Slug.

(** ** Data model *)

(** A Go slice: [None] is nil. Only [reflect.DeepEqual] tells nil from an
    empty slice; [len] and [range] see the elements. *)
Abbreviation slice A := (option (list A)) (only parsing).

Definition elems {A} (s : slice A) : list A := default [] s.

(** [append(s, x)] *)
Definition append {A} (s : slice A) (x : A) : slice A := Some (elems s ++ [x]).

(** The order of Go strings: byte-wise lexicographic. *)
Definition strLe (a b : string) : Prop := String.leb a b = true.

#[global] Instance strLe_dec : RelDecision strLe.
Proof. intros a b. unfold strLe. apply _. Defined.

#[global] Instance strLe_total : Total strLe.
Proof. intros a b. apply String.leb_total. Qed.

(** [sort.Strings] *)
Definition sortStrings (l : list string) : list string := merge_sort strLe l.

(** Errors: what a client returns is opaque; [Wrap] is
    [fmt.Errorf("<context>: %w", err)]. *)
Inductive error :=
| RemoteError (msg : string)
| Wrap (context : string) (err : error)
| TeamNotFound (id : string).

(** *** [pkg/config], as [manager.go] uses it *)

Module User.
Record t := { ID : string; Name : string }.
End User.

Module ExcludedMember.
Record t := { Login : string }.
End ExcludedMember.

Module CodeReviewAssignment.
Record t := {
  Algorithm : string;
  Enabled : bool;
  ExcludedMembers : slice ExcludedMember.t;
  NotifyTeam : bool;
  TeamMemberCount : Z
}.
(** The zero value, [config.CodeReviewAssignment{}]. *)
Definition zero : t :=
  {| Algorithm := ""; Enabled := false; ExcludedMembers := None;
     NotifyTeam := false; TeamMemberCount := 0 |}.
(** [cra.ExcludedMembers = v] *)
Definition setExcludedMembers (cra : t) (v : slice ExcludedMember.t) : t :=
  {| Algorithm := Algorithm cra; Enabled := Enabled cra; ExcludedMembers := v;
     NotifyTeam := NotifyTeam cra; TeamMemberCount := TeamMemberCount cra |}.
End CodeReviewAssignment.

Module TeamConfig.
Record t := {
  ID : string;
  Members : slice string;
  CRA : CodeReviewAssignment.t
}.
(** The zero value, which a Go map returns for a missing key. *)
Definition zero : t :=
  {| ID := ""; Members := None; CRA := CodeReviewAssignment.zero |}.
(** [team.Members = v] *)
Definition setMembers (team : t) (v : slice string) : t :=
  {| ID := ID team; Members := v; CRA := CRA team |}.
(** [team.CodeReviewAssignment.ExcludedMembers = v] *)
Definition setExcludedMembers (team : t) (v : slice ExcludedMember.t) : t :=
  {| ID := ID team; Members := Members team;
     CRA := CodeReviewAssignment.setExcludedMembers (CRA team) v |}.
End TeamConfig.

Module Config.
Record t := {
  Organization : string;
  Teams : gmap string TeamConfig.t;
  Members : gmap string User.t;
  ExcludeCRAFromAllTeams : slice string
}.
(** [c.Teams[name]] read: the zero value for a missing key. *)
Definition team (c : t) (name : string) : TeamConfig.t :=
  default TeamConfig.zero (Teams c !! name).
(** [c.Teams[name] = team] *)
Definition setTeam (c : t) (name : string) (team : TeamConfig.t) : t :=
  {| Organization := Organization c; Teams := <[name := team]> (Teams c);
     Members := Members c;
     ExcludeCRAFromAllTeams := ExcludeCRAFromAllTeams c |}.
(** [c.Members[login] = user] *)
Definition setMember (c : t) (login : string) (user : User.t) : t :=
  {| Organization := Organization c; Teams := Teams c;
     Members := <[login := user]> (Members c);
     ExcludeCRAFromAllTeams := ExcludeCRAFromAllTeams c |}.
End Config.

#[global] Instance ExcludedMember_eq_dec : EqDecision ExcludedMember.t.
Proof. solve_decision. Defined.
#[global] Instance CodeReviewAssignment_eq_dec : EqDecision CodeReviewAssignment.t.
Proof. solve_decision. Defined.
(** [reflect.DeepEqual] on two [config.TeamConfig] values is this equality:
    strings, booleans and integers by value, slices nil with nil and
    otherwise element by element. *)
#[global] Instance TeamConfig_eq_dec : EqDecision TeamConfig.t.
Proof. solve_decision. Defined.

(** *** The query result of [manager.go] *)

Module PageInfo.
Record t := { EndCursor : string; HasNextPage : bool }.
End PageInfo.

Module teamMember.
Record t := { ID : string; Login : string; Name : string }.
End teamMember.

Module MemberPage.
(** The anonymous struct of [team.Members]. *)
Record t := { Nodes : list teamMember.t; PageInfo : PageInfo.t }.
End MemberPage.

Module team.
Record t := {
  Members : MemberPage.t;
  ID : string;
  DatabaseID : Z;
  Name : string;
  ReviewRequestDelegationEnabled : bool;
  ReviewRequestDelegationAlgorithm : string;
  ReviewRequestDelegationMemberCount : Z;
  ReviewRequestDelegationNotifyTeam : bool
}.
End team.

Module Teams.
Record t := { Nodes : list team.t; PageInfo : PageInfo.t }.

Fixpoint find (nodes : list team.t) (id : string) : option team.t :=
  match nodes with
  | [] => None
  | n :: nodes => if decide (team.ID n = id) then Some n else find nodes id
  end.

Definition WithID (t : t) (id : string) : error + team.t :=
  match find (Nodes t) id with
  | Some n => inr n
  | None => inl (TeamNotFound id)
  end.
End Teams.

Module queryResult.
(** [Organization.Teams] *)
Record t := { OrganizationTeams : Teams.t }.
End queryResult.

(** The [variables] map of [GetCurrentConfig]: a key that is absent and a
    key bound to the nil pointer both leave the default of [query], nil. *)
Module Vars.
Record t := { teamsCursor : option string; membersCursor : option string }.
Definition empty : t := {| teamsCursor := None; membersCursor := None |}.
End Vars.

(** *** [pkg/github]: the input of the review-assignment mutation *)

(** [githubv4.Int(n)]: the conversion of a Go [int] to the [int32] of the
    input keeps the low 32 bits, read as a signed number. *)
Definition toInt32 (n : Z) : Z := ((n + 2 ^ 31) mod 2 ^ 32 - 2 ^ 31)%Z.

Module UpdateTeamReviewAssignmentInput.
Record t := {
  ID : option string;
  Algorithm : string;
  Enabled : bool;
  ExcludedTeamMemberIDs : list string;
  NotifyTeam : bool;
  TeamMemberCount : Z
}.
Definition setID (input : t) (id : string) : t :=
  {| ID := Some id; Algorithm := Algorithm input; Enabled := Enabled input;
     ExcludedTeamMemberIDs := ExcludedTeamMemberIDs input;
     NotifyTeam := NotifyTeam input; TeamMemberCount := TeamMemberCount input |}.
End UpdateTeamReviewAssignmentInput.

(** ** The world around the program *)

(** The three places that call [tm.query]. *)
Inductive QuerySite := QueryInitial | QueryTeams | QueryMembers.

(** The mutation calls. *)
Inductive Call :=
| AddTeamMembershipBySlug (org slug user role : string)
| RemoveTeamMembershipBySlug (org slug user : string)
| UpdateTeamReviewAssignment (input : UpdateTeamReviewAssignmentInput.t).

(** The lines written to standard output. *)
Inductive Output :=
| OutOfSync (teamName : string) (localTeam remoteTeam : TeamConfig.t)
| GoingToSubmit
| ChangeTeam (teamName : string)
| ChangeAdding (logins : list string)
| ChangeRemoving (logins : list string)
| AddingMember (user teamName : string)
| RemovingMember (user teamName : string)
| ExcludingMembers (teamName : string)
| UserNotFound (login teamName : string).

(** The lines written to standard error. *)
Inductive Diagnostic :=
| UnableToSyncTeam (teamName : string) (err : error)
| UnableToSyncExcluded (teamName : string) (err : error).

Inductive Event :=
| EvQuery (site : QuerySite) (variables : Vars.t)
| EvAsk (prompt : string)
| EvPrint (line : Output)
| EvStderr (line : Diagnostic)
| EvCall (call : Call).

Definition isCall (e : Event) : bool :=
  match e with
  | EvCall _ => true
  | _ => false
  end.

(** [Manager]: the owner and the two clients. A query is answered from its
    cursors; a mutation may succeed or fail depending on everything that
    happened before it. *)
Record Manager := {
  owner : string;
  gqlQuery : Vars.t → error + queryResult.t;
  remoteCall : list Event → Call → option error
}.

(** The [range] statements over maps, by what they iterate. *)
Inductive Loop :=
| RangeLocalTeams
| RangeChangesPrint
| RangeChangesApply
| RangeTeamMembers (teamName : string)
| RangeTeamNames
| RangeExcluded (teamName : string).

(** An iteration order over the keys of a map, for every [range]. *)
Record MapOrder := {
  visit : Loop → list string → list string;
  visit_perm : ∀ lp l, visit lp l ≡ₚ l
}.

(** What the program gets from the Go library and from the terminal. *)
Record Runtime := {
  unicodeToLower : string → string;
  AskForConfirmation : string → error + bool;
  mapOrder : MapOrder
}.

Definition rangeSet (rt : Runtime) (lp : Loop) (s : gset string) : list string :=
  visit (mapOrder rt) lp (elements s).

Definition rangeKeys {V} (rt : Runtime) (lp : Loop) (m : gmap string V) : list string :=
  rangeSet rt lp (dom m).

Definition rangeMap {V} (rt : Runtime) (lp : Loop) (m : gmap string V) : list (string * V) :=
  omap (λ k, (k,.) <$> m !! k) (rangeKeys rt lp m).

(** The keys in the order of [elements]. *)
Definition orderedVisit : MapOrder :=
  {| visit := λ _ l, l; visit_perm := λ _ l, reflexivity l |}.

(** The keys in the opposite order. *)
Definition reversedVisit : MapOrder :=
  {| visit := λ _ l, reverse l; visit_perm := λ _ l, reverse_Permutation l |}.

(** ** The trace monad *)

Definition M (A : Type) : Type := list Event → list Event * A.

#[global] Instance M_ret : MRet M := λ A a tr, (tr, a).
#[global] Instance M_bind : MBind M :=
  λ A B k m tr, let '(tr', a) := m tr in k a tr'.

Definition emit (e : Event) : M unit := λ tr, (tr ++ [e], tt).

(** All that [m] does to the trace is to add events that satisfy [P]. *)
Definition emits {A} (P : Event → Prop) (m : M A) : Prop :=
  ∀ tr, ∃ new, (m tr).1 = tr ++ new ∧ Forall P new.

(** The result of a function with fuel: a value, the Go error, or no more
    fuel. *)
Inductive outcome (A : Type) :=
| Done (a : A)
| Fail (err : error)
| OutOfFuel.
Arguments Done {A} a.
Arguments Fail {A} err.
Arguments OutOfFuel {A}.

(** ** The program *)

(** Modelled from the spec: [slices.NotIn] of [pkg/slices], which is not
    among the sources; "set difference, order irrelevant": the elements of
    [a] that are not in [b]. *)
Definition NotIn (a b : slice string) : list string :=
  filter (λ x, x ∉ elems b) (elems a).

Section Program.

Variable tm : Manager.
Variable rt : Runtime.

Definition slug (s : string) : string := Slug.slug (unicodeToLower rt) s.

(** *** [GetCurrentConfig] *)

(** [tm.query]: the cursors default to nil, the first page. *)
Definition query (site : QuerySite) (additionalVariables : Vars.t)
  : M (error + queryResult.t) :=
  emit (EvQuery site additionalVariables);;
  mret (gqlQuery tm additionalVariables).

(** The [TeamConfig] of a team seen for the first time. *)
Definition newTeamCfg (t : team.t) : TeamConfig.t :=
  let cra :=
    if team.ReviewRequestDelegationEnabled t then
      {| CodeReviewAssignment.Algorithm := team.ReviewRequestDelegationAlgorithm t;
         CodeReviewAssignment.Enabled := team.ReviewRequestDelegationEnabled t;
         CodeReviewAssignment.ExcludedMembers := None;
         CodeReviewAssignment.NotifyTeam := team.ReviewRequestDelegationNotifyTeam t;
         CodeReviewAssignment.TeamMemberCount := team.ReviewRequestDelegationMemberCount t |}
    else CodeReviewAssignment.zero in
  {| TeamConfig.ID := team.ID t; TeamConfig.Members := None; TeamConfig.CRA := cra |}.

(** The body of the loop over the members of one page. *)
Definition addMember (st : TeamConfig.t * Config.t) (member : teamMember.t)
  : TeamConfig.t * Config.t :=
  let '(teamCfg, c) := st in
  let strLogin := teamMember.Login member in
  (TeamConfig.setMembers teamCfg (append (TeamConfig.Members teamCfg) strLogin),
   Config.setMember c strLogin
     {| User.ID := teamMember.ID member; User.Name := teamMember.Name member |}).

(** The inner [for]: the member pages of team [t]. *)
Fixpoint membersLoop (fuel : nat) (requeryMembers : bool)
    (result : queryResult.t) (t : team.t) (strTeamName : string)
    (teamCfg : TeamConfig.t) (variables : Vars.t) (c : Config.t)
  : M (outcome (Vars.t * Config.t)) :=
  match fuel with
  | O => mret OutOfFuel
  | S fuel =>
      r ← (if requeryMembers then query QueryMembers variables
           else mret (inr result));
      match r with
      | inl err => mret (Fail (Wrap "failed to requery team members" err))
      | inr innerResult =>
          match Teams.WithID (queryResult.OrganizationTeams innerResult) (team.ID t) with
          | inl err => mret (Fail err)
          | inr teamNode =>
              let '(teamCfg, c) :=
                foldl addMember (teamCfg, c)
                  (MemberPage.Nodes (team.Members teamNode)) in
              let teamCfg :=
                TeamConfig.setMembers teamCfg
                  (sortStrings <$> TeamConfig.Members teamCfg) in
              let c := Config.setTeam c strTeamName teamCfg in
              let pageInfo := MemberPage.PageInfo (team.Members teamNode) in
              if negb (PageInfo.HasNextPage pageInfo) then
                mret (Done (variables, c))
              else
                membersLoop fuel true result t strTeamName teamCfg
                  {| Vars.teamsCursor := Vars.teamsCursor variables;
                     Vars.membersCursor := Some (PageInfo.EndCursor pageInfo) |}
                  c
          end
      end
  end.

(** The loop over the teams of one page. *)
Fixpoint teamNodesLoop (fuel : nat) (result : queryResult.t)
    (nodes : list team.t) (variables : Vars.t) (c : Config.t)
  : M (outcome (Vars.t * Config.t)) :=
  match nodes with
  | [] => mret (Done (variables, c))
  | t :: nodes =>
      let strTeamName := team.Name t in
      let teamCfg :=
        match Config.Teams c !! strTeamName with
        | Some teamCfg => teamCfg
        | None => newTeamCfg t
        end in
      r ← membersLoop fuel false result t strTeamName teamCfg variables c;
      match r with
      | Done (variables, c) => teamNodesLoop fuel result nodes variables c
      | Fail err => mret (Fail err)
      | OutOfFuel => mret OutOfFuel
      end
  end.

(** The outer [for]: the team pages. [limit] is the fuel of each inner
    loop. *)
Fixpoint teamsLoop (limit fuel : nat) (requeryTeams : bool)
    (result : queryResult.t) (variables : Vars.t) (c : Config.t)
  : M (outcome Config.t) :=
  match fuel with
  | O => mret OutOfFuel
  | S fuel =>
      r ← (if requeryTeams then query QueryTeams variables
           else mret (inr result));
      match r with
      | inl err => mret (Fail (Wrap "failed to requery teams" err))
      | inr result =>
          let teams := queryResult.OrganizationTeams result in
          r ← teamNodesLoop limit result (Teams.Nodes teams) variables c;
          match r with
          | Done (variables, c) =>
              if negb (PageInfo.HasNextPage (Teams.PageInfo teams)) then
                mret (Done c)
              else
                teamsLoop limit fuel true result
                  {| Vars.teamsCursor :=
                       Some (PageInfo.EndCursor (Teams.PageInfo teams));
                     Vars.membersCursor := None |}
                  c
          | Fail err => mret (Fail err)
          | OutOfFuel => mret OutOfFuel
          end
      end
  end.

(** [fuel] bounds the number of team pages, and the number of member pages
    of each team. *)
Definition GetCurrentConfig (fuel : nat) : M (outcome Config.t) :=
  let c :=
    {| Config.Organization := owner tm; Config.Teams := ∅;
       Config.Members := ∅; Config.ExcludeCRAFromAllTeams := None |} in
  let variables := Vars.empty in
  r ← query QueryInitial variables;
  match r with
  | inl err => mret (Fail (Wrap "failed to query github api" err))
  | inr result => teamsLoop fuel fuel false result variables c
  end.

(** *** [SyncTeamMembers] and [SyncTeamReviewAssignment] *)

(** One mutation call: it is recorded, and the platform answers. *)
Definition call (c : Call) : M (option error) :=
  λ tr, (tr ++ [EvCall c], remoteCall tm tr c).

Fixpoint addMembers (teamName : string) (add : list string) : M (option error) :=
  match add with
  | [] => mret None
  | user :: add =>
      emit (EvPrint (AddingMember user teamName));;
      r ← call (AddTeamMembershipBySlug (owner tm) (slug teamName) user "member");
      match r with
      | Some err => mret (Some err)
      | None => addMembers teamName add
      end
  end.

Fixpoint removeMembers (teamName : string) (remove : list string) : M (option error) :=
  match remove with
  | [] => mret None
  | user :: remove =>
      emit (EvPrint (RemovingMember user teamName));;
      r ← call (RemoveTeamMembershipBySlug (owner tm) (slug teamName) user);
      match r with
      | Some err => mret (Some err)
      | None => removeMembers teamName remove
      end
  end.

Definition SyncTeamMembers (teamName : string) (add remove : list string)
  : M (option error) :=
  r ← addMembers teamName add;
  match r with
  | Some err => mret (Some err)
  | None => removeMembers teamName remove
  end.

Definition SyncTeamReviewAssignment (teamID : string)
    (input : UpdateTeamReviewAssignmentInput.t) : M (option error) :=
  let input := UpdateTeamReviewAssignmentInput.setID input teamID in
  call (UpdateTeamReviewAssignment input).

(** *** [getExcludedUsers] *)

(** The first loop: the exclusions of the team. *)
Fixpoint excludeTeamMembers (teamName : string) (members : gmap string User.t)
    (excTeamMembers : list ExcludedMember.t) (m : gset string) : M (gset string) :=
  match excTeamMembers with
  | [] => mret m
  | member :: excTeamMembers =>
      match members !! ExcludedMember.Login member with
      | None =>
          emit (EvPrint (UserNotFound (ExcludedMember.Login member) teamName));;
          excludeTeamMembers teamName members excTeamMembers m
      | Some user =>
          excludeTeamMembers teamName members excTeamMembers ({[User.ID user]} ∪ m)
      end
  end.

(** The second loop: the exclusions of the whole organization. *)
Fixpoint excludeAllTeams (members : gmap string User.t)
    (excAllTeams : list string) (m : gset string) : gset string :=
  match excAllTeams with
  | [] => m
  | member :: excAllTeams =>
      match members !! member with
      | None => excludeAllTeams members excAllTeams m
      | Some user => excludeAllTeams members excAllTeams ({[User.ID user]} ∪ m)
      end
  end.

Definition getExcludedUsers (teamName : string) (members : gmap string User.t)
    (excTeamMembers : slice ExcludedMember.t) (excAllTeams : slice string)
  : M (list string) :=
  m ← excludeTeamMembers teamName members (elems excTeamMembers) ∅;
  let m := excludeAllTeams members (elems excAllTeams) m in
  mret (rangeSet rt (RangeExcluded teamName) m).

(** *** [SyncTeams] *)

Record teamChange := { add : list string; remove : list string }.

(** The change of a team whose local and remote definitions differ: the
    members to add and to remove, if there are any. *)
Definition changeOf (localTeam upstreamTeam : TeamConfig.t) : option teamChange :=
  let toAdd := NotIn (TeamConfig.Members localTeam) (TeamConfig.Members upstreamTeam) in
  let toDel := NotIn (TeamConfig.Members upstreamTeam) (TeamConfig.Members localTeam) in
  if negb (length toAdd =? 0)%nat || negb (length toDel =? 0)%nat then
    Some {| add := toAdd; remove := toDel |}
  else None.

(** The body of the first loop. [localTeam] is the loop variable, a copy of
    the value in the map; its last value is returned with the change. *)
Definition diffTeam (localTeamName : string) (localTeam upstreamTeam : TeamConfig.t)
  : M (TeamConfig.t * option teamChange) :=
  let backExcludedMembers :=
    CodeReviewAssignment.ExcludedMembers (TeamConfig.CRA localTeam) in
  let localTeam := TeamConfig.setExcludedMembers localTeam None in
  change ←
    (if decide (localTeam = upstreamTeam) then mret None
     else
       emit (EvPrint (OutOfSync localTeamName localTeam upstreamTeam));;
       mret (changeOf localTeam upstreamTeam));
  let localTeam := TeamConfig.setExcludedMembers localTeam backExcludedMembers in
  mret (localTeam, change).

Fixpoint diffLoop (upstreamCfg : Config.t)
    (localTeams : list (string * TeamConfig.t))
    (teamChanges : gmap string teamChange) : M (gmap string teamChange) :=
  match localTeams with
  | [] => mret teamChanges
  | (localTeamName, localTeam) :: localTeams =>
      r ← diffTeam localTeamName localTeam (Config.team upstreamCfg localTeamName);
      let teamChanges :=
        match r.2 with
        | Some change => <[localTeamName := change]> teamChanges
        | None => teamChanges
        end in
      diffLoop upstreamCfg localTeams teamChanges
  end.

Fixpoint printChanges (teamChanges : list (string * teamChange)) : M unit :=
  match teamChanges with
  | [] => mret tt
  | (teamName, teamCfg) :: teamChanges =>
      emit (EvPrint (ChangeTeam teamName));;
      emit (EvPrint (ChangeAdding (add teamCfg)));;
      emit (EvPrint (ChangeRemoving (remove teamCfg)));;
      printChanges teamChanges
  end.

(** The member set rebuilt after a change: the members of the team, less
    the removed ones, plus the added ones. *)
Definition memberSet (members remove add : list string) : gset string :=
  let teamMembers := foldl (λ s member, {[member]} ∪ s) ∅ members in
  let teamMembers := foldl (λ s rmMember, s ∖ {[rmMember]}) teamMembers remove in
  foldl (λ s addMember, {[addMember]} ∪ s) teamMembers add.

(** The team of [teamName] with its member list rebuilt from the change. *)
Definition updateMembers (localCfg : Config.t) (teamName : string)
    (teamCfg : teamChange) : Config.t :=
  let teamMembers :=
    memberSet (elems (TeamConfig.Members (Config.team localCfg teamName)))
      (remove teamCfg) (add teamCfg) in
  let team := Config.team localCfg teamName in
  let team :=
    TeamConfig.setMembers team
      (Some (rangeSet rt (RangeTeamMembers teamName) teamMembers)) in
  Config.setTeam localCfg teamName team.

(** The body of the loop that applies the changes. *)
Definition applyChange (dryRun : bool) (localCfg : Config.t)
    (teamName : string) (teamCfg : teamChange) : M Config.t :=
  r ← (if negb dryRun then SyncTeamMembers teamName (add teamCfg) (remove teamCfg)
       else mret None);
  match r with
  | Some err =>
      emit (EvStderr (UnableToSyncTeam teamName err));;
      mret localCfg
  | None => mret (updateMembers localCfg teamName teamCfg)
  end.

Fixpoint applyLoop (dryRun : bool) (teamChanges : list (string * teamChange))
    (localCfg : Config.t) : M Config.t :=
  match teamChanges with
  | [] => mret localCfg
  | (teamName, teamCfg) :: teamChanges =>
      localCfg ← applyChange dryRun localCfg teamName teamCfg;
      applyLoop dryRun teamChanges localCfg
  end.

Definition ask (prompt : string) : M (error + bool) :=
  emit (EvAsk prompt);;
  mret (AskForConfirmation rt prompt).

(** [yes := force; if !force { yes, err = terminal.AskForConfirmation(..) }] *)
Definition confirm (force : bool) (prompt : string) : M (error + bool) :=
  if force then mret (inr true) else ask prompt.

(** The body of the loop over the sorted team names. *)
Definition syncReviewAssignment (dryRun : bool) (localCfg : Config.t)
    (teamName : string) : M unit :=
  let storedTeam := Config.team localCfg teamName in
  let cra := TeamConfig.CRA storedTeam in
  usersIDs ← getExcludedUsers teamName (Config.Members localCfg)
    (CodeReviewAssignment.ExcludedMembers cra)
    (Config.ExcludeCRAFromAllTeams localCfg);
  let input :=
    {| UpdateTeamReviewAssignmentInput.ID := None;
       UpdateTeamReviewAssignmentInput.Algorithm := CodeReviewAssignment.Algorithm cra;
       UpdateTeamReviewAssignmentInput.Enabled := CodeReviewAssignment.Enabled cra;
       UpdateTeamReviewAssignmentInput.ExcludedTeamMemberIDs := usersIDs;
       UpdateTeamReviewAssignmentInput.NotifyTeam := CodeReviewAssignment.NotifyTeam cra;
       UpdateTeamReviewAssignmentInput.TeamMemberCount :=
         toInt32 (CodeReviewAssignment.TeamMemberCount cra) |} in
  emit (EvPrint (ExcludingMembers teamName));;
  if negb dryRun then
    r ← SyncTeamReviewAssignment (TeamConfig.ID storedTeam) input;
    match r with
    | Some err => emit (EvStderr (UnableToSyncExcluded teamName err))
    | None => mret tt
    end
  else mret tt.

Fixpoint reviewLoop (dryRun : bool) (localCfg : Config.t)
    (teamNames : list string) : M unit :=
  match teamNames with
  | [] => mret tt
  | teamName :: teamNames =>
      syncReviewAssignment dryRun localCfg teamName;;
      reviewLoop dryRun localCfg teamNames
  end.

(** The first pass, from the diff to the applied member changes. *)
Definition membershipPass (upstreamCfg localCfg : Config.t)
    (force dryRun : bool) : M (outcome Config.t) :=
  teamChanges ← diffLoop upstreamCfg
    (rangeMap rt RangeLocalTeams (Config.Teams localCfg)) ∅;
  if negb (size teamChanges =? 0)%nat then
    emit (EvPrint GoingToSubmit);;
    printChanges (rangeMap rt RangeChangesPrint teamChanges);;
    yes ← confirm force "Continue?";
    match yes with
    | inl err => mret (Fail err)
    | inr true =>
        localCfg ← applyLoop dryRun (rangeMap rt RangeChangesApply teamChanges) localCfg;
        mret (Done localCfg)
    | inr false => mret (Done localCfg)
    end
  else mret (Done localCfg).

(** The second pass: the review assignments. *)
Definition reviewPass (localCfg : Config.t) (force dryRun : bool)
  : M (outcome Config.t) :=
  yes ← confirm force "Do you want to update CodeReviewAssignments?";
  match yes with
  | inl err => mret (Fail err)
  | inr true =>
      let teamNames := rangeKeys rt RangeTeamNames (Config.Teams localCfg) in
      let teamNames := sortStrings teamNames in
      reviewLoop dryRun localCfg teamNames;;
      mret (Done localCfg)
  | inr false => mret (Done localCfg)
  end.

Definition SyncTeams (fuel : nat) (localCfg : Config.t) (force dryRun : bool)
  : M (outcome Config.t) :=
  r ← GetCurrentConfig fuel;
  match r with
  | Done upstreamCfg =>
      r ← membershipPass upstreamCfg localCfg force dryRun;
      match r with
      | Done localCfg => reviewPass localCfg force dryRun
      | Fail err => mret (Fail err)
      | OutOfFuel => mret OutOfFuel
      end
  | Fail err => mret (Fail err)
  | OutOfFuel => mret OutOfFuel
  end.

End Program.

(** ** Notions used in the statements *)

(** Two team definitions that agree on every field except
    [CodeReviewAssignment.ExcludedMembers]. *)
Definition equalButExcluded (a b : TeamConfig.t) : Prop :=
  TeamConfig.ID a = TeamConfig.ID b ∧
  TeamConfig.Members a = TeamConfig.Members b ∧
  CodeReviewAssignment.Algorithm (TeamConfig.CRA a) =
    CodeReviewAssignment.Algorithm (TeamConfig.CRA b) ∧
  CodeReviewAssignment.Enabled (TeamConfig.CRA a) =
    CodeReviewAssignment.Enabled (TeamConfig.CRA b) ∧
  CodeReviewAssignment.NotifyTeam (TeamConfig.CRA a) =
    CodeReviewAssignment.NotifyTeam (TeamConfig.CRA b) ∧
  CodeReviewAssignment.TeamMemberCount (TeamConfig.CRA a) =
    CodeReviewAssignment.TeamMemberCount (TeamConfig.CRA b).

(** Two team definitions that differ at most in their member lists. *)
Definition sameButMembers (a b : TeamConfig.t) : Prop :=
  TeamConfig.ID a = TeamConfig.ID b ∧ TeamConfig.CRA a = TeamConfig.CRA b.

(** Two team definitions with the same members, in whatever order, and
    equal otherwise. *)
Definition sameUpToMemberOrder (a b : TeamConfig.t) : Prop :=
  sameButMembers a b ∧
  elems (TeamConfig.Members a) ≡ₚ elems (TeamConfig.Members b).

(** Two configurations with the same teams, which differ at most in the
    member lists of the teams. *)
Definition frame (c c' : Config.t) : Prop :=
  Config.Organization c = Config.Organization c' ∧
  Config.Members c = Config.Members c' ∧
  Config.ExcludeCRAFromAllTeams c = Config.ExcludeCRAFromAllTeams c' ∧
  ∀ name, option_Forall2 sameButMembers
            (Config.Teams c !! name) (Config.Teams c' !! name).

(** An event that is not a mutation call. *)
Definition notCall (e : Event) : Prop := isCall e = false.

(** The attempt to apply a change remotely: skipped in a dry run. *)
Definition attempt (tm : Manager) (rt : Runtime) (dryRun : bool)
    (teamName : string) (teamCfg : teamChange) : M (option error) :=
  if negb dryRun then SyncTeamMembers tm rt teamName (add teamCfg) (remove teamCfg)
  else mret None.

(** The run may reach the mutation calls guarded by [prompt]. *)
Definition mayCall (rt : Runtime) (force dryRun : bool) (prompt : string) : Prop :=
  dryRun = false ∧ (force = true ∨ AskForConfirmation rt prompt = inr true).

(** The pending change of a local team against its remote counterpart. *)
Definition pendingChange (localTeam upstreamTeam : TeamConfig.t) : option teamChange :=
  let cleared := TeamConfig.setExcludedMembers localTeam None in
  if decide (cleared = upstreamTeam) then None else changeOf cleared upstreamTeam.

(** The pending changes of a local configuration. *)
Definition pendingChanges (upstreamCfg localCfg : Config.t) : gmap string teamChange :=
  map_imap (λ name localTeam, pendingChange localTeam (Config.team upstreamCfg name))
    (Config.Teams localCfg).

(** ** A platform that serves an organization in pages *)

Module Remote.

Record Team := {
  ID : string;
  DatabaseID : Z;
  Name : string;
  DelegationEnabled : bool;
  DelegationAlgorithm : string;
  DelegationMemberCount : Z;
  DelegationNotifyTeam : bool;
  (** the members of the team, page by page *)
  MemberPages : list (list teamMember.t)
}.

(** The organization: its teams, page by page. *)
Abbreviation t := (list (list Team)).

(** The cursor that ends page [n - 1] and asks for page [n]. *)
Fixpoint cursor (n : nat) : string :=
  match n with
  | O => EmptyString
  | S n => String "c" (cursor n)
  end.

(** The page a cursor asks for; the nil cursor asks for the first. *)
Definition position (c : option string) : nat :=
  match c with
  | None => 0
  | Some s => String.length s
  end.

Definition pageInfo (i total : nat) : PageInfo.t :=
  {| PageInfo.EndCursor := cursor (S i);
     PageInfo.HasNextPage := (S i <? total)%nat |}.

(** Team [t] with page [j] of its members. *)
Definition node (j : nat) (t : Team) : team.t :=
  {| team.Members :=
       {| MemberPage.Nodes := nth j (MemberPages t) [];
          MemberPage.PageInfo := pageInfo j (length (MemberPages t)) |};
     team.ID := ID t;
     team.DatabaseID := DatabaseID t;
     team.Name := Name t;
     team.ReviewRequestDelegationEnabled := DelegationEnabled t;
     team.ReviewRequestDelegationAlgorithm := DelegationAlgorithm t;
     team.ReviewRequestDelegationMemberCount := DelegationMemberCount t;
     team.ReviewRequestDelegationNotifyTeam := DelegationNotifyTeam t |}.

(** The answer to the organization query: the team page of [teamsCursor],
    every team of it with its member page of [membersCursor]. *)
Definition page (org : t) (i j : nat) : queryResult.t :=
  {| queryResult.OrganizationTeams :=
       {| Teams.Nodes := node j <$> nth i org [];
          Teams.PageInfo := pageInfo i (length org) |} |}.

Definition serve (org : t) (variables : Vars.t) : error + queryResult.t :=
  inr (page org (position (Vars.teamsCursor variables))
         (position (Vars.membersCursor variables))).

(** A manager in front of that platform, all of whose mutations succeed. *)
Definition manager (owner : string) (org : t) : Manager :=
  {| owner := owner; gqlQuery := serve org; remoteCall := λ _ _, None |}.

(** The logins of all the member pages of a team. *)
Definition logins (t : Team) : list string :=
  teamMember.Login <$> concat (MemberPages t).

(** The review assignment [GetCurrentConfig] is to report for a team. *)
Definition reviewAssignment (t : Team) : CodeReviewAssignment.t :=
  if DelegationEnabled t then
    {| CodeReviewAssignment.Algorithm := DelegationAlgorithm t;
       CodeReviewAssignment.Enabled := true;
       CodeReviewAssignment.ExcludedMembers := None;
       CodeReviewAssignment.NotifyTeam := DelegationNotifyTeam t;
       CodeReviewAssignment.TeamMemberCount := DelegationMemberCount t |}
  else CodeReviewAssignment.zero.

(** The member pages from page [j] to page [j + n]; a page past the last
    one is empty. *)
Definition pagesFrom (t : Team) (j n : nat) : list (list teamMember.t) :=
  (λ k, nth k (MemberPages t) []) <$> seq j (S n).

(** The member pages the inner loop visits: all of them, and one empty
    page when there is none. *)
Definition visitedPages (t : Team) : list (list teamMember.t) :=
  pagesFrom t 0 (length (MemberPages t) - 1).

(** The member list after one more page: the logins are appended, and the
    list is sorted. *)
Definition addPage (members : slice string) (page : list teamMember.t) : slice string :=
  sortStrings <$> foldl (λ ms member, append ms (teamMember.Login member)) members page.

(** What [GetCurrentConfig] stores for a team. *)
Definition fetched (t : Team) : TeamConfig.t :=
  {| TeamConfig.ID := ID t;
     TeamConfig.Members := foldl addPage None (visitedPages t);
     TeamConfig.CRA := reviewAssignment t |}.

Definition fetchedTeams (teams : list Team) (m : gmap string TeamConfig.t)
  : gmap string TeamConfig.t :=
  foldl (λ m t, <[Name t := fetched t]> m) m teams.

(** Fuel that is enough to fetch the organization. *)
Definition fuel (org : t) : nat :=
  S (length org + max_list (length ∘ MemberPages <$> concat org)).

End Remote.

(** ** Sample data *)

Module Sample.

Definition member (login : string) : teamMember.t :=
  {| teamMember.ID := "U_" +:+ login; teamMember.Login := login;
     teamMember.Name := login |}.

Definition remoteTeam (id name : string) (pages : list (list string)) : Remote.Team :=
  {| Remote.ID := id; Remote.DatabaseID := 0; Remote.Name := name;
     Remote.DelegationEnabled := false; Remote.DelegationAlgorithm := "";
     Remote.DelegationMemberCount := 0; Remote.DelegationNotifyTeam := false;
     Remote.MemberPages := map (map member) pages |}.

(** Two team pages; the members of "ops" come in two pages, and "qa" has
    no member. *)
Definition org : Remote.t :=
  [ [ remoteTeam "T_ops" "ops" [["c"]; ["b"]]; remoteTeam "T_dev" "dev" [["d"]] ];
    [ remoteTeam "T_qa" "qa" [] ] ].

Definition teamConfig (id : string) (members : slice string)
    (excluded : slice ExcludedMember.t) : TeamConfig.t :=
  {| TeamConfig.ID := id; TeamConfig.Members := members;
     TeamConfig.CRA :=
       CodeReviewAssignment.setExcludedMembers CodeReviewAssignment.zero excluded |}.

Definition user (login : string) : User.t :=
  {| User.ID := "U_" +:+ login; User.Name := login |}.

(** What [GetCurrentConfig] makes of [org]. *)
Definition upstreamCfg : Config.t :=
  {| Config.Organization := "acme";
     Config.Teams :=
       {[ "ops" := teamConfig "T_ops" (Some ["b"; "c"]) None;
          "dev" := teamConfig "T_dev" (Some ["d"]) None;
          "qa" := teamConfig "T_qa" None None ]};
     Config.Members := {[ "b" := user "b"; "c" := user "c"; "d" := user "d" ]};
     Config.ExcludeCRAFromAllTeams := None |}.

Definition devTeam : TeamConfig.t :=
  teamConfig "T_dev" (Some ["d"]) (Some [ {| ExcludedMember.Login := "d" |} ]).

(** The local configuration: "ops" is to have the members a and b, and "qa"
    the member e; "dev" is as on the platform, with an exclusion. *)
Definition localCfg : Config.t :=
  {| Config.Organization := "acme";
     Config.Teams :=
       {[ "ops" := teamConfig "T_ops" (Some ["a"; "b"])
                     (Some [ {| ExcludedMember.Login := "a" |};
                             {| ExcludedMember.Login := "ghost" |} ]);
          "dev" := devTeam;
          "qa" := teamConfig "T_qa" (Some ["e"]) None ]};
     Config.Members :=
       {[ "a" := user "a"; "b" := user "b"; "c" := user "c"; "d" := user "d";
          "e" := user "e" ]};
     Config.ExcludeCRAFromAllTeams := Some ["d"; "bot"] |}.

(** The changes that are pending between [localCfg] and [upstreamCfg]. *)
Definition changes : gmap string teamChange :=
  {[ "ops" := {| add := ["a"]; remove := ["c"] |};
     "qa" := {| add := ["e"]; remove := [] |} ]}.

Definition runtime (answer : bool) (order : MapOrder) : Runtime :=
  {| unicodeToLower := λ s, s;
     AskForConfirmation := λ _, inr answer;
     mapOrder := order |}.

(** A manager all of whose calls succeed. *)
Definition manager : Manager := Remote.manager "acme" org.

(** A manager whose calls for the team "ops" fail. *)
Definition failingOps : Manager :=
  {| owner := "acme"; gqlQuery := Remote.serve org;
     remoteCall := λ _ c,
       match c with
       | AddTeamMembershipBySlug _ "ops" _ _ => Some (RemoteError "forbidden")
       | _ => None
       end |}.

End Sample.

(** ** Notions used in further statements *)

(** The mutation calls of a trace, in order. *)
Definition callsOf (tr : list Event) : list Call :=
  omap (λ e, match e with EvCall c => Some c | _ => None end) tr.

(** An event that is a query. *)
Definition isQuery (e : Event) : Prop := ∃ site v, e = EvQuery site v.

(** An event that is not a prompt. *)
Definition notAsk (e : Event) : Prop := ∀ prompt, e ≠ EvAsk prompt.

(** The calls [SyncTeamMembers] is to make: one add per login to add, then
    one remove per login to remove. *)
Definition memberCalls (tm : Manager) (rt : Runtime) (teamName : string)
    (add remove : list string) : list Call :=
  ((λ user, AddTeamMembershipBySlug (owner tm) (slug rt teamName) user "member") <$> add)
  ++ ((λ user, RemoveTeamMembershipBySlug (owner tm) (slug rt teamName) user) <$> remove).

(** The input [SyncTeams] submits for the review assignment of a team. *)
Definition reviewInput (rt : Runtime) (localCfg : Config.t) (teamName : string)
  : UpdateTeamReviewAssignmentInput.t :=
  let storedTeam := Config.team localCfg teamName in
  let cra := TeamConfig.CRA storedTeam in
  {| UpdateTeamReviewAssignmentInput.ID := Some (TeamConfig.ID storedTeam);
     UpdateTeamReviewAssignmentInput.Algorithm := CodeReviewAssignment.Algorithm cra;
     UpdateTeamReviewAssignmentInput.Enabled := CodeReviewAssignment.Enabled cra;
     UpdateTeamReviewAssignmentInput.ExcludedTeamMemberIDs :=
       (getExcludedUsers rt teamName (Config.Members localCfg)
          (CodeReviewAssignment.ExcludedMembers cra)
          (Config.ExcludeCRAFromAllTeams localCfg) []).2;
     UpdateTeamReviewAssignmentInput.NotifyTeam := CodeReviewAssignment.NotifyTeam cra;
     UpdateTeamReviewAssignmentInput.TeamMemberCount :=
       toInt32 (CodeReviewAssignment.TeamMemberCount cra) |}.

(** The context that each place adds to the error of its query. *)
Definition queryContext (site : QuerySite) : string :=
  match site with
  | QueryInitial => "failed to query github api"
  | QueryTeams => "failed to requery teams"
  | QueryMembers => "failed to requery team members"
  end.

(** No team of the response has the identifier. *)
Definition lacksTeam (result : queryResult.t) (id : string) : Prop :=
  ∀ n, n ∈ Teams.Nodes (queryResult.OrganizationTeams result) → team.ID n ≠ id.

(** One of the queries [queries] asked for a team page, and the page it got
    lists a team of the identifier. *)
Definition listedTeam (tm : Manager) (queries : list Event) (id : string) : Prop :=
  ∃ site v page t,
    EvQuery site v ∈ queries ∧ site ≠ QueryMembers ∧
    gqlQuery tm v = inr page ∧
    t ∈ Teams.Nodes (queryResult.OrganizationTeams page) ∧ team.ID t = id.

(** The error [e] of a fetch that stops at the query of [site] with the
    variables [v], after the queries [earlier]: the error of that query with
    the context of its place; or, when the query is answered, it is a
    requery of members whose response lacks a team that a team page listed,
    and [e] is the error of [WithID] for that team. *)
Definition fetchError (tm : Manager) (earlier : list Event) (site : QuerySite)
    (v : Vars.t) (e : error) : Prop :=
  match gqlQuery tm v with
  | inl err => e = Wrap (queryContext site) err
  | inr result =>
      site = QueryMembers ∧
      ∃ id, e = TeamNotFound id ∧ lacksTeam result id ∧ listedTeam tm earlier id
  end.

(** Every mutation call among the events [new], made after the history
    [tr], succeeded. *)
Fixpoint callsSucceed (tm : Manager) (tr new : list Event) : Prop :=
  match new with
  | [] => True
  | e :: new =>
      match e with
      | EvCall c => remoteCall tm tr c = None
      | _ => True
      end ∧ callsSucceed tm (tr ++ [e]) new
  end.

(** What holds of every team that [GetCurrentConfig] stores in [c]: no
    excluded members, a sorted member list, and every member in the
    directory of [c]. *)
Definition fetchedTeamOk (c : Config.t) (teamCfg : TeamConfig.t) : Prop :=
  CodeReviewAssignment.ExcludedMembers (TeamConfig.CRA teamCfg) = None ∧
  Sorted strLe (elems (TeamConfig.Members teamCfg)) ∧
  ∀ login, login ∈ elems (TeamConfig.Members teamCfg) →
           is_Some (Config.Members c !! login).

Definition fetchedOk (tm : Manager) (c : Config.t) : Prop :=
  Config.Organization c = owner tm ∧
  Config.ExcludeCRAFromAllTeams c = None ∧
  ∀ name teamCfg, Config.Teams c !! name = Some teamCfg → fetchedTeamOk c teamCfg.

(** Two team definitions with the same identifier, review assignment and
    set of members. *)
Definition sameMemberSet (a b : TeamConfig.t) : Prop :=
  sameButMembers a b ∧
  ∀ login, login ∈ elems (TeamConfig.Members a) ↔ login ∈ elems (TeamConfig.Members b).

(** A call of the membership pass that the diff of [localCfg] against
    [upstreamCfg] asks for: the addition of a member of a local team that
    the remote team does not have, or the removal of a member of the remote
    team that the local team does not have. *)
Definition diffCall (tm : Manager) (rt : Runtime) (upstreamCfg localCfg : Config.t)
    (c : Call) : Prop :=
  ∃ name localTeam user,
    Config.Teams localCfg !! name = Some localTeam ∧
    ((c = AddTeamMembershipBySlug (owner tm) (slug rt name) user "member" ∧
      user ∈ elems (TeamConfig.Members localTeam) ∧
      user ∉ elems (TeamConfig.Members (Config.team upstreamCfg name))) ∨
     (c = RemoveTeamMembershipBySlug (owner tm) (slug rt name) user ∧
      user ∈ elems (TeamConfig.Members (Config.team upstreamCfg name)) ∧
      user ∉ elems (TeamConfig.Members localTeam))).

(** The bytes of a string that satisfy [p], in order. *)
Fixpoint keepBytes (p : ascii → bool) (s : string) : string :=
  match s with
  | EmptyString => EmptyString
  | String c s' => if p c then String c (keepBytes p s') else keepBytes p s'
  end.

(** ** The command [add-team] *)

Module Cmd.

(** What the command reads of a [gh.Team]: [GetName] and [GetNodeID]. *)
Record ghTeam := { Name : string; NodeID : string }.

(** The errors of the command: a wrapped error of the client, or
    [fmt.Errorf("team %q already exists", name)]. *)
Inductive cmdError :=
| ClientError (err : error)
| TeamExists (name : string).

Section AddTeams.

(** [ghClient.Teams.GetTeamBySlug(ctx, orgName, slug)] *)
Variable GetTeamBySlug : string → error + ghTeam.

(** [cfg] is updated in place: the configuration is returned with the
    error, as the caller finds it afterwards. *)
Fixpoint addTeamsToConfig (addTeams : list string) (cfg : Config.t)
  : Config.t * option cmdError :=
  match addTeams with
  | [] => (cfg, None)
  | addTeam :: addTeams =>
      match GetTeamBySlug addTeam with
      | inl err => (cfg, Some (ClientError (Wrap "failed to get GitHub team" err)))
      | inr t =>
          match Config.Teams cfg !! Name t with
          | Some _ => (cfg, Some (TeamExists (Name t)))
          | None =>
              let cfg :=
                Config.setTeam cfg (Name t)
                  {| TeamConfig.ID := NodeID t; TeamConfig.Members := None;
                     TeamConfig.CRA := CodeReviewAssignment.zero |} in
              addTeamsToConfig addTeams cfg
          end
      end
  end.

End AddTeams.

End Cmd.

(** ** More sample data *)

Module Cases.

(** A manager whose platform does not answer. *)
Definition unreachable : Manager :=
  {| owner := "acme"; gqlQuery := λ _, inl (RemoteError "unreachable");
     remoteCall := λ _ _, None |}.

(** A manager whose review-assignment mutation fails for every team. *)
Definition failingReview : Manager :=
  {| owner := "acme"; gqlQuery := Remote.serve Sample.org;
     remoteCall := λ _ c,
       match c with
       | UpdateTeamReviewAssignment _ => Some (RemoteError "forbidden")
       | _ => None
       end |}.

(** A platform that loses its teams between two queries: a requery of
    members is answered with a page that has no team. *)
Definition vanishing : Manager :=
  {| owner := "acme";
     gqlQuery := λ v,
       match Vars.membersCursor v with
       | None => Remote.serve Sample.org v
       | Some _ =>
           inr {| queryResult.OrganizationTeams :=
                    {| Teams.Nodes := [];
                       Teams.PageInfo := {| PageInfo.EndCursor := "";
                                            PageInfo.HasNextPage := false |} |} |}
       end;
     remoteCall := λ _ _, None |}.

(** A terminal that reads the answer to the first prompt, yes, and fails to
    read the answer to the second. *)
Definition hangsUp : Runtime :=
  {| unicodeToLower := λ s, s;
     AskForConfirmation := λ prompt,
       if decide (prompt = "Continue?") then inr true
       else inl (RemoteError "no terminal");
     mapOrder := orderedVisit |}.

(** A terminal that fails to read the answer. *)
Definition brokenTerminal : Runtime :=
  {| unicodeToLower := λ s, s;
     AskForConfirmation := λ _, inl (RemoteError "no terminal");
     mapOrder := orderedVisit |}.

(** A configuration whose team asks for more reviewers than an [int32]
    holds. *)
Definition wideCount : Config.t :=
  {| Config.Organization := "acme";
     Config.Teams :=
       {[ "big" :=
            {| TeamConfig.ID := "T_big"; TeamConfig.Members := None;
               TeamConfig.CRA :=
                 {| CodeReviewAssignment.Algorithm := "ROUND_ROBIN";
                    CodeReviewAssignment.Enabled := true;
                    CodeReviewAssignment.ExcludedMembers := None;
                    CodeReviewAssignment.NotifyTeam := false;
                    CodeReviewAssignment.TeamMemberCount := 4294967297%Z |} |} ]};
     Config.Members := ∅;
     Config.ExcludeCRAFromAllTeams := None |}.

(** A local team that the platform does not have. *)
Definition newTeam : TeamConfig.t := Sample.teamConfig "" (Some ["x"; "y"]) None.

(** The slugs the client knows, with the team of each. *)
Definition lookup (slug : string) : error + Cmd.ghTeam :=
  match slug with
  | "sec" => inr {| Cmd.Name := "Security"; Cmd.NodeID := "T_sec" |}
  | "docs" => inr {| Cmd.Name := "Docs"; Cmd.NodeID := "T_docs" |}
  | "ops" => inr {| Cmd.Name := "ops"; Cmd.NodeID := "T_ops" |}
  | _ => inl (RemoteError "404")
  end.

End Cases.

(** ** The queries of a fetch *)

Module Queries.

(** The requery for page [j] of the members of a team, on the team page of
    cursor [tc]. *)
Definition memberQuery (tc : option string) (j : nat) : Event :=
  EvQuery QueryMembers
    {| Vars.teamsCursor := tc; Vars.membersCursor := Some (Remote.cursor j) |}.

(** The requeries for the member pages of a team after the first. *)
Definition ofTeam (tc : option string) (t : Remote.Team) : list Event :=
  memberQuery tc <$> seq 1 (length (Remote.MemberPages t) - 1).

(** The requeries for the teams of one team page. *)
Definition ofTeams (tc : option string) (teams : list Remote.Team) : list Event :=
  concat (ofTeam tc <$> teams).

(** The requery for team page [i], with the member cursor reset, and the
    requeries for its teams. *)
Definition ofPage (org : Remote.t) (i : nat) : list Event :=
  EvQuery QueryTeams
    {| Vars.teamsCursor := Some (Remote.cursor i); Vars.membersCursor := None |}
  :: ofTeams (Some (Remote.cursor i)) (nth i org []).

(** All the queries of a fetch: every team page once, and every further
    member page of every team once, in order. *)
Definition all (org : Remote.t) : list Event :=
  EvQuery QueryInitial Vars.empty
  :: ofTeams None (nth 0 org [])
  ++ concat (ofPage org <$> seq 1 (length org - 1)).

End Queries.

(** * Properties *)

(** ** The trace monad *)

Lemma bind_run {A B} (m : M A) (k : A → M B) tr :
  (m ≫= k) tr = k (m tr).2 (m tr).1.
Proof. unfold mbind, M_bind. by destruct (m tr). Qed.

Lemma emits_ret {A} P (a : A) : emits P (mret a).
Proof. intros tr. exists []. by rewrite app_nil_r. Qed.

Lemma emits_emit (P : Event → Prop) e : P e → emits P (emit e).
Proof. intros He tr. exists [e]. split; [done|]. by constructor. Qed.

Lemma emits_bind {A B} P (m : M A) (k : A → M B) :
  emits P m → (∀ a, emits P (k a)) → emits P (m ≫= k).
Proof.
  intros Hm Hk tr. rewrite bind_run.
  destruct (Hm tr) as (n1 & E1 & F1).
  destruct (Hk (m tr).2 (m tr).1) as (n2 & E2 & F2).
  exists (n1 ++ n2). rewrite E2, E1, <-(assoc_L (++)). split; [done|].
  by apply Forall_app.
Qed.

Lemma emits_weaken {A} (P Q : Event → Prop) (m : M A) :
  (∀ e, P e → Q e) → emits P m → emits Q m.
Proof.
  intros HPQ Hm tr. destruct (Hm tr) as (n & E & F).
  exists n. split; [done|]. eapply Forall_impl; eauto.
Qed.

(** ** Iteration over maps *)

Lemma rangeSet_perm rt lp (s : gset string) : rangeSet rt lp s ≡ₚ elements s.
Proof. apply visit_perm. Qed.

Lemma rangeSet_NoDup rt lp (s : gset string) : NoDup (rangeSet rt lp s).
Proof. rewrite rangeSet_perm. apply NoDup_elements. Qed.

Lemma elem_of_rangeSet rt lp (s : gset string) x : x ∈ rangeSet rt lp s ↔ x ∈ s.
Proof. rewrite rangeSet_perm. apply elem_of_elements. Qed.

Lemma elem_of_rangeKeys {V} rt lp (m : gmap string V) k :
  k ∈ rangeKeys rt lp m ↔ is_Some (m !! k).
Proof. unfold rangeKeys. rewrite elem_of_rangeSet. apply elem_of_dom. Qed.

Lemma rangeMap_fst {V} rt lp (m : gmap string V) :
  (rangeMap rt lp m).*1 = rangeKeys rt lp m.
Proof.
  unfold rangeMap.
  assert (∀ k, k ∈ rangeKeys rt lp m → is_Some (m !! k)) as H
    by (intros k; apply elem_of_rangeKeys).
  induction (rangeKeys rt lp m) as [|k ks IH]; [done|].
  destruct (H k) as [v Hv]; [by left|].
  simpl. rewrite Hv. simpl. f_equal. apply IH. intros k' ?. apply H. by right.
Qed.

Lemma rangeMap_NoDup {V} rt lp (m : gmap string V) : NoDup (rangeMap rt lp m).*1.
Proof. rewrite rangeMap_fst. apply rangeSet_NoDup. Qed.

Lemma elem_of_rangeMap {V} rt lp (m : gmap string V) k v :
  (k, v) ∈ rangeMap rt lp m ↔ m !! k = Some v.
Proof.
  unfold rangeMap. rewrite list_elem_of_omap. split.
  - intros (k' & _ & H). destruct (m !! k') eqn:E; simplify_eq/=. done.
  - intros H. exists k. split; [|by rewrite H].
    apply elem_of_rangeKeys. eauto.
Qed.

(** ** The member sets of a change *)

Lemma NotIn_elem a b x : x ∈ NotIn a b ↔ x ∈ elems a ∧ x ∉ elems b.
Proof. unfold NotIn. rewrite list_elem_of_filter. tauto. Qed.

Lemma NotIn_self a : NotIn a a = [].
Proof.
  apply elem_of_nil_inv. intros x. rewrite NotIn_elem. tauto.
Qed.

(** C4. For a local and a remote team, the sets that [SyncTeams] computes,
    [toAdd], the local members that are not remote, and [toRemove], the
    remote members that are not local, are disjoint, and the remote members
    with [toAdd] added and [toRemove] taken away are the local members. *)
Theorem toAdd_toRemove_disjoint_reconcile (localTeam upstreamTeam : TeamConfig.t) :
  let localMembers := TeamConfig.Members localTeam in
  let remoteMembers := TeamConfig.Members upstreamTeam in
  let toAdd := NotIn localMembers remoteMembers in
  let toRemove := NotIn remoteMembers localMembers in
  (list_to_set toAdd : gset string) ## list_to_set toRemove ∧
  ((list_to_set (elems remoteMembers) ∪ list_to_set toAdd) ∖ list_to_set toRemove
     : gset string) = list_to_set (elems localMembers).
Proof.
  intros lm rm toAdd toRemove. split.
  - intros x. rewrite !elem_of_list_to_set. unfold toAdd, toRemove.
    rewrite !NotIn_elem. tauto.
  - apply set_eq. intros x.
    rewrite elem_of_difference, elem_of_union, !elem_of_list_to_set.
    unfold toAdd, toRemove. rewrite !NotIn_elem.
    destruct (decide (x ∈ elems lm)), (decide (x ∈ elems rm)); tauto.
Qed.

(** ** [slug] *)

Module SlugFacts.
Import Slug.

Section Facts.

Variable lower : string → string.


Lemma isDash_eq c : isDash c = true → c = "-"%char.
Proof. apply Ascii.eqb_eq. Qed.

Lemma dash_not_slugChar c : isDash c = true → isSlugChar c = false.
Proof. intros ->%isDash_eq. reflexivity. Qed.

Lemma slugChar_ascii c :
  isSlugChar c || isDash c = true → isASCII c = true ∧ isUpper c = false.
Proof.
  intros [H|H]%orb_true_iff.
  - unfold isSlugChar, isASCII, isUpper, byte_in in *.
    apply orb_true_iff in H as [H|H]; apply andb_true_iff in H as [H1 H2];
      apply Nat.leb_le in H1, H2; split.
    all: try (apply Nat.ltb_lt; lia).
    all: apply andb_false_iff; rewrite !Nat.leb_gt; lia.
  - apply isDash_eq in H as ->. split; reflexivity.
Qed.

Lemma noDouble_replaceRuns b s : noDouble b (replaceRuns b s) = true.
Proof.
  revert b. induction s as [|c s IH]; intros b; simpl; [done|].
  destruct (isSlugChar c) eqn:Hc; simpl.
  - by rewrite Hc.
  - destruct b; [apply IH|]. simpl. apply IH.
Qed.

Lemma noDouble_weaken s : noDouble true s = true → noDouble false s = true.
Proof.
  destruct s as [|c s]; simpl; [done|].
  destruct (isSlugChar c); [done|]. rewrite andb_false_r. done.
Qed.

Lemma noDouble_trimLeft p s :
  noDouble p s = true → noDouble true (trimLeft s) = true.
Proof.
  revert p. induction s as [|c s IH]; intros p; simpl; [done|].
  destruct (isSlugChar c) eqn:Hc.
  - intros H. destruct (isDash c) eqn:Hd.
    + apply dash_not_slugChar in Hd. congruence.
    + simpl. by rewrite Hc.
  - intros H. apply andb_true_iff in H as [H1 H2].
    apply andb_true_iff in H1 as [Hd _]. rewrite Hd. by apply (IH true).
Qed.

Lemma last_cons c s : s ≠ EmptyString → last (String c s) = last s.
Proof. by destruct s. Qed.

Lemma noDouble_trimRight p s :
  noDouble p s = true →
  noDouble p (trimRight s) = true ∧ endsWithDash (trimRight s) = false.
Proof.
  revert p. induction s as [|c s IH]; intros p; simpl; [done|].
  destruct (isSlugChar c) eqn:Hc; intros H.
  - destruct (IH false H) as [H1 H2].
    destruct (trimRight s) as [|d t] eqn:Ht.
    + destruct (isDash c) eqn:Hd; [done|].
      split; [simpl; by rewrite Hc|]. unfold endsWithDash. simpl. done.
    + split; [simpl; by rewrite Hc|].
      unfold endsWithDash in *. by rewrite last_cons.
  - apply andb_true_iff in H as [H0 H]. destruct (IH true H) as [H1 H2].
    pose proof H0 as [Hd _]%andb_true_iff.
    destruct (trimRight s) as [|d t] eqn:Ht.
    + by rewrite Hd.
    + split; [simpl; rewrite Hc, H0; exact H1|].
      unfold endsWithDash in *. by rewrite last_cons.
Qed.

Lemma slug_noDouble s :
  noDouble true (slug lower s) = true ∧ endsWithDash (slug lower s) = false.
Proof.
  unfold slug, Trim. apply noDouble_trimRight.
  apply (noDouble_trimLeft false), noDouble_replaceRuns.
Qed.

Lemma noDouble_class p s :
  noDouble p s = true → allb (λ c, isSlugChar c || isDash c) s = true.
Proof.
  revert p. induction s as [|c s IH]; intros p; simpl; [done|].
  destruct (isSlugChar c); simpl; [apply IH|].
  intros H. apply andb_true_iff in H as [H0 H].
  apply andb_true_iff in H0 as [-> _]. simpl. by apply (IH true).
Qed.

Lemma noDouble_first s : noDouble true s = true → first s ≠ Some "-"%char.
Proof.
  destruct s as [|c s]; simpl; [done|].
  destruct (isSlugChar c) eqn:Hc.
  - intros _ [= ->]. done.
  - by rewrite andb_false_r.
Qed.

Lemma endsWithDash_last s : endsWithDash s = false → last s ≠ Some "-"%char.
Proof. unfold endsWithDash. intros H Hl. rewrite Hl in H. done. Qed.

Lemma class_ToLower s :
  allb (λ c, isSlugChar c || isDash c) s = true → ToLower lower s = s.
Proof.
  intros H. unfold ToLower.
  assert (allb isASCII s = true ∧ anyb isUpper s = false) as [-> ->]; [|done].
  induction s as [|c s IH]; simpl in *; [done|].
  apply andb_true_iff in H as [Hc H].
  destruct (slugChar_ascii c Hc) as [-> ->]. simpl. by apply IH.
Qed.

Lemma noDouble_replaceRuns_id p s : noDouble p s = true → replaceRuns p s = s.
Proof.
  revert p. induction s as [|c s IH]; intros p; simpl; [done|].
  destruct (isSlugChar c) eqn:Hc.
  - intros H. by rewrite (IH false).
  - intros H. apply andb_true_iff in H as [H0 H].
    apply andb_true_iff in H0 as [Hd Hp]. destruct p; [done|].
    apply isDash_eq in Hd as ->. by rewrite (IH true).
Qed.

Lemma noDouble_trimLeft_id s : noDouble true s = true → trimLeft s = s.
Proof.
  destruct s as [|c s]; simpl; [done|].
  destruct (isSlugChar c) eqn:Hc.
  - destruct (isDash c) eqn:Hd; [|done].
    apply dash_not_slugChar in Hd. congruence.
  - by rewrite andb_false_r.
Qed.

Lemma trimRight_id s : endsWithDash s = false → trimRight s = s.
Proof.
  induction s as [|c s IH]; simpl; [done|].
  destruct s as [|d t].
  - unfold endsWithDash. simpl. by intros ->.
  - unfold endsWithDash in *. rewrite last_cons by done.
    intros H. rewrite (IH H). done.
Qed.

Lemma slug_fixed s :
  noDouble true s = true → endsWithDash s = false → slug lower s = s.
Proof.
  intros H1 H2. unfold slug, Trim.
  rewrite class_ToLower by (by eapply noDouble_class).
  rewrite noDouble_replaceRuns_id by (by apply noDouble_weaken).
  rewrite noDouble_trimLeft_id by done. by apply trimRight_id.
Qed.

End Facts.

End SlugFacts.

(** C10. [slug] is idempotent; its result has only bytes of [a-z0-9] and
    dashes, and neither starts nor ends with a dash. *)
Theorem slug_idempotent_and_clean rt (s : string) :
  slug rt (slug rt s) = slug rt s ∧
  Slug.allb (λ c, Slug.isSlugChar c || Slug.isDash c) (slug rt s) = true ∧
  Slug.first (slug rt s) ≠ Some "-"%char ∧
  Slug.last (slug rt s) ≠ Some "-"%char.
Proof.
  unfold slug.
  destruct (SlugFacts.slug_noDouble (unicodeToLower rt) s) as [H1 H2].
  split; [by apply SlugFacts.slug_fixed|].
  split; [by eapply SlugFacts.noDouble_class|].
  split; [by apply SlugFacts.noDouble_first|by apply SlugFacts.endsWithDash_last].
Qed.

Example slug_samples :
  slug (Sample.runtime true orderedVisit) "  Team A--B  !" = "team-a-b" ∧
  slug (Sample.runtime true orderedVisit) "SIG-Policy" = "sig-policy" ∧
  slug (Sample.runtime true orderedVisit) "---" = "".
Proof. vm_compute. done. Qed.

(** ** [getExcludedUsers] *)

Lemma excludeTeamMembers_trace teamName members exc m tr :
  (excludeTeamMembers teamName members exc m tr).1 =
  tr ++ ((λ login, EvPrint (UserNotFound login teamName)) <$>
           filter (λ login, members !! login = None) (ExcludedMember.Login <$> exc)).
Proof.
  revert m tr. induction exc as [|member exc IH]; intros m tr; simpl.
  - by rewrite app_nil_r.
  - destruct (members !! ExcludedMember.Login member) as [user|] eqn:E.
    + rewrite IH, filter_cons_False; [done|]. by rewrite E.
    + rewrite bind_run. simpl. rewrite IH, filter_cons_True by done.
      simpl. by rewrite <-(assoc_L (++)).
Qed.

Lemma excludeTeamMembers_elem teamName members exc m tr id :
  id ∈ (excludeTeamMembers teamName members exc m tr).2 ↔
  id ∈ m ∨ ∃ login user, login ∈ ExcludedMember.Login <$> exc ∧
             members !! login = Some user ∧ User.ID user = id.
Proof.
  revert m tr. induction exc as [|member exc IH]; intros m tr; simpl.
  - split; [by left|]. intros [?|(l & u & H & _)]; [done|].
    by apply elem_of_nil in H.
  - destruct (members !! ExcludedMember.Login member) as [user|] eqn:E.
    + rewrite IH, elem_of_union, elem_of_singleton. split.
      * intros [[->|?]|(l & u & H1 & H2 & H3)]; [right|by left|right].
        -- exists (ExcludedMember.Login member), user. split; [by left|done].
        -- exists l, u. split; [by right|done].
      * intros [?|(l & u & [->|H1]%elem_of_cons & H2 & H3)].
        -- left. by right.
        -- left. left. congruence.
        -- right. eauto.
    + rewrite bind_run. simpl. rewrite IH. split.
      * intros [?|(l & u & H1 & H2 & H3)]; [by left|right].
        exists l, u. split; [by right|done].
      * intros [?|(l & u & [->|H1]%elem_of_cons & H2 & H3)];
          [by left|congruence|right; eauto].
Qed.

Lemma excludeAllTeams_elem members excAll m id :
  id ∈ excludeAllTeams members excAll m ↔
  id ∈ m ∨ ∃ login user, login ∈ excAll ∧
             members !! login = Some user ∧ User.ID user = id.
Proof.
  revert m. induction excAll as [|member excAll IH]; intros m; simpl.
  - split; [by left|]. intros [?|(l & u & H & _)]; [done|].
    by apply elem_of_nil in H.
  - destruct (members !! member) as [user|] eqn:E.
    + rewrite IH, elem_of_union, elem_of_singleton. split.
      * intros [[->|?]|(l & u & H1 & H2 & H3)]; [right|by left|right].
        -- exists member, user. split; [by left|done].
        -- exists l, u. split; [by right|done].
      * intros [?|(l & u & [->|H1]%elem_of_cons & H2 & H3)].
        -- left. by right.
        -- left. left. congruence.
        -- right. eauto.
    + rewrite IH. split.
      * intros [?|(l & u & H1 & H2 & H3)]; [by left|right].
        exists l, u. split; [by right|done].
      * intros [?|(l & u & [->|H1]%elem_of_cons & H2 & H3)];
          [by left|congruence|right; eauto].
Qed.

Lemma getExcludedUsers_trace rt teamName members exc excAll tr :
  (getExcludedUsers rt teamName members exc excAll tr).1 =
  tr ++ ((λ login, EvPrint (UserNotFound login teamName)) <$>
           filter (λ login, members !! login = None)
             (ExcludedMember.Login <$> elems exc)).
Proof.
  unfold getExcludedUsers. rewrite bind_run. simpl.
  apply excludeTeamMembers_trace.
Qed.

(** C6. [getExcludedUsers] returns, without duplicates, exactly the
    directory identities of the logins of the two exclusion lists that the
    directory knows. A login of the team's list that the directory does not
    know is reported by one line and skipped; a login of the list of the
    organization that it does not know is skipped and nothing is printed;
    the resolution goes on in both cases. *)
Theorem getExcludedUsers_resolves rt teamName (members : gmap string User.t)
    (excTeamMembers : slice ExcludedMember.t) (excAllTeams : slice string) tr :
  let perTeam := ExcludedMember.Login <$> elems excTeamMembers in
  let orgWide := elems excAllTeams in
  let r := getExcludedUsers rt teamName members excTeamMembers excAllTeams tr in
  NoDup r.2 ∧
  (∀ id, id ∈ r.2 ↔
         ∃ login user, (login ∈ perTeam ∨ login ∈ orgWide) ∧
           members !! login = Some user ∧ User.ID user = id) ∧
  r.1 = tr ++ ((λ login, EvPrint (UserNotFound login teamName)) <$>
                 filter (λ login, members !! login = None) perTeam).
Proof.
  intros perTeam orgWide r. split; [|split].
  - unfold r, getExcludedUsers. rewrite bind_run. simpl. apply rangeSet_NoDup.
  - intros id. unfold r, getExcludedUsers. rewrite bind_run. simpl.
    rewrite elem_of_rangeSet, excludeAllTeams_elem,
      excludeTeamMembers_elem, elem_of_empty. split.
    + intros [[[]|(l & u & ? & ? & ?)]|(l & u & ? & ? & ?)];
        exists l, u; eauto.
    + intros (l & u & [?|?] & ? & ?); [left; right|right]; eauto.
  - apply getExcludedUsers_trace.
Qed.

(** The second scenario of the exclusions: "ghost" is excluded from "ops"
    and is not in the directory, "bot" is excluded from all teams and is not
    in the directory either. One line reports "ghost"; the identities are
    those of "a" and "d". *)
Example getExcludedUsers_sample :
  getExcludedUsers (Sample.runtime true orderedVisit) "ops"
    (Config.Members Sample.localCfg)
    (Some [ {| ExcludedMember.Login := "a" |}; {| ExcludedMember.Login := "ghost" |} ])
    (Some ["d"; "bot"]) [] =
  ([EvPrint (UserNotFound "ghost" "ops")], ["U_a"; "U_d"]).
Proof. vm_compute. reflexivity. Qed.

(** ** The diff pass *)

Lemma setExcludedMembers_restore (t : TeamConfig.t) v :
  TeamConfig.setExcludedMembers (TeamConfig.setExcludedMembers t v)
    (CodeReviewAssignment.ExcludedMembers (TeamConfig.CRA t)) = t.
Proof. by destruct t as [? ? []]. Qed.

Lemma diffTeam_result name localTeam upstreamTeam tr :
  (diffTeam name localTeam upstreamTeam tr).2 =
  (localTeam, pendingChange localTeam upstreamTeam).
Proof.
  unfold diffTeam, pendingChange. rewrite bind_run. simpl.
  rewrite setExcludedMembers_restore. f_equal.
  case_decide; [done|]. by rewrite bind_run.
Qed.

Lemma diffTeam_emits P name localTeam upstreamTeam :
  (∀ l r, P (EvPrint (OutOfSync name l r))) →
  emits P (diffTeam name localTeam upstreamTeam).
Proof.
  intros HP. unfold diffTeam. apply emits_bind; [|intros; apply emits_ret].
  case_decide; [apply emits_ret|].
  apply emits_bind; [by apply emits_emit|intros; apply emits_ret].
Qed.

Lemma changeOf_same_members (a b : TeamConfig.t) :
  TeamConfig.Members a = TeamConfig.Members b → changeOf a b = None.
Proof. intros H. unfold changeOf. by rewrite H, NotIn_self. Qed.

Lemma pendingChange_equalButExcluded localTeam upstreamTeam :
  equalButExcluded localTeam upstreamTeam →
  pendingChange localTeam upstreamTeam = None.
Proof.
  intros (_ & HM & _). unfold pendingChange. case_decide; [done|].
  by apply changeOf_same_members.
Qed.

(** The changes recorded by the loop, key by key. *)
Lemma diffLoop_lookup upstreamCfg l changes tr name :
  NoDup l.*1 →
  (diffLoop upstreamCfg l changes tr).2 !! name =
  match list_to_map (M := gmap string TeamConfig.t) l !! name with
  | Some localTeam =>
      match pendingChange localTeam (Config.team upstreamCfg name) with
      | Some change => Some change
      | None => changes !! name
      end
  | None => changes !! name
  end.
Proof.
  revert changes tr. induction l as [|[n lt] l IH]; intros changes tr Hnd.
  - simpl. by rewrite lookup_empty.
  - apply NoDup_cons in Hnd as [Hn Hnd]. simpl.
    rewrite bind_run, IH by done. rewrite diffTeam_result. simpl.
    destruct (decide (n = name)) as [->|Hne].
    + rewrite lookup_insert_eq.
      rewrite (not_elem_of_list_to_map_1 _ name) by done.
      destruct (pendingChange lt _); [by rewrite lookup_insert_eq|done].
    + rewrite lookup_insert_ne by done.
      destruct (list_to_map l !! name) eqn:E.
      * destruct (pendingChange t _); [done|].
        destruct (pendingChange lt _); [by rewrite lookup_insert_ne|done].
      * destruct (pendingChange lt _); [by rewrite lookup_insert_ne|done].
Qed.

Lemma list_to_map_rangeMap {V} rt lp (m : gmap string V) :
  list_to_map (rangeMap rt lp m) = m.
Proof.
  apply map_eq. intros k. apply option_eq. intros v.
  rewrite <-elem_of_list_to_map by apply rangeMap_NoDup.
  apply elem_of_rangeMap.
Qed.

Lemma diffLoop_pendingChanges rt upstreamCfg localCfg tr :
  (diffLoop upstreamCfg (rangeMap rt RangeLocalTeams (Config.Teams localCfg)) ∅ tr).2
  = pendingChanges upstreamCfg localCfg.
Proof.
  apply map_eq. intros name.
  rewrite diffLoop_lookup by apply rangeMap_NoDup.
  rewrite list_to_map_rangeMap. unfold pendingChanges.
  rewrite map_lookup_imap, lookup_empty.
  destruct (Config.Teams localCfg !! name); simpl; [|done].
  by destruct (pendingChange _ _).
Qed.

Lemma diffLoop_emits P upstreamCfg l changes :
  (∀ n a b, P (EvPrint (OutOfSync n a b))) →
  emits P (diffLoop upstreamCfg l changes).
Proof.
  intros HP. revert changes. induction l as [|[n lt] l IH]; intros changes; simpl.
  - apply emits_ret.
  - apply emits_bind; [by apply diffTeam_emits|]. intros r. apply IH.
Qed.

(** C1. A local team that agrees with its remote counterpart on every field
    except [CodeReviewAssignment.ExcludedMembers] gets no pending change
    from the diff pass: the body of the loop computes no change for it, and
    the change map has no entry under its name. *)
Theorem diff_exempts_excluded_members rt (upstreamCfg localCfg : Config.t)
    (name : string) (localTeam : TeamConfig.t) tr :
  Config.Teams localCfg !! name = Some localTeam →
  equalButExcluded localTeam (Config.team upstreamCfg name) →
  (diffTeam name localTeam (Config.team upstreamCfg name) tr).2.2 = None ∧
  (diffLoop upstreamCfg
     (rangeMap rt RangeLocalTeams (Config.Teams localCfg)) ∅ tr).2 !! name = None.
Proof.
  intros Hl He. split.
  - rewrite diffTeam_result. simpl. by apply pendingChange_equalButExcluded.
  - rewrite diffLoop_pendingChanges. unfold pendingChanges.
    rewrite map_lookup_imap, Hl. simpl. by apply pendingChange_equalButExcluded.
Qed.

Lemma diff_exempts_excluded_members_witness :
  (diffTeam "dev" Sample.devTeam (Config.team Sample.upstreamCfg "dev") []).2.2 = None ∧
  (diffLoop Sample.upstreamCfg
     (rangeMap (Sample.runtime true orderedVisit) RangeLocalTeams
        (Config.Teams Sample.localCfg)) ∅ []).2 !! "dev" = None.
Proof.
  apply (diff_exempts_excluded_members (Sample.runtime true orderedVisit)
           Sample.upstreamCfg Sample.localCfg "dev" Sample.devTeam []).
  - vm_compute. reflexivity.
  - vm_compute. repeat split.
Defined.

(** The first scenario: "ops" has the members a and b locally, b and c on
    the platform; the diff is to add a and to remove c. *)
Example pendingChanges_sample :
  (GetCurrentConfig Sample.manager 5 []).2 = Done Sample.upstreamCfg ∧
  pendingChanges Sample.upstreamCfg Sample.localCfg = Sample.changes.
Proof. split; vm_compute; reflexivity. Qed.

(** ** The apply pass *)

Lemma foldl_insert_elem (l : list string) (s : gset string) x :
  x ∈ foldl (λ s m, {[m]} ∪ s) s l ↔ x ∈ s ∨ x ∈ l.
Proof.
  revert s. induction l as [|a l IH]; intros s; simpl.
  - rewrite elem_of_nil. tauto.
  - rewrite IH, elem_of_union, elem_of_singleton, elem_of_cons. tauto.
Qed.

Lemma foldl_delete_elem (l : list string) (s : gset string) x :
  x ∈ foldl (λ s m, s ∖ {[m]}) s l ↔ x ∈ s ∧ x ∉ l.
Proof.
  revert s. induction l as [|a l IH]; intros s; simpl.
  - rewrite elem_of_nil. tauto.
  - rewrite IH, elem_of_difference, elem_of_singleton, not_elem_of_cons. tauto.
Qed.

Lemma memberSet_elem members remove add x :
  x ∈ memberSet members remove add ↔ (x ∈ members ∧ x ∉ remove) ∨ x ∈ add.
Proof.
  unfold memberSet.
  rewrite foldl_insert_elem, foldl_delete_elem, foldl_insert_elem, elem_of_empty.
  tauto.
Qed.

Lemma updateMembers_lookup rt cfg name change :
  Config.Teams (updateMembers rt cfg name change) !! name =
  Some (TeamConfig.setMembers (Config.team cfg name)
          (Some (rangeSet rt (RangeTeamMembers name)
                   (memberSet (elems (TeamConfig.Members (Config.team cfg name)))
                      (remove change) (add change))))).
Proof. unfold updateMembers. simpl. apply lookup_insert_eq. Qed.

Lemma updateMembers_other rt cfg name change n :
  n ≠ name →
  Config.Teams (updateMembers rt cfg name change) !! n = Config.Teams cfg !! n.
Proof. intros. unfold updateMembers. simpl. by apply lookup_insert_ne. Qed.

Lemma updateMembers_cong rt cfg cfg' name change :
  Config.Teams cfg !! name = Config.Teams cfg' !! name →
  Config.Teams (updateMembers rt cfg name change) !! name =
  Config.Teams (updateMembers rt cfg' name change) !! name.
Proof.
  intros H. rewrite !updateMembers_lookup. unfold Config.team. by rewrite H.
Qed.

Lemma sameButMembers_refl a : sameButMembers a a.
Proof. done. Qed.

Lemma sameButMembers_trans a b c :
  sameButMembers a b → sameButMembers b c → sameButMembers a c.
Proof. intros [] []. split; congruence. Qed.

Lemma frame_refl c : frame c c.
Proof.
  repeat split. intros n.
  destruct (_ !! n); constructor. apply sameButMembers_refl.
Qed.

Lemma frame_trans a b c : frame a b → frame b c → frame a c.
Proof.
  intros (? & ? & ? & Hab) (? & ? & ? & Hbc).
  repeat split; try congruence. intros n.
  specialize (Hab n). specialize (Hbc n).
  destruct Hab; inversion Hbc; subst; constructor.
  by eapply sameButMembers_trans.
Qed.

Lemma frame_updateMembers rt cfg name change :
  is_Some (Config.Teams cfg !! name) → frame cfg (updateMembers rt cfg name change).
Proof.
  intros [t Ht]. repeat split. intros n.
  destruct (decide (n = name)) as [->|Hne].
  - rewrite updateMembers_lookup, Ht. constructor.
    unfold Config.team. rewrite Ht. done.
  - rewrite updateMembers_other by done.
    destruct (_ !! n); constructor. apply sameButMembers_refl.
Qed.

Lemma frame_is_Some c c' n :
  frame c c' → is_Some (Config.Teams c !! n) → is_Some (Config.Teams c' !! n).
Proof.
  intros (_ & _ & _ & H) [t Ht]. specialize (H n). rewrite Ht in H.
  inversion H. eauto.
Qed.

Lemma applyChange_run tm rt dryRun cfg name change tr :
  applyChange tm rt dryRun cfg name change tr =
  let r := attempt tm rt dryRun name change tr in
  match r.2 with
  | Some err => (r.1 ++ [EvStderr (UnableToSyncTeam name err)], cfg)
  | None => (r.1, updateMembers rt cfg name change)
  end.
Proof.
  unfold applyChange. rewrite bind_run. fold (attempt tm rt dryRun name change).
  simpl. destruct (attempt tm rt dryRun name change tr) as [tr' [err|]]; simpl.
  - by rewrite bind_run.
  - done.
Qed.

Lemma applyChange_other tm rt dryRun cfg name change tr n :
  n ≠ name →
  Config.Teams (applyChange tm rt dryRun cfg name change tr).2 !! n =
  Config.Teams cfg !! n.
Proof.
  intros Hne. rewrite applyChange_run.
  destruct (attempt tm rt dryRun name change tr) as [tr' [err|]]; simpl; [done|].
  by apply updateMembers_other.
Qed.

Lemma applyChange_frame tm rt dryRun cfg name change tr :
  is_Some (Config.Teams cfg !! name) →
  frame cfg (applyChange tm rt dryRun cfg name change tr).2.
Proof.
  intros H. rewrite applyChange_run.
  destruct (attempt tm rt dryRun name change tr) as [tr' [err|]]; simpl;
    [apply frame_refl|]. by apply frame_updateMembers.
Qed.

Lemma applyLoop_other tm rt dryRun l cfg tr n :
  n ∉ l.*1 →
  Config.Teams (applyLoop tm rt dryRun l cfg tr).2 !! n = Config.Teams cfg !! n.
Proof.
  revert cfg tr. induction l as [|[name change] l IH]; intros cfg tr Hn; [done|].
  apply not_elem_of_cons in Hn as [Hne Hn]. simpl.
  rewrite bind_run, IH by done. by apply applyChange_other.
Qed.

Lemma applyLoop_frame tm rt dryRun l cfg tr :
  Forall (λ name, is_Some (Config.Teams cfg !! name)) l.*1 →
  frame cfg (applyLoop tm rt dryRun l cfg tr).2.
Proof.
  revert cfg tr. induction l as [|[name change] l IH]; intros cfg tr Hl.
  - apply frame_refl.
  - apply Forall_cons in Hl as [Hn Hl]. simpl. rewrite bind_run.
    pose proof (applyChange_frame tm rt dryRun cfg name change tr Hn) as Hf.
    eapply frame_trans; [exact Hf|]. apply IH.
    eapply Forall_impl; [exact Hl|]. intros n. by apply frame_is_Some.
Qed.

(** *** What the passes add to the trace *)

Lemma call_emits tm (P : Event → Prop) c : P (EvCall c) → emits P (call tm c).
Proof. intros H tr. exists [EvCall c]. split; [done|]. by constructor. Qed.

Lemma addMembers_emits tm rt (P : Event → Prop) name l :
  (∀ o, P (EvPrint o)) → (∀ c, P (EvCall c)) → emits P (addMembers tm rt name l).
Proof.
  intros H1 H2. induction l as [|u l IH]; simpl; [apply emits_ret|].
  apply emits_bind; [by apply emits_emit|]. intros _.
  apply emits_bind; [by apply call_emits|]. intros []; [apply emits_ret|done].
Qed.

Lemma removeMembers_emits tm rt (P : Event → Prop) name l :
  (∀ o, P (EvPrint o)) → (∀ c, P (EvCall c)) → emits P (removeMembers tm rt name l).
Proof.
  intros H1 H2. induction l as [|u l IH]; simpl; [apply emits_ret|].
  apply emits_bind; [by apply emits_emit|]. intros _.
  apply emits_bind; [by apply call_emits|]. intros []; [apply emits_ret|done].
Qed.

Lemma SyncTeamMembers_emits tm rt (P : Event → Prop) name a r :
  (∀ o, P (EvPrint o)) → (∀ c, P (EvCall c)) →
  emits P (SyncTeamMembers tm rt name a r).
Proof.
  intros H1 H2. unfold SyncTeamMembers.
  apply emits_bind; [by apply addMembers_emits|].
  intros []; [apply emits_ret|by apply removeMembers_emits].
Qed.

Lemma attempt_emits tm rt (P : Event → Prop) dryRun name change :
  (∀ o, P (EvPrint o)) → (dryRun = false → ∀ c, P (EvCall c)) →
  emits P (attempt tm rt dryRun name change).
Proof.
  intros H1 H2. unfold attempt. destruct dryRun; simpl; [apply emits_ret|].
  apply SyncTeamMembers_emits; auto.
Qed.

Lemma applyChange_emits tm rt (P : Event → Prop) dryRun cfg name change :
  (∀ o, P (EvPrint o)) → (∀ d, P (EvStderr d)) →
  (dryRun = false → ∀ c, P (EvCall c)) →
  emits P (applyChange tm rt dryRun cfg name change).
Proof.
  intros H1 H2 H3. unfold applyChange.
  apply emits_bind; [by apply (attempt_emits tm rt P dryRun name change)|].
  intros []; [|apply emits_ret].
  apply emits_bind; [by apply emits_emit|intros; apply emits_ret].
Qed.

Lemma applyLoop_emits tm rt (P : Event → Prop) dryRun l cfg :
  (∀ o, P (EvPrint o)) → (∀ d, P (EvStderr d)) →
  (dryRun = false → ∀ c, P (EvCall c)) →
  emits P (applyLoop tm rt dryRun l cfg).
Proof.
  intros H1 H2 H3. revert cfg.
  induction l as [|[name change] l IH]; intros cfg; simpl; [apply emits_ret|].
  apply emits_bind; [by apply applyChange_emits|]. intros c. apply IH.
Qed.

Lemma emits_prefix {A} (m : M A) tr : emits (λ _, True) m → tr `prefix_of` (m tr).1.
Proof. intros H. destruct (H tr) as (n & -> & _). by apply prefix_app_r. Qed.

Lemma applyLoop_prefix tm rt dryRun l cfg tr :
  tr `prefix_of` (applyLoop tm rt dryRun l cfg tr).1.
Proof. apply emits_prefix. by apply applyLoop_emits. Qed.

Lemma attempt_prefix tm rt dryRun name change tr :
  tr `prefix_of` (attempt tm rt dryRun name change tr).1.
Proof. apply emits_prefix. by apply attempt_emits. Qed.

Lemma applyChange_attempt_prefix tm rt dryRun cfg name change tr :
  (attempt tm rt dryRun name change tr).1 `prefix_of`
  (applyChange tm rt dryRun cfg name change tr).1.
Proof.
  rewrite applyChange_run.
  destruct (attempt tm rt dryRun name change tr) as [tr' [err|]]; simpl; [|done].
  by apply prefix_app_r.
Qed.

(** Every change of the loop is attempted at some moment [tr0] of the run;
    the team is left as it was when the attempt fails, and gets its rebuilt
    member list when it succeeds. *)
Lemma applyLoop_team tm rt dryRun l cfg tr name change :
  NoDup l.*1 → (name, change) ∈ l →
  let r := applyLoop tm rt dryRun l cfg tr in
  ∃ tr0, tr `prefix_of` tr0 ∧
    (attempt tm rt dryRun name change tr0).1 `prefix_of` r.1 ∧
    match (attempt tm rt dryRun name change tr0).2 with
    | Some err =>
        EvStderr (UnableToSyncTeam name err) ∈ r.1 ∧
        Config.Teams r.2 !! name = Config.Teams cfg !! name
    | None =>
        Config.Teams r.2 !! name =
        Config.Teams (updateMembers rt cfg name change) !! name
    end.
Proof.
  revert cfg tr. induction l as [|[n c] l IH]; intros cfg tr Hnd Hin.
  - by apply elem_of_nil in Hin.
  - apply NoDup_cons in Hnd as [Hn Hnd]. simpl. rewrite bind_run.
    apply elem_of_cons in Hin as [[= <- <-]|Hin].
    + exists tr. split; [done|]. split.
      { etrans; [apply applyChange_attempt_prefix|apply applyLoop_prefix]. }
      rewrite applyLoop_other by done.
      rewrite applyChange_run. simpl.
      destruct (attempt tm rt dryRun name change tr).2 eqn:E; simpl; [|done].
      split; [|done].
      eapply elem_of_prefix; [|apply applyLoop_prefix].
      rewrite elem_of_app, list_elem_of_singleton. by right.
    + assert (n ≠ name) as Hne.
      { intros ->. apply Hn. apply list_elem_of_fmap. by exists (name, change). }
      destruct (IH (applyChange tm rt dryRun cfg n c tr).2
                  (applyChange tm rt dryRun cfg n c tr).1 Hnd Hin)
        as (tr0 & Hp & Hq & H).
      exists tr0. split.
      { etrans; [|exact Hp]. apply emits_prefix. by apply applyChange_emits. }
      split; [exact Hq|]. simpl in H.
      destruct (attempt tm rt dryRun name change tr0).2.
      * destruct H as [H1 H2]. split; [done|].
        rewrite H2. by apply applyChange_other.
      * rewrite H. apply updateMembers_cong. by apply applyChange_other.
Qed.

(** ** What [GetCurrentConfig] adds to the trace *)

Lemma query_emits tm (P : Event → Prop) site v :
  P (EvQuery site v) → emits P (query tm site v).
Proof.
  intros H. unfold query.
  apply emits_bind; [by apply emits_emit|intros; apply emits_ret].
Qed.

Lemma membersLoop_emits tm (P : Event → Prop) fuel requery result t name teamCfg v c :
  (∀ v, P (EvQuery QueryMembers v)) →
  emits P (membersLoop tm fuel requery result t name teamCfg v c).
Proof.
  intros HP. revert requery teamCfg v c.
  induction fuel as [|fuel IH]; intros requery teamCfg v c; simpl; [apply emits_ret|].
  apply emits_bind.
  { destruct requery; [by apply query_emits|apply emits_ret]. }
  intros [err|innerResult]; [apply emits_ret|].
  destruct (Teams.WithID _ _) as [err|teamNode]; [apply emits_ret|].
  destruct (foldl addMember _ _) as [teamCfg' c'].
  destruct (negb _); [apply emits_ret|apply IH].
Qed.

Lemma teamNodesLoop_emits tm (P : Event → Prop) fuel result nodes v c :
  (∀ v, P (EvQuery QueryMembers v)) →
  emits P (teamNodesLoop tm fuel result nodes v c).
Proof.
  intros HP. revert v c. induction nodes as [|t nodes IH]; intros v c; simpl.
  - apply emits_ret.
  - apply emits_bind; [by apply membersLoop_emits|].
    intros [[v' c']|err|]; [apply IH|apply emits_ret..].
Qed.

Lemma teamsLoop_emits tm (P : Event → Prop) limit fuel requery result v c :
  (∀ v, P (EvQuery QueryMembers v)) →
  (∀ v, Vars.membersCursor v = None → P (EvQuery QueryTeams v)) →
  (requery = true → Vars.membersCursor v = None) →
  emits P (teamsLoop tm limit fuel requery result v c).
Proof.
  intros HM HT. revert requery result v c.
  induction fuel as [|fuel IH]; intros requery result v c Hv; simpl;
    [apply emits_ret|].
  apply emits_bind.
  { destruct requery; [apply query_emits; auto|apply emits_ret]. }
  intros [err|result']; [apply emits_ret|].
  apply emits_bind; [by apply teamNodesLoop_emits|].
  intros [[v' c']|err|]; [|apply emits_ret..].
  destruct (negb _); [apply emits_ret|]. by apply IH.
Qed.

Lemma GetCurrentConfig_emits tm (P : Event → Prop) fuel :
  P (EvQuery QueryInitial Vars.empty) →
  (∀ v, P (EvQuery QueryMembers v)) →
  (∀ v, Vars.membersCursor v = None → P (EvQuery QueryTeams v)) →
  emits P (GetCurrentConfig tm fuel).
Proof.
  intros HI HM HT. unfold GetCurrentConfig.
  apply emits_bind; [by apply query_emits|].
  intros [err|result]; [apply emits_ret|]. by apply teamsLoop_emits.
Qed.

Lemma GetCurrentConfig_notCall tm fuel : emits notCall (GetCurrentConfig tm fuel).
Proof. by apply GetCurrentConfig_emits. Qed.

(** ** The two passes *)

Lemma printChanges_emits (P : Event → Prop) l :
  (∀ o, P (EvPrint o)) → emits P (printChanges l).
Proof.
  intros HP. induction l as [|[n c] l IH]; simpl; [apply emits_ret|].
  repeat (apply emits_bind; [by apply emits_emit|intros _]). apply IH.
Qed.

Lemma confirm_emits rt (P : Event → Prop) force prompt :
  (∀ p, P (EvAsk p)) → emits P (confirm rt force prompt).
Proof.
  intros HP. unfold confirm, ask. destruct force; [apply emits_ret|].
  apply emits_bind; [by apply emits_emit|intros; apply emits_ret].
Qed.

Lemma confirm_result rt force prompt tr :
  (confirm rt force prompt tr).2 =
  if force then inr true else AskForConfirmation rt prompt.
Proof. unfold confirm, ask. destruct force; [done|]. by rewrite bind_run. Qed.

Lemma membershipPass_emits tm rt (P : Event → Prop) up cfg force dryRun :
  (∀ o, P (EvPrint o)) → (∀ p, P (EvAsk p)) → (∀ d, P (EvStderr d)) →
  (mayCall rt force dryRun "Continue?" → ∀ c, P (EvCall c)) →
  emits P (membershipPass tm rt up cfg force dryRun).
Proof.
  intros H1 H2 H3 H4. unfold membershipPass.
  apply emits_bind; [by apply diffLoop_emits|]. intros changes.
  destruct (negb _); [|apply emits_ret].
  apply emits_bind; [by apply emits_emit|intros _].
  apply emits_bind; [by apply printChanges_emits|intros _].
  intros tr. rewrite bind_run.
  destruct (confirm_emits rt P force "Continue?" H2 tr) as (n1 & E1 & F1).
  pose proof (confirm_result rt force "Continue?" tr) as Hr.
  destruct (confirm rt force "Continue?" tr) as [tr1 [err|[]]]; simpl in *.
  - exists n1. done.
  - assert (emits P (applyLoop tm rt dryRun
              (rangeMap rt RangeChangesApply changes) cfg)) as Ha.
    { apply applyLoop_emits; [done..|]. intros ->. apply H4. split; [done|].
      destruct force; [by left|by right]. }
    rewrite bind_run. simpl. destruct (Ha tr1) as (n2 & E2 & F2).
    exists (n1 ++ n2). rewrite E2, E1, <-(assoc_L (++)). split; [done|].
    by apply Forall_app.
  - exists n1. done.
Qed.

Lemma membershipPass_result tm rt up cfg force dryRun tr :
  ∃ tr',
  (membershipPass tm rt up cfg force dryRun tr).2 =
  if (size (pendingChanges up cfg) =? 0)%nat then Done cfg
  else match (if force then inr true else AskForConfirmation rt "Continue?") with
       | inl err => Fail err
       | inr true =>
           Done (applyLoop tm rt dryRun
                   (rangeMap rt RangeChangesApply (pendingChanges up cfg)) cfg tr').2
       | inr false => Done cfg
       end.
Proof.
  unfold membershipPass. rewrite bind_run, diffLoop_pendingChanges.
  destruct (size _ =? 0)%nat; simpl; [by exists tr|].
  rewrite !bind_run. simpl.
  set (tr1 := (printChanges _ _).1).
  rewrite <-(confirm_result rt force "Continue?" tr1).
  destruct (confirm rt force "Continue?" tr1) as [tr2 [err|[]]]; simpl.
  - by exists tr.
  - exists tr2. by rewrite bind_run.
  - by exists tr.
Qed.

Lemma pendingChanges_is_Some up cfg name :
  is_Some (pendingChanges up cfg !! name) → is_Some (Config.Teams cfg !! name).
Proof.
  unfold pendingChanges. rewrite map_lookup_imap.
  destruct (Config.Teams cfg !! name); [eauto|]. by intros [? [=]].
Qed.

Lemma membershipPass_frame tm rt up cfg force dryRun tr cfg' :
  (membershipPass tm rt up cfg force dryRun tr).2 = Done cfg' → frame cfg cfg'.
Proof.
  destruct (membershipPass_result tm rt up cfg force dryRun tr) as [tr' ->].
  destruct (size _ =? 0)%nat; [intros [= <-]; apply frame_refl|].
  destruct (if force then _ else _) as [err|[]]; [done| |intros [= <-]; apply frame_refl].
  intros [= <-]. apply applyLoop_frame. apply Forall_forall. intros n Hn.
  rewrite rangeMap_fst in Hn. apply elem_of_rangeKeys in Hn.
  by apply pendingChanges_is_Some in Hn.
Qed.

Lemma getExcludedUsers_emits rt (P : Event → Prop) name members exc excAll :
  (∀ o, P (EvPrint o)) → emits P (getExcludedUsers rt name members exc excAll).
Proof.
  intros HP tr. eexists. split.
  - apply getExcludedUsers_trace.
  - apply Forall_fmap, Forall_forall. intros ? _. apply HP.
Qed.

Lemma syncReviewAssignment_emits tm rt (P : Event → Prop) dryRun cfg name :
  (∀ o, P (EvPrint o)) → (∀ d, P (EvStderr d)) →
  (dryRun = false → ∀ c, P (EvCall c)) →
  emits P (syncReviewAssignment tm rt dryRun cfg name).
Proof.
  intros H1 H2 H3. unfold syncReviewAssignment.
  apply emits_bind; [by apply getExcludedUsers_emits|]. intros ids.
  apply emits_bind; [by apply emits_emit|]. intros _.
  destruct dryRun; simpl; [apply emits_ret|].
  apply emits_bind; [apply call_emits; auto|].
  intros []; [by apply emits_emit|apply emits_ret].
Qed.

Lemma reviewLoop_emits tm rt (P : Event → Prop) dryRun cfg names :
  (∀ o, P (EvPrint o)) → (∀ d, P (EvStderr d)) →
  (dryRun = false → ∀ c, P (EvCall c)) →
  emits P (reviewLoop tm rt dryRun cfg names).
Proof.
  intros H1 H2 H3. induction names as [|n names IH]; simpl; [apply emits_ret|].
  apply emits_bind; [by apply syncReviewAssignment_emits|]. intros _. apply IH.
Qed.

Lemma reviewPass_result tm rt cfg force dryRun tr :
  (reviewPass tm rt cfg force dryRun tr).2 =
  match (if force then inr true else
           AskForConfirmation rt "Do you want to update CodeReviewAssignments?") with
  | inl err => Fail err
  | inr _ => Done cfg
  end.
Proof.
  unfold reviewPass. rewrite bind_run, confirm_result.
  destruct (if force then _ else _) as [err|[]]; [done| |done].
  by rewrite bind_run.
Qed.

Lemma reviewPass_emits tm rt (P : Event → Prop) cfg force dryRun :
  (∀ o, P (EvPrint o)) → (∀ p, P (EvAsk p)) → (∀ d, P (EvStderr d)) →
  (mayCall rt force dryRun "Do you want to update CodeReviewAssignments?" →
   ∀ c, P (EvCall c)) →
  emits P (reviewPass tm rt cfg force dryRun).
Proof.
  intros H1 H2 H3 H4 tr. unfold reviewPass. rewrite bind_run.
  destruct (confirm_emits rt P force
              "Do you want to update CodeReviewAssignments?" H2 tr) as (n1 & E1 & F1).
  pose proof (confirm_result rt force
                "Do you want to update CodeReviewAssignments?" tr) as Hr.
  destruct (confirm rt force _ tr) as [tr1 [err|[]]]; simpl in *.
  - exists n1. done.
  - rewrite bind_run. simpl.
    edestruct (reviewLoop_emits tm rt P dryRun cfg) as (n2 & E2 & F2);
      [done..| |].
    { intros ->. apply H4. split; [done|]. destruct force; [by left|by right]. }
    exists (n1 ++ n2). rewrite E2, E1, <-(assoc_L (++)). split; [done|].
    by apply Forall_app.
  - exists n1. done.
Qed.

Lemma SyncTeams_emits tm rt (P : Event → Prop) fuel cfg force dryRun :
  (∀ s v, P (EvQuery s v)) →
  (∀ o, P (EvPrint o)) → (∀ p, P (EvAsk p)) → (∀ d, P (EvStderr d)) →
  ((mayCall rt force dryRun "Continue?" ∨
    mayCall rt force dryRun "Do you want to update CodeReviewAssignments?") →
   ∀ c, P (EvCall c)) →
  emits P (SyncTeams tm rt fuel cfg force dryRun).
Proof.
  intros H0 H1 H2 H3 H4. unfold SyncTeams.
  apply emits_bind; [apply GetCurrentConfig_emits; auto|].
  intros [up|err|]; [|apply emits_ret..].
  apply emits_bind; [apply membershipPass_emits; auto|].
  intros [c|err|]; [|apply emits_ret..].
  apply reviewPass_emits; auto.
Qed.

(** ** The membership pass: the claims *)

(** The member list stored for a team after its change was applied, or
    would have been in a dry run: without duplicates, and with exactly the
    members [(original ∪ toAdd) − toRemove] when no login is both added and
    removed, as is the case for the changes of the diff. *)
Lemma updateMembers_member_set rt cfg name change :
  (∀ x, x ∈ add change → x ∉ remove change) →
  ∃ l, TeamConfig.Members (Config.team (updateMembers rt cfg name change) name) = Some l ∧
       NoDup l ∧
       ∀ x, x ∈ l ↔
            (x ∈ elems (TeamConfig.Members (Config.team cfg name)) ∨ x ∈ add change) ∧
            x ∉ remove change.
Proof.
  intros Hd. eexists. unfold Config.team at 1. rewrite updateMembers_lookup. simpl.
  split; [done|]. split; [apply rangeSet_NoDup|]. intros x.
  rewrite elem_of_rangeSet, memberSet_elem. specialize (Hd x). tauto.
Qed.

Lemma pendingChange_disjoint localTeam upstreamTeam change :
  pendingChange localTeam upstreamTeam = Some change →
  ∀ x, x ∈ add change → x ∉ remove change.
Proof.
  unfold pendingChange, changeOf. case_decide; [done|].
  destruct (_ || _); [|done]. intros [= <-] x. simpl.
  rewrite !NotIn_elem. tauto.
Qed.

(** C2, the code at the failing input. The change of "ops" is applied with
    one add call and one remove call, and the rebuilt member set {a, b} is
    stored in the order in which the runtime visits it, here b before a:
    the stored list is not sorted. *)
Theorem members_stored_in_visit_order :
  let r := SyncTeams Sample.manager (Sample.runtime true reversedVisit) 5
             Sample.localCfg false false [] in
  ∃ cfg, r.2 = Done cfg ∧
    TeamConfig.Members (Config.team cfg "ops") = Some ["b"; "a"] ∧
    ¬ Sorted strLe ["b"; "a"] ∧
    EvCall (AddTeamMembershipBySlug "acme" "ops" "a" "member") ∈ r.1 ∧
    EvCall (RemoveTeamMembershipBySlug "acme" "ops" "c") ∈ r.1.
Proof.
  eexists. split; [vm_compute; reflexivity|].
  split; [vm_compute; reflexivity|]. split.
  - intros H. inversion H as [|? ? _ Hd]. inversion Hd as [|? ? Hle]. done.
  - split; vm_compute; apply list_elem_of_In; simpl; tauto.
Qed.

(** The same run when the runtime visits the rebuilt set in the other
    order: the stored list is a, b. *)
Example members_order_is_the_runtime's :
  let r := SyncTeams Sample.manager (Sample.runtime true orderedVisit) 5
             Sample.localCfg false false [] in
  ∃ cfg, r.2 = Done cfg ∧
    TeamConfig.Members (Config.team cfg "ops") = Some ["a"; "b"].
Proof. eexists. split; vm_compute; reflexivity. Qed.

Lemma addMembers_succeeds tm rt name l tr :
  (∀ tr c, remoteCall tm tr c = None) → (addMembers tm rt name l tr).2 = None.
Proof.
  intros Hok. revert tr. induction l as [|u l IH]; intros tr; simpl; [done|].
  rewrite !bind_run. simpl. by rewrite Hok.
Qed.

Lemma removeMembers_succeeds tm rt name l tr :
  (∀ tr c, remoteCall tm tr c = None) → (removeMembers tm rt name l tr).2 = None.
Proof.
  intros Hok. revert tr. induction l as [|u l IH]; intros tr; simpl; [done|].
  rewrite !bind_run. simpl. by rewrite Hok.
Qed.

(** After a dry run of the membership pass, every team with a pending change
    has the member list [(original ∪ toAdd) − toRemove], without
    duplicates. *)
Lemma dry_run_rebuilds_member_set tm rt (up cfg : Config.t) name change tr :
  pendingChanges up cfg !! name = Some change →
  let r := applyLoop tm rt true
             (rangeMap rt RangeChangesApply (pendingChanges up cfg)) cfg tr in
  ∃ l, TeamConfig.Members (Config.team r.2 name) = Some l ∧
       NoDup l ∧
       ∀ x, x ∈ l ↔
            (x ∈ elems (TeamConfig.Members (Config.team cfg name)) ∨ x ∈ add change) ∧
            x ∉ remove change.
Proof.
  intros Hc r.
  destruct (applyLoop_team tm rt true
              (rangeMap rt RangeChangesApply (pendingChanges up cfg)) cfg tr
              name change) as (tr0 & _ & _ & H).
  { apply rangeMap_NoDup. }
  { by apply elem_of_rangeMap. }
  simpl in H. fold r in H.
  destruct (updateMembers_member_set rt cfg name change) as (l & Hl & Hnd & Hx).
  { unfold pendingChanges in Hc. rewrite map_lookup_imap in Hc.
    destruct (Config.Teams cfg !! name) as [lt|]; [|done].
    by eapply pendingChange_disjoint. }
  exists l. split; [|done]. unfold Config.team in *. by rewrite H.
Qed.

Lemma SyncTeamMembers_succeeds tm rt name a r tr :
  (∀ tr c, remoteCall tm tr c = None) →
  (SyncTeamMembers tm rt name a r tr).2 = None.
Proof.
  intros Hok. unfold SyncTeamMembers. rewrite bind_run.
  rewrite addMembers_succeeds by done. by apply removeMembers_succeeds.
Qed.

(** When no call fails, the loop rebuilds the member list of every team
    with a change, in a dry run or not. *)
Lemma applyLoop_succeeds tm rt dryRun l cfg tr :
  (∀ tr c, remoteCall tm tr c = None) →
  (applyLoop tm rt dryRun l cfg tr).2 =
  foldl (λ cfg nc, updateMembers rt cfg nc.1 nc.2) cfg l.
Proof.
  intros Hok. revert cfg tr. induction l as [|[n c] l IH]; intros cfg tr; [done|].
  simpl. rewrite bind_run, IH. f_equal. rewrite applyChange_run.
  assert ((attempt tm rt dryRun n c tr).2 = None) as E.
  { unfold attempt. destruct dryRun; [done|]. by apply SyncTeamMembers_succeeds. }
  destruct (attempt tm rt dryRun n c tr) as [tr' r]. simpl in *. by subst.
Qed.

(** When no remote call fails, [SyncTeams] returns the same configuration
    with [dryRun] set as without it, when the two runs have the same
    answers and visit their maps in the same orders; and the dry run issues
    no mutation call. *)
Lemma dry_run_same_model_in_one_visit_order tm rt fuel (localCfg : Config.t)
    (force : bool) tr :
  (∀ tr c, remoteCall tm tr c = None) →
  (SyncTeams tm rt fuel localCfg force true tr).2 =
  (SyncTeams tm rt fuel localCfg force false tr).2 ∧
  ∃ new, (SyncTeams tm rt fuel localCfg force true tr).1 = tr ++ new ∧
         Forall notCall new.
Proof.
  intros Hok. split.
  - unfold SyncTeams. rewrite !bind_run.
    destruct (GetCurrentConfig tm fuel tr) as [tr1 [up|err|]]; simpl; [|done..].
    rewrite !bind_run.
    destruct (membershipPass_result tm rt up localCfg force true tr1) as [ta Ea].
    destruct (membershipPass_result tm rt up localCfg force false tr1) as [tb Eb].
    rewrite !applyLoop_succeeds in Ea, Eb by done. rewrite <-Eb in Ea.
    destruct (membershipPass tm rt up localCfg force true tr1) as [t1 r1].
    destruct (membershipPass tm rt up localCfg force false tr1) as [t2 r2].
    simpl in *. subst r2. destruct r1 as [c|err|]; simpl; [|done..].
    by rewrite !reviewPass_result.
  - apply SyncTeams_emits; try done. by intros [[[=] _]|[[=] _]].
Qed.

Lemma attempt_succeeds tm rt dryRun name change tr :
  (∀ tr c, remoteCall tm tr c = None) →
  (attempt tm rt dryRun name change tr).2 = None.
Proof.
  intros Hok. unfold attempt. destruct dryRun; [done|].
  by apply SyncTeamMembers_succeeds.
Qed.

Lemma option_sameUpToMemberOrder_refl (o : option TeamConfig.t) :
  option_Forall2 sameUpToMemberOrder o o.
Proof. destruct o; constructor. split; [apply sameButMembers_refl|done]. Qed.

(** Two runs of the loop that applies the changes, in a dry run or not and
    whatever the orders in which the runtime visits the maps, rebuild the
    same member sets when no call fails: the lists they store are equal up
    to their order. *)
Lemma applyLoop_up_to_member_order tm rt rt' (dryRun dryRun' : bool)
    (up cfg : Config.t) tr tr' name :
  (∀ tr c, remoteCall tm tr c = None) →
  option_Forall2 sameUpToMemberOrder
    (Config.Teams
       (applyLoop tm rt dryRun
          (rangeMap rt RangeChangesApply (pendingChanges up cfg)) cfg tr).2 !! name)
    (Config.Teams
       (applyLoop tm rt' dryRun'
          (rangeMap rt' RangeChangesApply (pendingChanges up cfg)) cfg tr').2 !! name).
Proof.
  intros Hok. destruct (pendingChanges up cfg !! name) as [change|] eqn:E.
  - destruct (applyLoop_team tm rt dryRun
                (rangeMap rt RangeChangesApply (pendingChanges up cfg)) cfg tr
                name change) as (t0 & _ & _ & H);
      [apply rangeMap_NoDup|by apply elem_of_rangeMap|].
    destruct (applyLoop_team tm rt' dryRun'
                (rangeMap rt' RangeChangesApply (pendingChanges up cfg)) cfg tr'
                name change) as (t0' & _ & _ & H');
      [apply rangeMap_NoDup|by apply elem_of_rangeMap|].
    cbv zeta in H, H'. rewrite attempt_succeeds in H, H' by done.
    rewrite H, H', !updateMembers_lookup. constructor.
    split; [done|]. simpl. by rewrite !rangeSet_perm.
  - rewrite !applyLoop_other; [apply option_sameUpToMemberOrder_refl|..].
    all: rewrite rangeMap_fst; intros Hn%elem_of_rangeKeys; rewrite E in Hn;
      by destruct Hn.
Qed.

(** What holds of a dry run and a live run whatever the orders in which the
    two runs visit their maps: when no remote call fails and the operator
    gives the same answers, they end alike, with the same error or with
    configurations that are equal up to the order of the member lists. *)
Lemma dry_run_agrees_up_to_member_order tm rt rt' fuel (localCfg : Config.t)
    (force : bool) tr :
  (∀ tr c, remoteCall tm tr c = None) →
  (∀ prompt, AskForConfirmation rt prompt = AskForConfirmation rt' prompt) →
  match (SyncTeams tm rt fuel localCfg force true tr).2,
        (SyncTeams tm rt' fuel localCfg force false tr).2 with
  | Done c, Done c' =>
      Config.Organization c = Config.Organization c' ∧
      Config.Members c = Config.Members c' ∧
      Config.ExcludeCRAFromAllTeams c = Config.ExcludeCRAFromAllTeams c' ∧
      ∀ name, option_Forall2 sameUpToMemberOrder
                (Config.Teams c !! name) (Config.Teams c' !! name)
  | Fail e, Fail e' => e = e'
  | OutOfFuel, OutOfFuel => True
  | _, _ => False
  end.
Proof.
  intros Hok Hans. unfold SyncTeams. rewrite !bind_run.
  destruct (GetCurrentConfig tm fuel tr) as [tr1 [up|err|]]; simpl; [|done..].
  rewrite !bind_run.
  pose proof (membershipPass_frame tm rt up localCfg force true tr1) as Fa.
  pose proof (membershipPass_frame tm rt' up localCfg force false tr1) as Fb.
  destruct (membershipPass_result tm rt up localCfg force true tr1) as [ta Ea].
  destruct (membershipPass_result tm rt' up localCfg force false tr1) as [tb Eb].
  rewrite <-Hans in Eb.
  destruct (membershipPass tm rt up localCfg force true tr1) as [t1 r1].
  destruct (membershipPass tm rt' up localCfg force false tr1) as [t2 r2].
  simpl in *. subst r1 r2.
  assert (∀ c c', frame localCfg c → frame localCfg c' →
            (∀ name, option_Forall2 sameUpToMemberOrder
                       (Config.Teams c !! name) (Config.Teams c' !! name)) →
            match (reviewPass tm rt c force true t1).2,
                  (reviewPass tm rt' c' force false t2).2 with
            | Done c, Done c' =>
                Config.Organization c = Config.Organization c' ∧
                Config.Members c = Config.Members c' ∧
                Config.ExcludeCRAFromAllTeams c = Config.ExcludeCRAFromAllTeams c' ∧
                ∀ name, option_Forall2 sameUpToMemberOrder
                          (Config.Teams c !! name) (Config.Teams c' !! name)
            | Fail e, Fail e' => e = e'
            | OutOfFuel, OutOfFuel => True
            | _, _ => False
            end) as Hreview.
  { intros c c' (Ho & Hm & He & _) (Ho' & Hm' & He' & _) Hteams.
    rewrite !reviewPass_result, <-Hans.
    destruct (if force then inr true else
                AskForConfirmation rt "Do you want to update CodeReviewAssignments?")
      as [err|yes]; simpl; [done|].
    repeat split; [congruence..|done]. }
  destruct (size _ =? 0)%nat.
  { apply Hreview; [apply frame_refl..|].
    intros name. apply option_sameUpToMemberOrder_refl. }
  destruct (if force then _ else _) as [err|[]]; [done| |].
  - apply Hreview; [by apply Fa|by apply Fb|].
    intros name. by apply applyLoop_up_to_member_order.
  - apply Hreview; [apply frame_refl..|].
    intros name. apply option_sameUpToMemberOrder_refl.
Qed.

(** C3, the code at the failing input. The same local configuration is
    synchronised twice, the operator confirming and every call succeeding:
    in a dry run, in which the runtime visits the rebuilt member set of
    "ops" in the order b, a, and in a live run, in which it visits it in the
    order a, b. The dry run issues no mutation call, the live run issues
    the add and the remove; both rebuild the member list of "ops" from the
    set {a, b}, but not identically: the dry run stores the list b, a,
    which is not the list a, b it started from, and the live run stores the
    list a, b, so the two models differ. *)
Theorem dry_run_model_differs_in_member_order :
  let dry := SyncTeams Sample.manager (Sample.runtime true reversedVisit) 5
               Sample.localCfg false true [] in
  let live := SyncTeams Sample.manager (Sample.runtime true orderedVisit) 5
                Sample.localCfg false false [] in
  ∃ cfgDry cfgLive,
    dry.2 = Done cfgDry ∧ live.2 = Done cfgLive ∧
    Forall notCall dry.1 ∧
    EvCall (AddTeamMembershipBySlug "acme" "ops" "a" "member") ∈ live.1 ∧
    EvCall (RemoveTeamMembershipBySlug "acme" "ops" "c") ∈ live.1 ∧
    TeamConfig.Members (Config.team Sample.localCfg "ops") = Some ["a"; "b"] ∧
    TeamConfig.Members (Config.team Sample.upstreamCfg "ops") = Some ["b"; "c"] ∧
    TeamConfig.Members (Config.team cfgDry "ops") = Some ["b"; "a"] ∧
    TeamConfig.Members (Config.team cfgLive "ops") = Some ["a"; "b"] ∧
    cfgDry ≠ cfgLive.
Proof.
  eexists _, _. split; [vm_compute; reflexivity|].
  split; [vm_compute; reflexivity|].
  split; [vm_compute; repeat constructor|].
  split; [vm_compute; apply list_elem_of_In; simpl; tauto|].
  split; [vm_compute; apply list_elem_of_In; simpl; tauto|].
  split; [vm_compute; reflexivity|]. split; [vm_compute; reflexivity|].
  split; [vm_compute; reflexivity|]. split; [vm_compute; reflexivity|].
  intros H. apply (f_equal (λ c, TeamConfig.Members (Config.team c "ops"))) in H.
  vm_compute in H. discriminate H.
Qed.

(** C7. In the confirmed membership pass, every team with a pending change
    is attempted, at some moment [tr0] of the run, and what the attempt
    does is part of the trace of the run. When [SyncTeamMembers]
    fails for it, the failure is reported on standard error and the team
    keeps its member list; when it succeeds, the team gets its rebuilt
    member list. This holds for each team whatever happened to the others:
    a failure stops neither the loop nor the run. *)
Theorem sync_failure_skips_only_that_team tm rt
    (teamChanges : gmap string teamChange) (localCfg : Config.t) tr
    (name : string) (change : teamChange) :
  teamChanges !! name = Some change →
  let r := applyLoop tm rt false
             (rangeMap rt RangeChangesApply teamChanges) localCfg tr in
  ∃ tr0, tr `prefix_of` tr0 ∧
    (SyncTeamMembers tm rt name (add change) (remove change) tr0).1 `prefix_of` r.1 ∧
    match (SyncTeamMembers tm rt name (add change) (remove change) tr0).2 with
    | Some err =>
        EvStderr (UnableToSyncTeam name err) ∈ r.1 ∧
        Config.Teams r.2 !! name = Config.Teams localCfg !! name
    | None =>
        Config.Teams r.2 !! name =
        Config.Teams (updateMembers rt localCfg name change) !! name
    end.
Proof.
  intros Hc.
  apply (applyLoop_team tm rt false _ localCfg tr name change).
  - apply rangeMap_NoDup.
  - by apply elem_of_rangeMap.
Qed.

Lemma sync_failure_skips_only_that_team_witness :
  let r := applyLoop Sample.failingOps (Sample.runtime true orderedVisit) false
             (rangeMap (Sample.runtime true orderedVisit) RangeChangesApply
                Sample.changes) Sample.localCfg [] in
  ∃ tr0, [] `prefix_of` tr0 ∧
    (SyncTeamMembers Sample.failingOps (Sample.runtime true orderedVisit)
       "ops" ["a"] ["c"] tr0).1 `prefix_of` r.1 ∧
    match (SyncTeamMembers Sample.failingOps (Sample.runtime true orderedVisit)
             "ops" ["a"] ["c"] tr0).2 with
    | Some err =>
        EvStderr (UnableToSyncTeam "ops" err) ∈ r.1 ∧
        Config.Teams r.2 !! "ops" = Config.Teams Sample.localCfg !! "ops"
    | None =>
        Config.Teams r.2 !! "ops" =
        Config.Teams (updateMembers (Sample.runtime true orderedVisit)
                        Sample.localCfg "ops" {| add := ["a"]; remove := ["c"] |})
          !! "ops"
    end.
Proof.
  apply (sync_failure_skips_only_that_team Sample.failingOps
           (Sample.runtime true orderedVisit) Sample.changes Sample.localCfg []
           "ops" {| add := ["a"]; remove := ["c"] |}).
  vm_compute. reflexivity.
Defined.

(** The run of the sample in which the calls for "ops" fail: the failure is
    reported, "ops" keeps its member list, and the change of "qa" is
    applied. *)
Example failing_team_does_not_stop_the_run :
  let r := SyncTeams Sample.failingOps (Sample.runtime true orderedVisit) 5
             Sample.localCfg false false [] in
  ∃ cfg, r.2 = Done cfg ∧
    EvStderr (UnableToSyncTeam "ops" (RemoteError "forbidden")) ∈ r.1 ∧
    Config.Teams cfg !! "ops" = Config.Teams Sample.localCfg !! "ops" ∧
    EvCall (AddTeamMembershipBySlug "acme" "qa" "e" "member") ∈ r.1 ∧
    TeamConfig.Members (Config.team cfg "qa") = Some ["e"].
Proof.
  eexists. split; [vm_compute; reflexivity|].
  split; [vm_compute; apply list_elem_of_In; simpl; tauto|].
  split; [vm_compute; reflexivity|].
  split; [vm_compute; apply list_elem_of_In; simpl; tauto|].
  vm_compute; reflexivity.
Qed.

(** C8. When the operator answers no to the prompts and the remote state
    was fetched, [SyncTeams] returns the local configuration as it was, with
    no error, and issues no mutation call. *)
Theorem denial_is_not_an_error tm rt fuel (localCfg upstreamCfg : Config.t)
    (dryRun : bool) tr :
  (∀ prompt, AskForConfirmation rt prompt = inr false) →
  (GetCurrentConfig tm fuel tr).2 = Done upstreamCfg →
  let r := SyncTeams tm rt fuel localCfg false dryRun tr in
  r.2 = Done localCfg ∧ ∃ new, r.1 = tr ++ new ∧ Forall notCall new.
Proof.
  intros Hno Hup. split.
  - unfold SyncTeams. rewrite bind_run, Hup, bind_run.
    destruct (membershipPass_result tm rt upstreamCfg localCfg false dryRun
                (GetCurrentConfig tm fuel tr).1) as [tr' E].
    rewrite Hno in E.
    assert ((membershipPass tm rt upstreamCfg localCfg false dryRun
               (GetCurrentConfig tm fuel tr).1).2 = Done localCfg) as ->.
    { rewrite E. by destruct (size _ =? 0)%nat. }
    by rewrite reviewPass_result, Hno.
  - apply SyncTeams_emits; try done.
    intros [[_ [[=]|H]]|[_ [[=]|H]]]; by rewrite Hno in H.
Qed.

Lemma denial_is_not_an_error_witness :
  let r := SyncTeams Sample.manager (Sample.runtime false orderedVisit) 5
             Sample.localCfg false false [] in
  r.2 = Done Sample.localCfg ∧ ∃ new, r.1 = [] ++ new ∧ Forall notCall new.
Proof.
  apply (denial_is_not_an_error Sample.manager (Sample.runtime false orderedVisit)
           5 Sample.localCfg Sample.upstreamCfg false []).
  - intros prompt. reflexivity.
  - vm_compute. reflexivity.
Defined.

(** C9. Whenever [SyncTeams] returns a configuration, every team of it has
    the [CodeReviewAssignment.ExcludedMembers] that it had in the input, and
    the two configurations have the same teams. *)
Theorem excluded_members_are_preserved tm rt fuel (localCfg cfg' : Config.t)
    (force dryRun : bool) tr :
  (SyncTeams tm rt fuel localCfg force dryRun tr).2 = Done cfg' →
  ∀ name,
    (λ team, CodeReviewAssignment.ExcludedMembers (TeamConfig.CRA team))
      <$> Config.Teams cfg' !! name =
    (λ team, CodeReviewAssignment.ExcludedMembers (TeamConfig.CRA team))
      <$> Config.Teams localCfg !! name.
Proof.
  unfold SyncTeams. rewrite bind_run.
  destruct (GetCurrentConfig tm fuel tr) as [tr1 [up|err|]]; simpl; [|done..].
  rewrite bind_run.
  pose proof (membershipPass_frame tm rt up localCfg force dryRun tr1) as Hf.
  destruct (membershipPass tm rt up localCfg force dryRun tr1) as [tr2 [c|err|]];
    simpl in *; [|done..].
  rewrite reviewPass_result. intros H name.
  assert (c = cfg') as <-.
  { destruct (if force then _ else _) as [?|?]; [done|]. by injection H. }
  destruct (Hf c eq_refl) as (_ & _ & _ & Ht). specialize (Ht name).
  destruct Ht as [a b [_ Hcra]|]; simpl; [|done]. by rewrite Hcra.
Qed.

Lemma excluded_members_are_preserved_witness :
  (λ team, CodeReviewAssignment.ExcludedMembers (TeamConfig.CRA team))
    <$> Config.Teams
          (updateMembers (Sample.runtime true reversedVisit)
             (updateMembers (Sample.runtime true reversedVisit)
                Sample.localCfg "ops" {| add := ["a"]; remove := ["c"] |})
             "qa" {| add := ["e"]; remove := [] |}) !! "ops" =
  (λ team, CodeReviewAssignment.ExcludedMembers (TeamConfig.CRA team))
    <$> Config.Teams Sample.localCfg !! "ops".
Proof.
  apply (excluded_members_are_preserved Sample.manager
           (Sample.runtime true reversedVisit) 5 Sample.localCfg _ true false []).
  vm_compute. reflexivity.
Defined.

(** ** [GetCurrentConfig] in front of a paged platform *)

Lemma length_cursor n : String.length (Remote.cursor n) = n.
Proof. induction n; simpl; congruence. Qed.

Lemma position_cursor n : Remote.position (Some (Remote.cursor n)) = n.
Proof. apply length_cursor. Qed.

Lemma query_result tm site v tr : (query tm site v tr).2 = gqlQuery tm v.
Proof. unfold query. by rewrite bind_run. Qed.

Lemma find_node j (ts : list Remote.Team) t :
  NoDup (Remote.ID <$> ts) → t ∈ ts →
  Teams.find (Remote.node j <$> ts) (Remote.ID t) = Some (Remote.node j t).
Proof.
  induction ts as [|a ts IH]; intros Hnd Hin; [by apply elem_of_nil in Hin|].
  apply NoDup_cons in Hnd as [Ha Hnd]. simpl.
  apply elem_of_cons in Hin as [->|Hin].
  - by rewrite decide_True.
  - rewrite decide_False; [by apply IH|].
    intros E. apply Ha. rewrite E. apply list_elem_of_fmap. eauto.
Qed.

Lemma setMembers_id (t : TeamConfig.t) : TeamConfig.setMembers t (TeamConfig.Members t) = t.
Proof. by destruct t. Qed.

Lemma setMembers_setMembers (t : TeamConfig.t) a b :
  TeamConfig.setMembers (TeamConfig.setMembers t a) b = TeamConfig.setMembers t b.
Proof. done. Qed.

Lemma foldl_addMember teamCfg c page :
  ∃ c', foldl addMember (teamCfg, c) page =
        (TeamConfig.setMembers teamCfg
           (foldl (λ ms member, append ms (teamMember.Login member))
              (TeamConfig.Members teamCfg) page), c') ∧
        Config.Teams c' = Config.Teams c.
Proof.
  revert teamCfg c. induction page as [|m page IH]; intros teamCfg c; simpl.
  - exists c. by rewrite setMembers_id.
  - edestruct IH as (c' & -> & Hc'). exists c'. by rewrite Hc'.
Qed.

Section Fetch.

Variable owner : string.
Variable org : Remote.t.

Lemma gqlQuery_page v :
  gqlQuery (Remote.manager owner org) v =
  inr (Remote.page org (Remote.position (Vars.teamsCursor v))
         (Remote.position (Vars.membersCursor v))).
Proof. done. Qed.

(** The inner loop, from member page [j] on, with [n] more pages to come. *)
Lemma membersLoop_serve (t : Remote.Team) i n :
  t ∈ nth i org [] → NoDup (Remote.ID <$> nth i org []) →
  ∀ (j fuel : nat) (requery : bool) (result : queryResult.t)
    (teamCfg : TeamConfig.t) (v : Vars.t) (c : Config.t) (tr : list Event),
    length (Remote.MemberPages t) - S j = n → n < fuel →
    Remote.position (Vars.teamsCursor v) = i →
    (if requery then Vars.membersCursor v = Some (Remote.cursor j)
     else j = 0 ∧ result = Remote.page org i 0) →
    ∃ v' c',
      (membersLoop (Remote.manager owner org) fuel requery result (Remote.node 0 t) (Remote.Name t)
         teamCfg v c tr).2 = Done (v', c') ∧
      Vars.teamsCursor v' = Vars.teamsCursor v ∧
      Config.Teams c' =
        <[Remote.Name t :=
            TeamConfig.setMembers teamCfg
              (foldl Remote.addPage (TeamConfig.Members teamCfg)
                 (Remote.pagesFrom t j n))]> (Config.Teams c).
Proof.
  intros Hin Hnd. induction n as [|n IH];
    intros j fuel requery result teamCfg v c tr Hn Hfuel Hv Hreq;
    (destruct fuel as [|fuel]; [lia|]); simpl; rewrite bind_run.
  all: assert (((if requery then query (Remote.manager owner org) QueryMembers v
                 else mret (inr result)) tr).2
               = inr (Remote.page org i j)) as ->
    by (destruct requery;
        [rewrite query_result, gqlQuery_page, Hv, Hreq, position_cursor; done
        |destruct Hreq as [-> ->]; done]).
  all: unfold Teams.WithID; simpl; rewrite find_node by done; simpl.
  all: destruct (foldl_addMember teamCfg c (nth j (Remote.MemberPages t) []))
         as (c1 & -> & Hc1).
  - assert ((S j <? length (Remote.MemberPages t))%nat = false) as ->
      by (apply Nat.ltb_ge; lia).
    simpl. eexists _, _. split; [done|]. split; [done|]. simpl.
    by rewrite Hc1.
  - assert ((S j <? length (Remote.MemberPages t))%nat = true) as ->
      by (apply Nat.ltb_lt; lia).
    simpl.
    edestruct (IH (S j) fuel true result) as (v' & c' & -> & Hv' & Hc');
      [lia|lia| |reflexivity|]; [exact Hv|].
    eexists _, _. split; [done|]. split; [done|]. rewrite Hc'. simpl.
    rewrite Hc1, insert_insert_eq. done.
Qed.

Lemma newTeamCfg_node j (t : Remote.Team) :
  newTeamCfg (Remote.node j t) =
  {| TeamConfig.ID := Remote.ID t; TeamConfig.Members := None;
     TeamConfig.CRA := Remote.reviewAssignment t |}.
Proof.
  unfold newTeamCfg, Remote.reviewAssignment. simpl.
  by destruct (Remote.DelegationEnabled t).
Qed.

Lemma fetchedTeams_fresh (ts : list Remote.Team) m name :
  name ∉ Remote.Name <$> ts → Remote.fetchedTeams ts m !! name = m !! name.
Proof.
  revert m. induction ts as [|t ts IH]; intros m Hn; [done|].
  rewrite fmap_cons, not_elem_of_cons in Hn. destruct Hn as [Hne Hn].
  simpl. rewrite IH by done. by apply lookup_insert_ne.
Qed.

Lemma fetchedTeams_lookup (ts : list Remote.Team) m t :
  NoDup (Remote.Name <$> ts) → t ∈ ts →
  Remote.fetchedTeams ts m !! Remote.Name t = Some (Remote.fetched t).
Proof.
  revert m. induction ts as [|a ts IH]; intros m Hnd Hin;
    [by apply elem_of_nil in Hin|].
  rewrite fmap_cons in Hnd. apply NoDup_cons in Hnd as [Ha Hnd]. simpl.
  apply elem_of_cons in Hin as [->|Hin]; [|by apply IH].
  rewrite fetchedTeams_fresh by done. apply lookup_insert_eq.
Qed.

Lemma fetchedTeams_app (ts1 ts2 : list Remote.Team) m :
  Remote.fetchedTeams (ts1 ++ ts2) m =
  Remote.fetchedTeams ts2 (Remote.fetchedTeams ts1 m).
Proof. apply foldl_app. Qed.

(** The loop over the teams of page [i]; [ts] are the teams still to do. *)
Lemma teamNodesLoop_serve i limit :
  NoDup (Remote.ID <$> nth i org []) →
  ∀ (ts : list Remote.Team) (v : Vars.t) (c : Config.t) (tr : list Event),
    (∀ t, t ∈ ts → t ∈ nth i org [] ∧ length (Remote.MemberPages t) - 1 < limit) →
    NoDup (Remote.Name <$> ts) →
    (∀ t, t ∈ ts → Config.Teams c !! Remote.Name t = None) →
    Remote.position (Vars.teamsCursor v) = i →
    ∃ v' c',
      (teamNodesLoop (Remote.manager owner org) limit (Remote.page org i 0)
         (Remote.node 0 <$> ts) v c tr).2 = Done (v', c') ∧
      Vars.teamsCursor v' = Vars.teamsCursor v ∧
      Config.Teams c' = Remote.fetchedTeams ts (Config.Teams c).
Proof.
  intros Hids. induction ts as [|t ts IH]; intros v c tr Hts Hnd Hfresh Hv.
  - simpl. by eexists _, _.
  - rewrite fmap_cons in Hnd. apply NoDup_cons in Hnd as [Ht Hnd].
    destruct (Hts t) as [Hin Hlim]; [by left|].
    simpl. rewrite bind_run.
    rewrite (Hfresh t) by (by left).
    edestruct (membersLoop_serve t i (length (Remote.MemberPages t) - 1) Hin Hids
                 0 limit false (Remote.page org i 0) (newTeamCfg (Remote.node 0 t))
                 v c tr) as (v1 & c1 & -> & Hv1 & Hc1); [lia|done|done|done|].
    edestruct (IH v1 c1) as (v2 & c2 & -> & Hv2 & Hc2).
    + intros t' Ht'. apply Hts. by right.
    + done.
    + intros t' Ht'. rewrite Hc1, lookup_insert_ne.
      * apply Hfresh. by right.
      * intros E. apply Ht. rewrite E. apply list_elem_of_fmap. eauto.
    + by rewrite Hv1.
    + eexists _, _. split; [done|]. split; [congruence|].
      rewrite Hc2, Hc1. simpl. rewrite newTeamCfg_node. done.
Qed.

Lemma concat_drop_nth {A} (l : list (list A)) i :
  concat (drop i l) = nth i l [] ++ concat (drop (S i) l).
Proof.
  revert i. induction l as [|a l IH]; intros i.
  - by destruct i.
  - destruct i as [|i]; [by rewrite drop_0|]. simpl. apply IH.
Qed.

Lemma NoDup_fmap_nth {A B} (f : A → B) (l : list (list A)) i :
  NoDup (f <$> concat l) → NoDup (f <$> nth i l []).
Proof.
  revert i. induction l as [|a l IH]; intros i Hnd.
  - destruct i; constructor.
  - simpl in Hnd. rewrite fmap_app in Hnd. apply NoDup_app in Hnd as (Ha & _ & Hl).
    destruct i as [|i]; [done|]. by apply IH.
Qed.

(** The outer loop, from team page [i] on, with [n] more pages to come. *)
Lemma teamsLoop_serve limit n :
  NoDup (Remote.ID <$> concat org) →
  (∀ t, t ∈ concat org → length (Remote.MemberPages t) - 1 < limit) →
  ∀ (i fuel : nat) (requery : bool) (result : queryResult.t)
    (v : Vars.t) (c : Config.t) (tr : list Event),
    length org - S i = n → n < fuel →
    Remote.position (Vars.teamsCursor v) = i →
    (if requery then Vars.membersCursor v = None
     else result = Remote.page org i 0) →
    NoDup (Remote.Name <$> concat (drop i org)) →
    (∀ t, t ∈ concat (drop i org) → Config.Teams c !! Remote.Name t = None) →
    ∃ c',
      (teamsLoop (Remote.manager owner org) limit fuel requery result v c tr).2 = Done c' ∧
      Config.Teams c' = Remote.fetchedTeams (concat (drop i org)) (Config.Teams c).
Proof.
  intros Hids Hlim. induction n as [|n IH];
    intros i fuel requery result v c tr Hn Hfuel Hv Hreq Hnd Hfresh;
    (destruct fuel as [|fuel]; [lia|]); simpl; rewrite bind_run.
  all: assert (((if requery then query (Remote.manager owner org) QueryTeams v
                 else mret (inr result)) tr).2
               = inr (Remote.page org i 0)) as ->
    by (destruct requery;
        [rewrite query_result, gqlQuery_page, Hv, Hreq; done|by subst]).
  all: simpl; rewrite bind_run.
  all: rewrite concat_drop_nth in Hnd, Hfresh |- *.
  all: rewrite fmap_app in Hnd; apply NoDup_app in Hnd as (Hnd1 & Hnd12 & Hnd2).
  all: edestruct (teamNodesLoop_serve i limit (NoDup_fmap_nth _ _ i Hids)
                    (nth i org []) v c) as (v1 & c1 & -> & Hv1 & Hc1);
    [ intros t Ht; split; [done|]; apply Hlim;
      destruct (decide (i < length org)) as [Hi|Hi];
        [ apply list_elem_of_In, in_concat; exists (nth i org []);
          split; [apply nth_In; lia|by apply list_elem_of_In]
        | rewrite nth_overflow in Ht by lia; by apply elem_of_nil in Ht ]
    | done
    | intros t Ht; apply Hfresh, elem_of_app; by left
    | done | ].
  - assert ((S i <? length org)%nat = false) as -> by (apply Nat.ltb_ge; lia).
    simpl. eexists. split; [done|]. rewrite fetchedTeams_app, Hc1.
    rewrite drop_ge by lia. done.
  - assert ((S i <? length org)%nat = true) as -> by (apply Nat.ltb_lt; lia).
    simpl.
    edestruct (IH (S i) fuel true (Remote.page org i 0)
                 {| Vars.teamsCursor := Some (Remote.cursor (S i));
                    Vars.membersCursor := None |} c1)
      as (c2 & -> & Hc2); [lia|lia|apply position_cursor|done|done| |].
    + intros t Ht. rewrite Hc1, fetchedTeams_fresh.
      * apply Hfresh, elem_of_app. by right.
      * intros Hn1. eapply Hnd12; [exact Hn1|]. apply list_elem_of_fmap. eauto.
    + eexists. split; [done|]. by rewrite Hc2, Hc1, fetchedTeams_app.
Qed.
End Fetch.

(** ** The member list stored for a fetched team *)

Lemma sortStrings_sorted l : Sorted strLe (sortStrings l).
Proof. apply Sorted_merge_sort. apply _. Qed.

Lemma sortStrings_perm l : sortStrings l ≡ₚ l.
Proof. apply merge_sort_Permutation. Qed.

Lemma elems_append_logins (ms : slice string) (page : list teamMember.t) :
  elems (foldl (λ ms member, append ms (teamMember.Login member)) ms page) =
  elems ms ++ (teamMember.Login <$> page).
Proof.
  revert ms. induction page as [|m page IH]; intros ms; simpl.
  - by rewrite app_nil_r.
  - rewrite IH. simpl. by rewrite <-(assoc_L (++)).
Qed.

Lemma elems_sortStrings (s : slice string) :
  elems (sortStrings <$> s) = sortStrings (elems s).
Proof. by destruct s. Qed.

Lemma elems_addPage ms page :
  elems (Remote.addPage ms page) = sortStrings (elems ms ++ (teamMember.Login <$> page)).
Proof. unfold Remote.addPage. by rewrite elems_sortStrings, elems_append_logins. Qed.

Lemma addPages_perm ms pages :
  elems (foldl Remote.addPage ms pages) ≡ₚ elems ms ++ (teamMember.Login <$> concat pages).
Proof.
  revert ms. induction pages as [|p pages IH]; intros ms; simpl.
  - by rewrite app_nil_r.
  - rewrite IH, elems_addPage, sortStrings_perm, fmap_app.
    by rewrite <-(assoc_L (++)).
Qed.

Lemma addPages_sorted ms pages :
  pages ≠ [] → Sorted strLe (elems (foldl Remote.addPage ms pages)).
Proof.
  revert ms. induction pages as [|p pages IH]; intros ms Hne; [done|].
  simpl. destruct pages as [|q pages].
  - simpl. rewrite elems_addPage. apply sortStrings_sorted.
  - by apply IH.
Qed.

Lemma fmap_nth_seq {A} (l : list A) d a pre :
  length pre = a → (λ k, nth k (pre ++ l) d) <$> seq a (length l) = l.
Proof.
  revert a pre. induction l as [|x l IH]; intros a pre Ha; [done|].
  simpl. f_equal.
  - rewrite app_nth2 by lia. by rewrite Ha, Nat.sub_diag.
  - rewrite (cons_middle x pre l), (assoc_L (++)). apply IH.
    rewrite length_app. simpl. lia.
Qed.

Lemma concat_visitedPages t : concat (Remote.visitedPages t) = concat (Remote.MemberPages t).
Proof.
  unfold Remote.visitedPages, Remote.pagesFrom.
  destruct (Remote.MemberPages t) as [|p ps] eqn:E; [done|].
  replace (S (length (p :: ps) - 1)) with (length (p :: ps)) by (simpl; lia).
  f_equal. apply (fmap_nth_seq (p :: ps) [] 0 [] eq_refl).
Qed.

Lemma visitedPages_nonempty t : Remote.visitedPages t ≠ [].
Proof.
  unfold Remote.visitedPages, Remote.pagesFrom. intros H.
  apply fmap_nil_inv in H. simpl in H. discriminate H.
Qed.

Lemma fetched_members t :
  Sorted strLe (elems (TeamConfig.Members (Remote.fetched t))) ∧
  elems (TeamConfig.Members (Remote.fetched t)) ≡ₚ Remote.logins t.
Proof.
  unfold Remote.fetched. cbn [TeamConfig.Members]. split.
  - apply addPages_sorted, visitedPages_nonempty.
  - rewrite addPages_perm, concat_visitedPages. done.
Qed.

Lemma dom_fetchedTeams ts m :
  dom (Remote.fetchedTeams ts m) = list_to_set (Remote.Name <$> ts) ∪ dom m.
Proof.
  revert m. induction ts as [|t ts IH]; intros m; simpl.
  - by rewrite (left_id_L ∅ (∪)).
  - rewrite IH, dom_insert_L, (assoc_L (∪)).
    by rewrite (comm_L (∪) (list_to_set _) {[Remote.Name t]}).
Qed.

Lemma size_fetchedTeams ts :
  NoDup (Remote.Name <$> ts) → size (Remote.fetchedTeams ts ∅) = length ts.
Proof.
  intros Hnd. rewrite <-size_dom, dom_fetchedTeams, dom_empty_L, (right_id_L ∅ (∪)).
  rewrite size_list_to_set by done. apply length_fmap.
Qed.

Lemma fuel_members org t :
  t ∈ concat org → length (Remote.MemberPages t) - 1 < Remote.fuel org.
Proof.
  intros Ht. unfold Remote.fuel.
  assert (length (Remote.MemberPages t) ≤
          max_list (length ∘ Remote.MemberPages <$> concat org))%nat; [|lia].
  apply max_list_elem_of_le, list_elem_of_fmap. by exists t.
Qed.

(** C5. In front of a platform that serves the organization in pages,
    however the teams and the members of each team are cut into pages,
    [GetCurrentConfig] returns with enough fuel; the result has one entry
    per team; the entry of a team has its identifier, its review assignment,
    and, sorted, the logins of all its member pages; and every query for a
    further team page is made with the member cursor reset to nil. Team
    names and identifiers are those of distinct teams. *)
Theorem GetCurrentConfig_assembles_all_pages (owner : string) (org : Remote.t)
    (fuel : nat) tr :
  NoDup (Remote.Name <$> concat org) →
  NoDup (Remote.ID <$> concat org) →
  (Remote.fuel org ≤ fuel)%nat →
  ∃ c new,
    GetCurrentConfig (Remote.manager owner org) fuel tr = (tr ++ new, Done c) ∧
    size (Config.Teams c) = length (concat org) ∧
    (∀ t, t ∈ concat org →
       ∃ teamCfg, Config.Teams c !! Remote.Name t = Some teamCfg ∧
         TeamConfig.ID teamCfg = Remote.ID t ∧
         TeamConfig.CRA teamCfg = Remote.reviewAssignment t ∧
         Sorted strLe (elems (TeamConfig.Members teamCfg)) ∧
         elems (TeamConfig.Members teamCfg) ≡ₚ Remote.logins t) ∧
    Forall (λ e, ∀ v, e = EvQuery QueryTeams v → Vars.membersCursor v = None) new.
Proof.
  intros Hnames Hids Hfuel.
  assert (∃ c, (GetCurrentConfig (Remote.manager owner org) fuel tr).2 = Done c ∧
               Config.Teams c = Remote.fetchedTeams (concat org) ∅) as (c & Hc & Ht).
  { assert (∀ t, t ∈ concat org → length (Remote.MemberPages t) - 1 < fuel) as Hlim.
    { intros t Hin. pose proof (fuel_members org t Hin). lia. }
    unfold GetCurrentConfig. rewrite bind_run, query_result.
    destruct (teamsLoop_serve owner org fuel (length org - 1) Hids Hlim
                0 fuel false (Remote.page org 0 0) Vars.empty
                {| Config.Organization := owner; Config.Teams := ∅;
                   Config.Members := ∅; Config.ExcludeCRAFromAllTeams := None |}
                (query (Remote.manager owner org) QueryInitial Vars.empty tr).1)
      as (c & Hc & Ht).
    - lia.
    - unfold Remote.fuel in Hfuel. lia.
    - reflexivity.
    - reflexivity.
    - by rewrite drop_0.
    - intros. apply lookup_empty.
    - exists c. split; [exact Hc|]. by rewrite drop_0 in Ht. }
  destruct (GetCurrentConfig_emits (Remote.manager owner org)
              (λ e, ∀ v, e = EvQuery QueryTeams v → Vars.membersCursor v = None)
              fuel) with (tr := tr) as (new & Hnew & Hall).
  { by intros v. }
  { by intros v v'. }
  { intros v Hv v' [= <-]. done. }
  exists c, new. split.
  { destruct (GetCurrentConfig _ fuel tr) as [t r]. simpl in *. by subst. }
  split; [rewrite Ht; by apply size_fetchedTeams|]. split; [|done].
  intros t Hin. exists (Remote.fetched t).
  split; [rewrite Ht; by apply fetchedTeams_lookup|].
  split; [done|]. split; [done|]. apply fetched_members.
Qed.

Lemma GetCurrentConfig_assembles_all_pages_witness :
  ∃ c new,
    GetCurrentConfig (Remote.manager "acme" Sample.org) 5 [] = ([] ++ new, Done c) ∧
    size (Config.Teams c) = length (concat Sample.org) ∧
    (∀ t, t ∈ concat Sample.org →
       ∃ teamCfg, Config.Teams c !! Remote.Name t = Some teamCfg ∧
         TeamConfig.ID teamCfg = Remote.ID t ∧
         TeamConfig.CRA teamCfg = Remote.reviewAssignment t ∧
         Sorted strLe (elems (TeamConfig.Members teamCfg)) ∧
         elems (TeamConfig.Members teamCfg) ≡ₚ Remote.logins t) ∧
    Forall (λ e, ∀ v, e = EvQuery QueryTeams v → Vars.membersCursor v = None) new.
Proof.
  apply (GetCurrentConfig_assembles_all_pages "acme" Sample.org 5 []).
  - refine (bool_decide_unpack _ _). vm_compute. reflexivity.
  - refine (bool_decide_unpack _ _). vm_compute. reflexivity.
  - vm_compute. lia.
Defined.

(** * Further properties *)

(** ** [Teams.WithID] *)

Lemma find_first nodes id :
  match Teams.find nodes id with
  | Some n => ∃ pre post, nodes = pre ++ n :: post ∧ team.ID n = id ∧
                          ∀ m, m ∈ pre → team.ID m ≠ id
  | None => ∀ m, m ∈ nodes → team.ID m ≠ id
  end.
Proof.
  induction nodes as [|a nodes IH]; simpl.
  - intros m Hm. by apply elem_of_nil in Hm.
  - case_decide as Ha.
    + exists [], nodes. split; [done|]. split; [done|].
      intros m Hm. by apply elem_of_nil in Hm.
    + destruct (Teams.find nodes id) as [n|].
      * destruct IH as (pre & post & -> & Hn & Hpre).
        exists (a :: pre), post. split; [done|]. split; [done|].
        intros m [->|Hm]%elem_of_cons; [done|by apply Hpre].
      * intros m [->|Hm]%elem_of_cons; [done|by apply IH].
Qed.

(** X1. [WithID] returns the first node of the page that has the
    identifier; it fails, with the error that names the identifier, exactly
    when no node has it. *)
Theorem WithID_first_match (t : Teams.t) (id : string) :
  match Teams.WithID t id with
  | inr n => ∃ pre post, Teams.Nodes t = pre ++ n :: post ∧ team.ID n = id ∧
                         ∀ m, m ∈ pre → team.ID m ≠ id
  | inl err => err = TeamNotFound id ∧ ∀ m, m ∈ Teams.Nodes t → team.ID m ≠ id
  end.
Proof.
  unfold Teams.WithID. pose proof (find_first (Teams.Nodes t) id) as H.
  destruct (Teams.find (Teams.Nodes t) id); [done|]. by split.
Qed.

(** ** What [GetCurrentConfig] keeps, whatever the platform answers *)

Lemma foldl_addMember_frame page teamCfg c :
  let r := foldl addMember (teamCfg, c) page in
  Config.Teams r.2 = Config.Teams c ∧
  Config.Organization r.2 = Config.Organization c ∧
  Config.ExcludeCRAFromAllTeams r.2 = Config.ExcludeCRAFromAllTeams c ∧
  TeamConfig.CRA r.1 = TeamConfig.CRA teamCfg ∧
  elems (TeamConfig.Members r.1) =
    elems (TeamConfig.Members teamCfg) ++ (teamMember.Login <$> page) ∧
  (∀ login, is_Some (Config.Members c !! login) →
            is_Some (Config.Members r.2 !! login)) ∧
  (∀ login, login ∈ teamMember.Login <$> page →
            is_Some (Config.Members r.2 !! login)).
Proof.
  revert teamCfg c. induction page as [|m page IH]; intros teamCfg c; simpl.
  - rewrite app_nil_r. repeat split; try done.
    intros login Hl. by apply elem_of_nil in Hl.
  - destruct (IH (TeamConfig.setMembers teamCfg
                    (append (TeamConfig.Members teamCfg) (teamMember.Login m)))
                (Config.setMember c (teamMember.Login m)
                   {| User.ID := teamMember.ID m; User.Name := teamMember.Name m |}))
      as (H1 & H2 & H3 & H4 & H5 & H6 & H7).
    split; [done|]. split; [done|]. split; [done|]. split; [done|].
    split; [rewrite H5; simpl; by rewrite <-(assoc_L (++))|]. split.
    + intros login Hl. apply H6. simpl.
      destruct (decide (teamMember.Login m = login)) as [->|Hne].
      * rewrite lookup_insert_eq. eauto.
      * by rewrite lookup_insert_ne.
    + intros login [->|Hl]%elem_of_cons; [|by apply H7].
      apply H6. simpl. rewrite lookup_insert_eq. eauto.
Qed.

(** One page of members added to a team, and the team stored. *)
Lemma store_page_fetchedOk tm c teamCfg name page :
  fetchedOk tm c →
  CodeReviewAssignment.ExcludedMembers (TeamConfig.CRA teamCfg) = None →
  (∀ login, login ∈ elems (TeamConfig.Members teamCfg) →
            is_Some (Config.Members c !! login)) →
  let r := foldl addMember (teamCfg, c) page in
  let teamCfg' :=
    TeamConfig.setMembers r.1 (sortStrings <$> TeamConfig.Members r.1) in
  fetchedOk tm (Config.setTeam r.2 name teamCfg') ∧
  fetchedTeamOk (Config.setTeam r.2 name teamCfg') teamCfg'.
Proof.
  intros (Ho & He & Ht) Hx Hm r teamCfg'.
  destruct (foldl_addMember_frame page teamCfg c)
    as (H1 & H2 & H3 & H4 & H5 & H6 & H7). fold r in H1, H2, H3, H4, H5, H6, H7.
  assert (fetchedTeamOk (Config.setTeam r.2 name teamCfg') teamCfg') as Hok.
  { split; [simpl; congruence|]. split.
    - simpl. rewrite elems_sortStrings. apply sortStrings_sorted.
    - intros login. simpl. rewrite elems_sortStrings, sortStrings_perm, H5.
      intros [Hl|Hl]%elem_of_app; [by apply H6, Hm|by apply H7]. }
  split; [|done]. split; [simpl; congruence|]. split; [simpl; congruence|].
  intros n tc. simpl. destruct (decide (name = n)) as [->|Hne].
  - rewrite lookup_insert_eq. by intros [= <-].
  - rewrite lookup_insert_ne, H1 by done. intros Hn.
    destruct (Ht n tc Hn) as (Ha & Hb & Hc). split; [done|]. split; [done|].
    intros login Hl. by apply H6, Hc.
Qed.

Lemma membersLoop_fetchedOk tm fuel requery result t name teamCfg v c tr v' c' :
  fetchedOk tm c →
  CodeReviewAssignment.ExcludedMembers (TeamConfig.CRA teamCfg) = None →
  (∀ login, login ∈ elems (TeamConfig.Members teamCfg) →
            is_Some (Config.Members c !! login)) →
  (membersLoop tm fuel requery result t name teamCfg v c tr).2 = Done (v', c') →
  fetchedOk tm c'.
Proof.
  revert requery teamCfg v c tr.
  induction fuel as [|fuel IH]; intros requery teamCfg v c tr Hc Hx Hm; [done|].
  simpl. rewrite bind_run.
  destruct ((if requery then query tm QueryMembers v else mret (inr result)) tr)
    as [tr1 [err|inner]]; simpl; [done|].
  destruct (Teams.WithID _ _) as [err|teamNode]; [done|].
  destruct (store_page_fetchedOk tm c teamCfg name
              (MemberPage.Nodes (team.Members teamNode)) Hc Hx Hm) as [Hc' Ht'].
  destruct (foldl addMember _ _) as [tc1 c1]. simpl in Hc', Ht'.
  destruct (negb _); simpl.
  - by intros [= <- <-].
  - apply IH; [done|apply Ht'..].
Qed.

Lemma newTeamCfg_excluded t :
  CodeReviewAssignment.ExcludedMembers (TeamConfig.CRA (newTeamCfg t)) = None.
Proof. unfold newTeamCfg. simpl. by destruct (team.ReviewRequestDelegationEnabled t). Qed.

Lemma teamNodesLoop_fetchedOk tm fuel result nodes v c tr v' c' :
  fetchedOk tm c →
  (teamNodesLoop tm fuel result nodes v c tr).2 = Done (v', c') →
  fetchedOk tm c'.
Proof.
  revert v c tr. induction nodes as [|t nodes IH]; intros v c tr Hc; simpl.
  - by intros [= <- <-].
  - rewrite bind_run.
    pose proof (λ teamCfg Hx Hm v1 c1,
      membersLoop_fetchedOk tm fuel false result t (team.Name t) teamCfg v c tr
        v1 c1 Hc Hx Hm) as Hm.
    destruct (Config.Teams c !! team.Name t) as [old|] eqn:Eold.
    + destruct (proj2 (proj2 Hc) _ _ Eold) as (Hx & _ & Hd).
      specialize (Hm old Hx Hd).
      destruct (membersLoop tm fuel false result t (team.Name t) old v c tr)
        as [tr1 [[v1 c1]|err|]]; simpl in *; [|done..].
      apply IH. by eapply Hm.
    + specialize (Hm (newTeamCfg t) (newTeamCfg_excluded t)).
      destruct (membersLoop tm fuel false result t (team.Name t) (newTeamCfg t) v c tr)
        as [tr1 [[v1 c1]|err|]]; simpl in *; [|done..].
      apply IH. eapply Hm; [|done]. intros login Hl. by apply elem_of_nil in Hl.
Qed.

Lemma teamsLoop_fetchedOk tm limit fuel requery result v c tr c' :
  fetchedOk tm c →
  (teamsLoop tm limit fuel requery result v c tr).2 = Done c' →
  fetchedOk tm c'.
Proof.
  revert requery result v c tr.
  induction fuel as [|fuel IH]; intros requery result v c tr Hc; [done|].
  simpl. rewrite bind_run.
  destruct ((if requery then query tm QueryTeams v else mret (inr result)) tr)
    as [tr1 [err|result']]; simpl; [done|].
  rewrite bind_run.
  pose proof (teamNodesLoop_fetchedOk tm limit result'
                (Teams.Nodes (queryResult.OrganizationTeams result')) v c tr1) as Hn.
  destruct (teamNodesLoop tm limit result' _ v c tr1)
    as [tr2 [[v1 c1]|err|]]; simpl in *; [|done..].
  destruct (negb _); simpl.
  - intros [= <-]. by eapply Hn.
  - apply IH. by eapply Hn.
Qed.

Lemma GetCurrentConfig_fetchedOk tm fuel tr c :
  (GetCurrentConfig tm fuel tr).2 = Done c → fetchedOk tm c.
Proof.
  unfold GetCurrentConfig. rewrite bind_run.
  destruct (query tm QueryInitial Vars.empty tr) as [tr1 [err|result]]; simpl; [done|].
  apply teamsLoop_fetchedOk. split; [done|]. split; [done|].
  intros name tc. simpl. by rewrite lookup_empty.
Qed.

(** X2. Whatever the platform answers, a configuration that
    [GetCurrentConfig] returns has the owner as organization, no exclusion
    for all teams, and no excluded member in any team: the fetch never
    populates the exclusions. *)
Theorem GetCurrentConfig_never_populates_exclusions tm fuel tr (c : Config.t) :
  (GetCurrentConfig tm fuel tr).2 = Done c →
  Config.Organization c = owner tm ∧
  Config.ExcludeCRAFromAllTeams c = None ∧
  ∀ name teamCfg, Config.Teams c !! name = Some teamCfg →
    CodeReviewAssignment.ExcludedMembers (TeamConfig.CRA teamCfg) = None.
Proof.
  intros (Ho & He & Ht)%GetCurrentConfig_fetchedOk.
  split; [done|]. split; [done|]. intros name tc Hn. by destruct (Ht name tc Hn).
Qed.

Lemma GetCurrentConfig_never_populates_exclusions_witness :
  Config.Organization Sample.upstreamCfg = owner Sample.manager ∧
  Config.ExcludeCRAFromAllTeams Sample.upstreamCfg = None ∧
  ∀ name teamCfg, Config.Teams Sample.upstreamCfg !! name = Some teamCfg →
    CodeReviewAssignment.ExcludedMembers (TeamConfig.CRA teamCfg) = None.
Proof.
  apply (GetCurrentConfig_never_populates_exclusions Sample.manager 5 []).
  vm_compute. reflexivity.
Defined.

(** X3. Whatever the platform answers, the member list of every team of a
    configuration that [GetCurrentConfig] returns is sorted. *)
Theorem GetCurrentConfig_members_sorted tm fuel tr (c : Config.t)
    (name : string) (teamCfg : TeamConfig.t) :
  (GetCurrentConfig tm fuel tr).2 = Done c →
  Config.Teams c !! name = Some teamCfg →
  Sorted strLe (elems (TeamConfig.Members teamCfg)).
Proof.
  intros (_ & _ & Ht)%GetCurrentConfig_fetchedOk Hn.
  by destruct (Ht name teamCfg Hn) as (_ & ? & _).
Qed.

Lemma GetCurrentConfig_members_sorted_witness :
  Sorted strLe (elems (TeamConfig.Members (Sample.teamConfig "T_ops" (Some ["b"; "c"]) None))).
Proof.
  apply (GetCurrentConfig_members_sorted Sample.manager 5 [] Sample.upstreamCfg "ops").
  - vm_compute. reflexivity.
  - vm_compute. reflexivity.
Defined.

(** X4. Whatever the platform answers, every member of every team of a
    configuration that [GetCurrentConfig] returns is in the member directory
    of that configuration. *)
Theorem GetCurrentConfig_members_in_directory tm fuel tr (c : Config.t)
    (name : string) (teamCfg : TeamConfig.t) (login : string) :
  (GetCurrentConfig tm fuel tr).2 = Done c →
  Config.Teams c !! name = Some teamCfg →
  login ∈ elems (TeamConfig.Members teamCfg) →
  is_Some (Config.Members c !! login).
Proof.
  intros (_ & _ & Ht)%GetCurrentConfig_fetchedOk Hn.
  destruct (Ht name teamCfg Hn) as (_ & _ & Hd). apply Hd.
Qed.

Lemma GetCurrentConfig_members_in_directory_witness :
  is_Some (Config.Members Sample.upstreamCfg !! "c").
Proof.
  apply (GetCurrentConfig_members_in_directory Sample.manager 5 []
           Sample.upstreamCfg "ops"
           (Sample.teamConfig "T_ops" (Some ["b"; "c"]) None) "c").
  - vm_compute. reflexivity.
  - vm_compute. reflexivity.
  - vm_compute. apply list_elem_of_In. simpl. tauto.
Defined.

(** ** The errors of [GetCurrentConfig] *)

Lemma query_run tm site v tr :
  query tm site v tr = (tr ++ [EvQuery site v], gqlQuery tm v).
Proof. unfold query. by rewrite bind_run. Qed.

Lemma query_trace tm site v tr : (query tm site v tr).1 = tr ++ [EvQuery site v].
Proof. by rewrite query_run. Qed.

Lemma find_listed nodes t : t ∈ nodes → is_Some (Teams.find nodes (team.ID t)).
Proof.
  induction nodes as [|a nodes IH]; [by intros ?%elem_of_nil|].
  intros [->|Hin]%elem_of_cons; simpl; case_decide; eauto. done.
Qed.

Lemma WithID_lacks t id err :
  Teams.WithID t id = inl err →
  err = TeamNotFound id ∧ ∀ n, n ∈ Teams.Nodes t → team.ID n ≠ id.
Proof.
  unfold Teams.WithID. pose proof (find_first (Teams.Nodes t) id) as H.
  destruct (Teams.find _ _); [done|]. by intros [= <-].
Qed.

Lemma isQuery_query site v : isQuery (EvQuery site v).
Proof. by eexists _, _. Qed.

Lemma listedTeam_mono tm l l' id : l ⊆ l' → listedTeam tm l id → listedTeam tm l' id.
Proof.
  intros Hl (site & v & page & t & Hin & H). exists site, v, page, t.
  split; [by apply Hl|done].
Qed.

(** The inner loop fails at a requery of members: the requery fails, or its
    response lacks the team. *)
Lemma membersLoop_fail tm fuel result t name e :
  ∀ requery teamCfg v c tr,
    (requery = false →
     is_Some (Teams.find (Teams.Nodes (queryResult.OrganizationTeams result))
                (team.ID t))) →
    (membersLoop tm fuel requery result t name teamCfg v c tr).2 = Fail e →
    ∃ earlier v',
      (membersLoop tm fuel requery result t name teamCfg v c tr).1
        = tr ++ earlier ++ [EvQuery QueryMembers v'] ∧
      Forall isQuery earlier ∧
      match gqlQuery tm v' with
      | inl err => e = Wrap "failed to requery team members" err
      | inr r => e = TeamNotFound (team.ID t) ∧ lacksTeam r (team.ID t)
      end.
Proof.
  induction fuel as [|fuel IH]; intros requery teamCfg v c tr Hfirst; [done|].
  simpl. rewrite bind_run. destruct requery.
  - rewrite query_run. cbn [fst snd].
    destruct (gqlQuery tm v) as [err|inner] eqn:Eq.
    + intros [= <-]. exists [], v. by rewrite Eq.
    + destruct (Teams.WithID _ _) as [err|teamNode] eqn:Ew.
      * intros [= <-]. apply WithID_lacks in Ew as [-> Hl].
        exists [], v. by rewrite Eq.
      * destruct (foldl addMember _ _) as [tc1 c1].
        destruct (negb _); [done|]. intros He.
        destruct (IH true _ _ _ _ ltac:(done) He) as (earlier & v' & Ht & Hq & Hm).
        exists (EvQuery QueryMembers v :: earlier), v'.
        split; [by rewrite Ht, <-!(assoc_L (++))|].
        split; [|done]. constructor; [apply isQuery_query|done].
  - assert (mret (M := M) (inr (A := error) result) tr = (tr, inr result)) as ->
      by done.
    cbn [fst snd].
    destruct (Teams.WithID _ _) as [err|teamNode] eqn:Ew.
    { unfold Teams.WithID in Ew. by destruct (Hfirst eq_refl) as [n Hn]; rewrite Hn in Ew. }
    destruct (foldl addMember _ _) as [tc1 c1].
    destruct (negb _); [done|]. intros He.
    by apply (IH true _ _ _ _ ltac:(done)).
Qed.

Lemma teamNodesLoop_fail tm fuel result e :
  ∀ nodes v c tr,
    (∀ t, t ∈ nodes →
       is_Some (Teams.find (Teams.Nodes (queryResult.OrganizationTeams result))
                  (team.ID t))) →
    (teamNodesLoop tm fuel result nodes v c tr).2 = Fail e →
    ∃ earlier v',
      (teamNodesLoop tm fuel result nodes v c tr).1
        = tr ++ earlier ++ [EvQuery QueryMembers v'] ∧
      Forall isQuery earlier ∧
      match gqlQuery tm v' with
      | inl err => e = Wrap "failed to requery team members" err
      | inr r => ∃ t, t ∈ nodes ∧ e = TeamNotFound (team.ID t) ∧
                      lacksTeam r (team.ID t)
      end.
Proof.
  induction nodes as [|t nodes IH]; intros v c tr Hnodes; simpl; [done|].
  rewrite bind_run.
  set (teamCfg := match Config.Teams c !! team.Name t with
                  | Some teamCfg => teamCfg
                  | None => newTeamCfg t
                  end).
  pose proof (membersLoop_fail tm fuel result t (team.Name t) e false teamCfg v c tr
                (λ _, Hnodes t ltac:(by left))) as Hm.
  destruct (membersLoop_emits tm isQuery fuel false result t (team.Name t) teamCfg v c
              ltac:(intros; apply isQuery_query) tr) as (n1 & E1 & F1).
  destruct (membersLoop tm fuel false result t (team.Name t) teamCfg v c tr)
    as [tr1 [[v1 c1]|err|]]; simpl in *; [| |done].
  - intros He.
    destruct (IH v1 c1 tr1 ltac:(intros t' Ht'; apply Hnodes; by right) He)
      as (earlier & v' & Ht & Hq & Hmatch).
    exists (n1 ++ earlier), v'.
    split; [by rewrite Ht, E1, <-!(assoc_L (++))|].
    split; [by apply Forall_app|].
    destruct (gqlQuery tm v'); [done|].
    destruct Hmatch as (t' & Ht' & H). exists t'. split; [by right|done].
  - intros [= <-]. destruct (Hm eq_refl) as (earlier & v' & Ht & Hq & Hmatch).
    exists earlier, v'. split; [done|]. split; [done|].
    destruct (gqlQuery tm v'); [done|]. exists t. split; [by left|done].
Qed.

Lemma teamsLoop_fail tm limit fuel e :
  ∀ requery result v c tr,
    (teamsLoop tm limit fuel requery result v c tr).2 = Fail e →
    ∃ earlier site v',
      (teamsLoop tm limit fuel requery result v c tr).1
        = tr ++ earlier ++ [EvQuery site v'] ∧
      Forall isQuery earlier ∧
      match gqlQuery tm v' with
      | inl err => e = Wrap (queryContext site) err
      | inr r =>
          site = QueryMembers ∧
          ∃ id, e = TeamNotFound id ∧ lacksTeam r id ∧
                ((requery = false ∧
                  ∃ t, t ∈ Teams.Nodes (queryResult.OrganizationTeams result) ∧
                       team.ID t = id) ∨
                 listedTeam tm earlier id)
      end.
Proof.
  induction fuel as [|fuel IH]; intros requery result v c tr; [done|].
  simpl. rewrite bind_run. destruct requery.
  - rewrite query_run. cbn [fst snd].
    destruct (gqlQuery tm v) as [err|page] eqn:Eq.
    + intros [= <-]. exists [], QueryTeams, v. by rewrite Eq.
    + rewrite bind_run.
      pose proof (teamNodesLoop_fail tm limit page e
                    (Teams.Nodes (queryResult.OrganizationTeams page)) v c
                    (tr ++ [EvQuery QueryTeams v])
                    (λ t Ht, find_listed _ t Ht)) as Hn.
      destruct (teamNodesLoop_emits tm isQuery limit page
                  (Teams.Nodes (queryResult.OrganizationTeams page)) v c
                  ltac:(intros; apply isQuery_query)
                  (tr ++ [EvQuery QueryTeams v])) as (n1 & E1 & F1).
      destruct (teamNodesLoop tm limit page _ v c _)
        as [tr1 [[v1 c1]|err|]]; simpl in *; [| |done].
      * destruct (negb _); [done|]. intros He.
        destruct (IH true _ _ _ _ He) as (earlier & site & v' & Ht & Hq & Hmatch).
        exists (EvQuery QueryTeams v :: n1 ++ earlier), site, v'.
        split; [rewrite Ht, E1; simpl; by rewrite <-!(assoc_L (++))|].
        split; [constructor; [apply isQuery_query|by apply Forall_app]|].
        destruct (gqlQuery tm v'); [done|].
        destruct Hmatch as (-> & id & -> & Hl & [[[=] _]|Hlist]).
        split; [done|]. exists id. split; [done|]. split; [done|]. right.
        eapply listedTeam_mono; [|exact Hlist].
        intros x Hx. right. apply elem_of_app. by right.
      * intros [= <-]. destruct (Hn eq_refl) as (earlier & v' & Ht & Hq & Hmatch).
        exists (EvQuery QueryTeams v :: earlier), QueryMembers, v'.
        split; [by rewrite Ht, <-!(assoc_L (++))|].
        split; [constructor; [apply isQuery_query|done]|].
        destruct (gqlQuery tm v'); [done|].
        destruct Hmatch as (tn & Hin & -> & Hl).
        split; [done|]. exists (team.ID tn). split; [done|]. split; [done|]. right.
        exists QueryTeams, v, page, tn. split; [by left|done].
  - assert (mret (M := M) (inr (A := error) result) tr = (tr, inr result)) as ->
      by done.
    cbn [fst snd]. rewrite bind_run.
    pose proof (teamNodesLoop_fail tm limit result e
                  (Teams.Nodes (queryResult.OrganizationTeams result)) v c tr
                  (λ t Ht, find_listed _ t Ht)) as Hn.
    destruct (teamNodesLoop_emits tm isQuery limit result
                (Teams.Nodes (queryResult.OrganizationTeams result)) v c
                ltac:(intros; apply isQuery_query) tr) as (n1 & E1 & F1).
    destruct (teamNodesLoop tm limit result _ v c _)
      as [tr1 [[v1 c1]|err|]]; simpl in *; [| |done].
    + destruct (negb _); [done|]. intros He.
      destruct (IH true _ _ _ _ He) as (earlier & site & v' & Ht & Hq & Hmatch).
      exists (n1 ++ earlier), site, v'.
      split; [by rewrite Ht, E1, <-!(assoc_L (++))|].
      split; [by apply Forall_app|].
      destruct (gqlQuery tm v'); [done|].
      destruct Hmatch as (-> & id & -> & Hl & [[[=] _]|Hlist]).
      split; [done|]. exists id. split; [done|]. split; [done|]. right.
      eapply listedTeam_mono; [|exact Hlist].
      intros x Hx. apply elem_of_app. by right.
    + intros [= <-]. destruct (Hn eq_refl) as (earlier & v' & Ht & Hq & Hmatch).
      exists earlier, QueryMembers, v'. split; [done|]. split; [done|].
      destruct (gqlQuery tm v'); [done|].
      destruct Hmatch as (tn & Hin & -> & Hl).
      split; [done|]. exists (team.ID tn). split; [done|]. split; [done|]. left.
      split; [done|]. by exists tn.
Qed.

(** X5. A fetch that fails stops at its last query, and the error tells
    which: when that query failed, the error is its error, wrapped with the
    context of the place that made it (the first query, a requery of
    teams, a requery of members); when it was answered, it is a requery of
    members whose response lacks a team that a team page of this fetch
    listed, and the error is that of [WithID] for the identifier of that
    team, as it is. *)
Theorem GetCurrentConfig_error_origin tm fuel tr (e : error) :
  (GetCurrentConfig tm fuel tr).2 = Fail e →
  ∃ earlier site v,
    (GetCurrentConfig tm fuel tr).1 = tr ++ earlier ++ [EvQuery site v] ∧
    Forall isQuery earlier ∧
    fetchError tm earlier site v e.
Proof.
  unfold GetCurrentConfig, fetchError. rewrite bind_run, query_run. cbn [fst snd].
  destruct (gqlQuery tm Vars.empty) as [err|result] eqn:Eq.
  - intros [= <-]. exists [], QueryInitial, Vars.empty. by rewrite Eq.
  - intros He.
    destruct (teamsLoop_fail tm fuel fuel e false result Vars.empty _ _ He)
      as (earlier & site & v' & Ht & Hq & Hmatch).
    exists (EvQuery QueryInitial Vars.empty :: earlier), site, v'.
    split; [by rewrite Ht, <-!(assoc_L (++))|].
    split; [constructor; [apply isQuery_query|done]|].
    destruct (gqlQuery tm v'); [done|].
    destruct Hmatch as (-> & id & -> & Hl & [[_ (tn & Hin & Hid)]|Hlist]).
    + split; [done|]. exists id. split; [done|]. split; [done|].
      exists QueryInitial, Vars.empty, result, tn. split; [by left|done].
    + split; [done|]. exists id. split; [done|]. split; [done|].
      eapply listedTeam_mono; [|exact Hlist]. intros x Hx. by right.
Qed.

Lemma GetCurrentConfig_error_origin_witness :
  ∃ earlier site v,
    (GetCurrentConfig Cases.vanishing 3 []).1 = [] ++ earlier ++ [EvQuery site v] ∧
    Forall isQuery earlier ∧
    fetchError Cases.vanishing earlier site v (TeamNotFound "T_ops").
Proof.
  apply (GetCurrentConfig_error_origin Cases.vanishing 3 []).
  vm_compute. reflexivity.
Defined.

(** ** [SyncTeams] when it cannot go on *)

Lemma GetCurrentConfig_isQuery tm fuel : emits isQuery (GetCurrentConfig tm fuel).
Proof. apply GetCurrentConfig_emits; intros; by eexists _, _. Qed.

(** X6. When the fetch of the remote state fails, [SyncTeams] returns that
    error and no configuration; it has only made queries: nothing is
    printed, asked or changed. *)
Theorem SyncTeams_fetch_failure_is_fatal tm rt fuel (localCfg : Config.t)
    (force dryRun : bool) tr (e : error) :
  (GetCurrentConfig tm fuel tr).2 = Fail e →
  let r := SyncTeams tm rt fuel localCfg force dryRun tr in
  r.2 = Fail e ∧ ∃ new, r.1 = tr ++ new ∧ Forall isQuery new.
Proof.
  intros He. unfold SyncTeams. rewrite bind_run, He. simpl.
  split; [done|]. apply GetCurrentConfig_isQuery.
Qed.

Lemma SyncTeams_fetch_failure_is_fatal_witness :
  let r := SyncTeams Cases.unreachable (Sample.runtime true orderedVisit) 3
             Sample.localCfg true false [] in
  r.2 = Fail (Wrap "failed to query github api" (RemoteError "unreachable")) ∧
  ∃ new, r.1 = [] ++ new ∧ Forall isQuery new.
Proof.
  apply (SyncTeams_fetch_failure_is_fatal Cases.unreachable
           (Sample.runtime true orderedVisit) 3 Sample.localCfg true false []).
  vm_compute. reflexivity.
Defined.

Lemma callsOf_app a b : callsOf (a ++ b) = callsOf a ++ callsOf b.
Proof. apply omap_app. Qed.

Lemma ask_run rt prompt tr :
  ask rt prompt tr = (tr ++ [EvAsk prompt], AskForConfirmation rt prompt).
Proof. unfold ask. by rewrite bind_run. Qed.

Lemma emit_run e tr : emit e tr = (tr ++ [e], tt).
Proof. done. Qed.

(** The first pass up to its prompt, when changes are pending and
    [force] is not set. *)
Lemma membershipPass_asks tm rt (P : Event → Prop) up cfg dryRun tr :
  (∀ o, P (EvPrint o)) →
  pendingChanges up cfg ≠ ∅ →
  ∃ new,
    Forall P new ∧
    membershipPass tm rt up cfg false dryRun tr =
    match AskForConfirmation rt "Continue?" with
    | inl err => (tr ++ new ++ [EvAsk "Continue?"], Fail err)
    | inr true =>
        let r := applyLoop tm rt dryRun
                   (rangeMap rt RangeChangesApply (pendingChanges up cfg)) cfg
                   (tr ++ new ++ [EvAsk "Continue?"]) in
        (r.1, Done r.2)
    | inr false => (tr ++ new ++ [EvAsk "Continue?"], Done cfg)
    end.
Proof.
  intros HP Hne. unfold membershipPass.
  rewrite bind_run, diffLoop_pendingChanges.
  destruct (diffLoop_emits P up (rangeMap rt RangeLocalTeams (Config.Teams cfg)) ∅
              ltac:(intros; apply HP) tr) as (n0 & E0 & F0). rewrite E0.
  assert ((size (pendingChanges up cfg) =? 0)%nat = false) as ->.
  { apply Nat.eqb_neq. by rewrite map_size_empty_iff. }
  cbn [negb]. rewrite bind_run, emit_run. cbn [fst snd]. rewrite bind_run.
  destruct (printChanges_emits P
              (rangeMap rt RangeChangesPrint (pendingChanges up cfg)) HP
              ((tr ++ n0) ++ [EvPrint GoingToSubmit])) as (n1 & E1 & F1).
  rewrite E1, bind_run. unfold confirm. rewrite ask_run. cbn [fst snd].
  exists (n0 ++ [EvPrint GoingToSubmit] ++ n1).
  split; [apply Forall_app; split; [done|]; constructor; [apply HP|done]|].
  replace ((((tr ++ n0) ++ [EvPrint GoingToSubmit]) ++ n1) ++ [EvAsk "Continue?"])
    with (tr ++ (n0 ++ [EvPrint GoingToSubmit] ++ n1) ++ [EvAsk "Continue?"])
    by (by rewrite <-!(assoc_L (++))).
  destruct (AskForConfirmation rt "Continue?") as [err|[]]; [done| |done].
  by rewrite bind_run.
Qed.

(** X7. Without [force], when changes are pending and the terminal fails
    to read the answer to the first prompt, [SyncTeams] returns the error
    of the terminal and no configuration. That prompt is the last thing it
    did: before it there is no mutation call and no other prompt. *)
Theorem SyncTeams_prompt_failure_is_fatal tm rt fuel
    (localCfg upstreamCfg : Config.t) (dryRun : bool) tr (e : error) :
  (GetCurrentConfig tm fuel tr).2 = Done upstreamCfg →
  pendingChanges upstreamCfg localCfg ≠ ∅ →
  AskForConfirmation rt "Continue?" = inl e →
  let r := SyncTeams tm rt fuel localCfg false dryRun tr in
  r.2 = Fail e ∧
  ∃ new, r.1 = tr ++ new ++ [EvAsk "Continue?"] ∧
         Forall (λ ev, notCall ev ∧ notAsk ev) new.
Proof.
  intros Hup Hne Hask. cbv zeta. unfold SyncTeams. rewrite bind_run, Hup, bind_run.
  destruct (GetCurrentConfig_emits tm (λ ev, notCall ev ∧ notAsk ev) fuel
              ltac:(done) ltac:(done) ltac:(done) tr) as (n0 & E0 & F0).
  rewrite E0.
  destruct (membershipPass_asks tm rt (λ ev, notCall ev ∧ notAsk ev)
              upstreamCfg localCfg dryRun (tr ++ n0) ltac:(done) Hne)
    as (n1 & F1 & ->).
  rewrite Hask. cbn [fst snd]. split; [done|].
  exists (n0 ++ n1). split; [by rewrite <-!(assoc_L (++))|]. by apply Forall_app.
Qed.

Lemma SyncTeams_prompt_failure_is_fatal_witness :
  let r := SyncTeams Sample.manager Cases.brokenTerminal 5 Sample.localCfg
             false false [] in
  r.2 = Fail (RemoteError "no terminal") ∧
  ∃ new, r.1 = [] ++ new ++ [EvAsk "Continue?"] ∧
         Forall (λ ev, notCall ev ∧ notAsk ev) new.
Proof.
  apply (SyncTeams_prompt_failure_is_fatal Sample.manager Cases.brokenTerminal 5
           Sample.localCfg Sample.upstreamCfg false [] (RemoteError "no terminal")).
  - vm_compute. reflexivity.
  - intros H. apply (f_equal (λ m, m !! "ops")) in H. vm_compute in H. discriminate H.
  - reflexivity.
Defined.

(** X24. Without [force], when the first pass goes through (nothing is
    pending, or the first prompt is answered) and the terminal fails to
    read the answer to the second prompt, [SyncTeams] returns the error of
    the terminal and no configuration, after the whole first pass: its
    trace is that of the fetch, then that of the membership pass, then the
    prompt. What the first pass has submitted stays submitted, and no
    review assignment is updated. *)
Theorem SyncTeams_review_prompt_failure tm rt fuel
    (localCfg upstreamCfg : Config.t) (dryRun : bool) tr (e : error) :
  (GetCurrentConfig tm fuel tr).2 = Done upstreamCfg →
  pendingChanges upstreamCfg localCfg = ∅ ∨
    (∃ yes, AskForConfirmation rt "Continue?" = inr yes) →
  AskForConfirmation rt "Do you want to update CodeReviewAssignments?" = inl e →
  let r := SyncTeams tm rt fuel localCfg false dryRun tr in
  let fetched := (GetCurrentConfig tm fuel tr).1 in
  let passed := (membershipPass tm rt upstreamCfg localCfg false dryRun fetched).1 in
  r.2 = Fail e ∧
  r.1 = passed ++ [EvAsk "Do you want to update CodeReviewAssignments?"] ∧
  tr `prefix_of` fetched ∧ fetched `prefix_of` passed ∧
  callsOf r.1 = callsOf passed.
Proof.
  intros Hup Hpass Hask. cbv zeta. unfold SyncTeams.
  rewrite bind_run, Hup, bind_run.
  destruct (membershipPass_result tm rt upstreamCfg localCfg false dryRun
              (GetCurrentConfig tm fuel tr).1) as [tr' E].
  assert (∃ c, (membershipPass tm rt upstreamCfg localCfg false dryRun
                  (GetCurrentConfig tm fuel tr).1).2 = Done c) as [c Hc].
  { rewrite E. destruct Hpass as [->|[yes ->]].
    - rewrite map_size_empty. by eexists.
    - destruct (size _ =? 0)%nat; [by eexists|]. destruct yes; by eexists. }
  rewrite Hc. unfold reviewPass, confirm. rewrite bind_run, ask_run, Hask.
  cbn [fst snd]. split; [done|]. split; [done|].
  split; [apply emits_prefix, GetCurrentConfig_emits; done|].
  split.
  - apply emits_prefix.
    apply membershipPass_emits; done.
  - unfold mret, M_ret. cbn [fst snd]. rewrite callsOf_app. simpl. by rewrite app_nil_r.
Qed.

Lemma SyncTeams_review_prompt_failure_witness :
  let r := SyncTeams Sample.manager Cases.hangsUp 5 Sample.localCfg false false [] in
  let fetched := (GetCurrentConfig Sample.manager 5 []).1 in
  let passed := (membershipPass Sample.manager Cases.hangsUp Sample.upstreamCfg
                   Sample.localCfg false false fetched).1 in
  r.2 = Fail (RemoteError "no terminal") ∧
  r.1 = passed ++ [EvAsk "Do you want to update CodeReviewAssignments?"] ∧
  [] `prefix_of` fetched ∧ fetched `prefix_of` passed ∧
  callsOf r.1 = callsOf passed.
Proof.
  apply (SyncTeams_review_prompt_failure Sample.manager Cases.hangsUp 5
           Sample.localCfg Sample.upstreamCfg false [] (RemoteError "no terminal")).
  - vm_compute. reflexivity.
  - right. exists true. reflexivity.
  - reflexivity.
Defined.

(** The run of the witness: the membership calls are made, then the prompt
    fails. *)
Example membership_calls_precede_the_failing_prompt :
  let r := SyncTeams Sample.manager Cases.hangsUp 5 Sample.localCfg false false [] in
  r.2 = Fail (RemoteError "no terminal") ∧
  callsOf r.1 =
    [AddTeamMembershipBySlug "acme" "ops" "a" "member";
     RemoveTeamMembershipBySlug "acme" "ops" "c";
     AddTeamMembershipBySlug "acme" "qa" "e" "member"].
Proof. vm_compute. done. Qed.

(** ** The calls of [SyncTeamMembers] *)

Lemma callsOf_notCall new : Forall notCall new → callsOf new = [].
Proof.
  induction 1 as [|e new He _ IH]; [done|].
  destruct e; try exact IH. discriminate He.
Qed.

Lemma callsSucceed_app tm tr a b :
  callsSucceed tm tr (a ++ b) ↔ callsSucceed tm tr a ∧ callsSucceed tm (tr ++ a) b.
Proof.
  revert tr. induction a as [|e a IH]; intros tr; simpl.
  - rewrite app_nil_r. tauto.
  - rewrite IH, <-(assoc_L (++)). simpl. tauto.
Qed.

Lemma addMembers_calls tm rt name l tr :
  let r := addMembers tm rt name l tr in
  let calls := (λ user, AddTeamMembershipBySlug (owner tm) (slug rt name) user "member") <$> l in
  ∃ new, r.1 = tr ++ new ∧ callsOf new `prefix_of` calls ∧
    match r.2 with
    | None => callsOf new = calls ∧ callsSucceed tm tr new
    | Some err => ∃ pre c, new = pre ++ [EvCall c] ∧ callsSucceed tm tr pre ∧
                    remoteCall tm (tr ++ pre) c = Some err
    end.
Proof.
  revert tr. induction l as [|u l IH]; intros tr; simpl.
  - exists []. by rewrite app_nil_r.
  - rewrite !bind_run. simpl.
    destruct (remoteCall tm (tr ++ [EvPrint (AddingMember u name)]) _) as [err|] eqn:E.
    + unfold mret, M_ret. simpl. eexists (_ :: _ :: []). rewrite <-(assoc_L (++)).
      split; [done|]. split; [simpl; apply prefix_cons, prefix_nil|].
      eexists (_ :: []), _. split; [done|]. split; [done|exact E].
    + destruct (IH ((tr ++ [EvPrint (AddingMember u name)]) ++
                    [EvCall (AddTeamMembershipBySlug (owner tm) (slug rt name) u "member")]))
        as (new & Hn & Hp & Hr).
      eexists (_ :: _ :: new). split; [by rewrite Hn, <-!(assoc_L (++))|].
      split; [simpl; by apply prefix_cons|].
      destruct (addMembers tm rt name l _).2 as [err|].
      * destruct Hr as (pre & c & -> & Hs & Hf).
        eexists (_ :: _ :: pre), c. split; [done|]. split; [simpl; tauto|].
        by rewrite <-!(assoc_L (++)) in Hf.
      * destruct Hr as [Hc Hs]. split; [simpl; by f_equal|]. simpl. tauto.
Qed.

Lemma removeMembers_calls tm rt name l tr :
  let r := removeMembers tm rt name l tr in
  let calls := (λ user, RemoveTeamMembershipBySlug (owner tm) (slug rt name) user) <$> l in
  ∃ new, r.1 = tr ++ new ∧ callsOf new `prefix_of` calls ∧
    match r.2 with
    | None => callsOf new = calls ∧ callsSucceed tm tr new
    | Some err => ∃ pre c, new = pre ++ [EvCall c] ∧ callsSucceed tm tr pre ∧
                    remoteCall tm (tr ++ pre) c = Some err
    end.
Proof.
  revert tr. induction l as [|u l IH]; intros tr; simpl.
  - exists []. by rewrite app_nil_r.
  - rewrite !bind_run. simpl.
    destruct (remoteCall tm (tr ++ [EvPrint (RemovingMember u name)]) _) as [err|] eqn:E.
    + unfold mret, M_ret. simpl. eexists (_ :: _ :: []). rewrite <-(assoc_L (++)).
      split; [done|]. split; [simpl; apply prefix_cons, prefix_nil|].
      eexists (_ :: []), _. split; [done|]. split; [done|exact E].
    + destruct (IH ((tr ++ [EvPrint (RemovingMember u name)]) ++
                    [EvCall (RemoveTeamMembershipBySlug (owner tm) (slug rt name) u)]))
        as (new & Hn & Hp & Hr).
      eexists (_ :: _ :: new). split; [by rewrite Hn, <-!(assoc_L (++))|].
      split; [simpl; by apply prefix_cons|].
      destruct (removeMembers tm rt name l _).2 as [err|].
      * destruct Hr as (pre & c & -> & Hs & Hf).
        eexists (_ :: _ :: pre), c. split; [done|]. split; [simpl; tauto|].
        by rewrite <-!(assoc_L (++)) in Hf.
      * destruct Hr as [Hc Hs]. split; [simpl; by f_equal|]. simpl. tauto.
Qed.

(** X8. [SyncTeamMembers] makes its calls in order, one add per login to
    add and then one remove per login to remove, for the slug of the team
    name. When it returns nil, it has made them all and each succeeded.
    When it returns an error, every call before the last succeeded, the
    last call failed when it was made, its error is the one returned, and
    the calls after it were not made. *)
Theorem SyncTeamMembers_adds_then_removes tm rt (teamName : string)
    (add remove : list string) tr :
  let r := SyncTeamMembers tm rt teamName add remove tr in
  ∃ new, r.1 = tr ++ new ∧
    callsOf new `prefix_of` memberCalls tm rt teamName add remove ∧
    match r.2 with
    | None => callsOf new = memberCalls tm rt teamName add remove ∧
              callsSucceed tm tr new
    | Some err => ∃ pre c, new = pre ++ [EvCall c] ∧ callsSucceed tm tr pre ∧
                    remoteCall tm (tr ++ pre) c = Some err
    end.
Proof.
  unfold SyncTeamMembers, memberCalls. simpl. rewrite bind_run.
  destruct (addMembers_calls tm rt teamName add tr) as (n1 & E1 & P1 & H1).
  destruct (addMembers tm rt teamName add tr) as [tr1 [err|]]; simpl in *.
  - exists n1. split; [done|]. split; [by apply prefix_app_r|done].
  - destruct H1 as [H1 S1].
    destruct (removeMembers_calls tm rt teamName remove tr1) as (n2 & E2 & P2 & H2).
    destruct (removeMembers tm rt teamName remove tr1) as [tr2 [err|]]; simpl in *.
    + exists (n1 ++ n2). rewrite E2, E1, <-(assoc_L (++)). split; [done|].
      rewrite callsOf_app, H1. split; [by apply prefix_app|].
      destruct H2 as (pre & c & -> & Hs & Hf). subst tr1.
      exists (n1 ++ pre), c. rewrite <-!(assoc_L (++)). split; [done|].
      rewrite callsSucceed_app. rewrite <-(assoc_L (++)) in Hf. done.
    + exists (n1 ++ n2). rewrite E2, E1, <-(assoc_L (++)). split; [done|].
      destruct H2 as [H2 S2]. subst tr1.
      rewrite callsOf_app, H1, H2. split; [done|]. split; [done|].
      by rewrite callsSucceed_app.
Qed.

(** A run in which the second call fails: the first add is made, the
    second is made and fails, and nothing is removed. *)
Example SyncTeamMembers_stops_at_the_failing_call :
  let tm := {| owner := "acme"; gqlQuery := Remote.serve Sample.org;
               remoteCall := λ _ c,
                 match c with
                 | AddTeamMembershipBySlug _ _ "b" _ => Some (RemoteError "forbidden")
                 | _ => None
                 end |} in
  let r := SyncTeamMembers tm (Sample.runtime true orderedVisit) "ops"
             ["a"; "b"; "c"] ["d"] [] in
  r.2 = Some (RemoteError "forbidden") ∧
  callsOf r.1 = [AddTeamMembershipBySlug "acme" "ops" "a" "member";
                 AddTeamMembershipBySlug "acme" "ops" "b" "member"].
Proof. vm_compute. done. Qed.

(** ** [force] and the prompts *)

Lemma membershipPass_forced_emits tm rt (P : Event → Prop) up cfg dryRun :
  (∀ o, P (EvPrint o)) → (∀ d, P (EvStderr d)) → (∀ c, P (EvCall c)) →
  emits P (membershipPass tm rt up cfg true dryRun).
Proof.
  intros H1 H2 H3. unfold membershipPass.
  apply emits_bind; [by apply diffLoop_emits|]. intros changes.
  destruct (negb _); [|apply emits_ret].
  apply emits_bind; [by apply emits_emit|intros _].
  apply emits_bind; [by apply printChanges_emits|intros _].
  apply emits_bind; [apply emits_ret|]. intros [err|[]]; try apply emits_ret.
  apply emits_bind; [by apply applyLoop_emits|]. intros c. apply emits_ret.
Qed.

Lemma reviewPass_forced_emits tm rt (P : Event → Prop) cfg dryRun :
  (∀ o, P (EvPrint o)) → (∀ d, P (EvStderr d)) → (∀ c, P (EvCall c)) →
  emits P (reviewPass tm rt cfg true dryRun).
Proof.
  intros H1 H2 H3. unfold reviewPass.
  apply emits_bind; [apply emits_ret|]. intros [err|[]]; try apply emits_ret.
  apply emits_bind; [by apply reviewLoop_emits|]. intros _. apply emits_ret.
Qed.

(** X9. With [force], [SyncTeams] asks nothing: there is no prompt in its
    trace. *)
Theorem SyncTeams_force_asks_nothing tm rt fuel (localCfg : Config.t)
    (dryRun : bool) tr :
  ∃ new, (SyncTeams tm rt fuel localCfg true dryRun tr).1 = tr ++ new ∧
         Forall notAsk new.
Proof.
  assert (emits notAsk (SyncTeams tm rt fuel localCfg true dryRun)) as H; [|apply H].
  unfold SyncTeams.
  apply emits_bind; [by apply GetCurrentConfig_emits|].
  intros [up|err|]; [|apply emits_ret..].
  apply emits_bind; [by apply membershipPass_forced_emits|].
  intros [c|err|]; [|apply emits_ret..].
  by apply reviewPass_forced_emits.
Qed.

(** ** The review pass *)

Lemma excludeTeamMembers_result name members exc s tr tr' :
  (excludeTeamMembers name members exc s tr).2 =
  (excludeTeamMembers name members exc s tr').2.
Proof.
  revert s tr tr'. induction exc as [|m exc IH]; intros s tr tr'; simpl; [done|].
  destruct (members !! ExcludedMember.Login m); [apply IH|].
  rewrite !bind_run. apply IH.
Qed.

Lemma getExcludedUsers_result rt name members exc excAll tr :
  (getExcludedUsers rt name members exc excAll tr).2 =
  (getExcludedUsers rt name members exc excAll []).2.
Proof.
  unfold getExcludedUsers. rewrite !bind_run. simpl.
  by rewrite (excludeTeamMembers_result name members (elems exc) ∅ tr []).
Qed.

Lemma syncReviewAssignment_calls tm rt cfg name tr :
  ∃ new, (syncReviewAssignment tm rt false cfg name tr).1 = tr ++ new ∧
         callsOf new = [UpdateTeamReviewAssignment (reviewInput rt cfg name)].
Proof.
  unfold syncReviewAssignment. rewrite !bind_run. simpl.
  rewrite getExcludedUsers_result.
  destruct (getExcludedUsers_emits rt notCall name (Config.Members cfg)
              (CodeReviewAssignment.ExcludedMembers (TeamConfig.CRA (Config.team cfg name)))
              (Config.ExcludeCRAFromAllTeams cfg)) with (tr := tr)
    as (n1 & E1 & F1); [done|].
  rewrite E1. unfold SyncTeamReviewAssignment, call. simpl.
  rewrite bind_run. simpl.
  destruct (remoteCall tm _ _) as [err|]; simpl.
  - eexists (n1 ++ _ :: _ :: _ :: []). rewrite <-!(assoc_L (++)). split; [done|].
    rewrite callsOf_app, callsOf_notCall by done. done.
  - eexists (n1 ++ _ :: _ :: []). rewrite <-!(assoc_L (++)). split; [done|].
    rewrite callsOf_app, callsOf_notCall by done. done.
Qed.

Lemma reviewLoop_calls tm rt cfg names tr :
  ∃ new, (reviewLoop tm rt false cfg names tr).1 = tr ++ new ∧
         callsOf new = (λ name, UpdateTeamReviewAssignment (reviewInput rt cfg name)) <$> names.
Proof.
  revert tr. induction names as [|n names IH]; intros tr; simpl.
  - exists []. by rewrite app_nil_r.
  - rewrite bind_run.
    destruct (syncReviewAssignment_calls tm rt cfg n tr) as (n1 & E1 & C1).
    destruct (IH (syncReviewAssignment tm rt false cfg n tr).1) as (n2 & E2 & C2).
    exists (n1 ++ n2). rewrite E2, E1, <-(assoc_L (++)). split; [done|].
    by rewrite callsOf_app, C1, C2.
Qed.

(** X10. When the update of the review assignments is confirmed, or forced,
    and the run is not a dry run, the second pass submits exactly one
    update per team of the local configuration, in the order of the team
    names, each with the identifier of the team, the algorithm and the
    flags of its review assignment, its member count converted to [int32],
    and its resolved exclusions; a failing update does not stop the
    others, and the pass returns the configuration without error. *)
Theorem reviewPass_updates_every_team_in_name_order tm rt (localCfg : Config.t)
    (force : bool) tr :
  force = true ∨
    AskForConfirmation rt "Do you want to update CodeReviewAssignments?" = inr true →
  let r := reviewPass tm rt localCfg force false tr in
  ∃ new teamNames,
    r.1 = tr ++ new ∧ r.2 = Done localCfg ∧
    callsOf new =
      (λ name, UpdateTeamReviewAssignment (reviewInput rt localCfg name)) <$> teamNames ∧
    Sorted strLe teamNames ∧
    teamNames ≡ₚ elements (dom (Config.Teams localCfg)).
Proof.
  intros Hyes. simpl.
  set (names := sortStrings (rangeKeys rt RangeTeamNames (Config.Teams localCfg))).
  destruct (confirm_emits rt notCall force
              "Do you want to update CodeReviewAssignments?") with (tr := tr)
    as (n1 & E1 & F1); [done|].
  assert ((confirm rt force "Do you want to update CodeReviewAssignments?" tr).2
          = inr true) as Hc.
  { rewrite confirm_result. destruct Hyes as [->|H]; [done|].
    rewrite H. by destruct force. }
  destruct (reviewLoop_calls tm rt localCfg names
              (confirm rt force "Do you want to update CodeReviewAssignments?" tr).1)
    as (n2 & E2 & C2).
  exists (n1 ++ n2), names. unfold reviewPass. rewrite bind_run, Hc, bind_run.
  fold names. simpl. rewrite E2, E1, <-(assoc_L (++)).
  split; [done|]. split; [done|].
  split; [by rewrite callsOf_app, callsOf_notCall, C2|].
  split; [apply sortStrings_sorted|].
  unfold names. rewrite sortStrings_perm. apply rangeSet_perm.
Qed.

Lemma reviewPass_updates_every_team_in_name_order_witness :
  let r := reviewPass Cases.failingReview (Sample.runtime true reversedVisit)
             Sample.localCfg false false [] in
  ∃ new teamNames,
    r.1 = [] ++ new ∧ r.2 = Done Sample.localCfg ∧
    callsOf new =
      (λ name, UpdateTeamReviewAssignment
                 (reviewInput (Sample.runtime true reversedVisit) Sample.localCfg name))
        <$> teamNames ∧
    Sorted strLe teamNames ∧
    teamNames ≡ₚ elements (dom (Config.Teams Sample.localCfg)).
Proof.
  apply (reviewPass_updates_every_team_in_name_order Cases.failingReview
           (Sample.runtime true reversedVisit) Sample.localCfg false []).
  right. reflexivity.
Defined.

(** The member count of the input is an [int32]: a count of 2^32 + 1 in the
    configuration is submitted as 1. *)
Example review_count_is_converted_to_int32 :
  callsOf (reviewPass Sample.manager (Sample.runtime true orderedVisit)
             Cases.wideCount true false []).1 =
  [UpdateTeamReviewAssignment
     {| UpdateTeamReviewAssignmentInput.ID := Some "T_big";
        UpdateTeamReviewAssignmentInput.Algorithm := "ROUND_ROBIN";
        UpdateTeamReviewAssignmentInput.Enabled := true;
        UpdateTeamReviewAssignmentInput.ExcludedTeamMemberIDs := [];
        UpdateTeamReviewAssignmentInput.NotifyTeam := false;
        UpdateTeamReviewAssignmentInput.TeamMemberCount := 1 |}].
Proof. vm_compute. reflexivity. Qed.

(** ** The membership pass and the diff *)

Lemma NotIn_subseteq a b : (∀ x, x ∈ elems a → x ∈ elems b) → NotIn a b = [].
Proof.
  intros H. apply elem_of_nil_inv. intros x. rewrite NotIn_elem.
  intros [Ha Hb]. by apply Hb, H.
Qed.

Lemma pendingChange_same_members localTeam upstreamTeam :
  (∀ x, x ∈ elems (TeamConfig.Members localTeam) ↔
        x ∈ elems (TeamConfig.Members upstreamTeam)) →
  pendingChange localTeam upstreamTeam = None.
Proof.
  intros H. unfold pendingChange. case_decide; [done|]. unfold changeOf. simpl.
  rewrite !NotIn_subseteq; [done|intros x; apply H..].
Qed.

(** X11. When every team of the local configuration has the same set of
    members as its remote counterpart, in whatever order and whatever the
    other fields, the membership pass has nothing to submit: it asks
    nothing, calls nothing, prints at most that a team is out of sync, and
    returns the configuration as it is. *)
Theorem membershipPass_nothing_to_submit tm rt (upstreamCfg localCfg : Config.t)
    (force dryRun : bool) tr :
  (∀ name localTeam, Config.Teams localCfg !! name = Some localTeam →
     ∀ x, x ∈ elems (TeamConfig.Members localTeam) ↔
          x ∈ elems (TeamConfig.Members (Config.team upstreamCfg name))) →
  let r := membershipPass tm rt upstreamCfg localCfg force dryRun tr in
  r.2 = Done localCfg ∧
  ∃ new, r.1 = tr ++ new ∧
         Forall (λ e, ∃ name a b, e = EvPrint (OutOfSync name a b)) new.
Proof.
  intros Hsame.
  assert (pendingChanges upstreamCfg localCfg = ∅) as Hp.
  { apply map_eq. intros name. unfold pendingChanges.
    rewrite map_lookup_imap, lookup_empty.
    destruct (Config.Teams localCfg !! name) as [lt|] eqn:E; [|done]. simpl.
    apply pendingChange_same_members. by apply Hsame. }
  simpl. unfold membershipPass. rewrite bind_run, diffLoop_pendingChanges, Hp.
  rewrite map_size_empty. simpl. split; [done|].
  apply diffLoop_emits. intros n a b. by exists n, a, b.
Qed.

Lemma membershipPass_nothing_to_submit_witness :
  let r := membershipPass Sample.manager (Sample.runtime true orderedVisit)
             Sample.upstreamCfg
             {| Config.Organization := "acme";
                Config.Teams := {[ "ops" := Sample.teamConfig "T_ops" (Some ["c"; "b"; "c"])
                                             (Some [ {| ExcludedMember.Login := "b" |} ]) ]};
                Config.Members := ∅; Config.ExcludeCRAFromAllTeams := None |}
             false false [] in
  r.2 = Done {| Config.Organization := "acme";
                Config.Teams := {[ "ops" := Sample.teamConfig "T_ops" (Some ["c"; "b"; "c"])
                                             (Some [ {| ExcludedMember.Login := "b" |} ]) ]};
                Config.Members := ∅; Config.ExcludeCRAFromAllTeams := None |} ∧
  ∃ new, r.1 = [] ++ new ∧
         Forall (λ e, ∃ name a b, e = EvPrint (OutOfSync name a b)) new.
Proof.
  apply (membershipPass_nothing_to_submit Sample.manager
           (Sample.runtime true orderedVisit) Sample.upstreamCfg _ false false []).
  intros name localTeam. simpl.
  destruct (decide (name = "ops")) as [->|Hne].
  - rewrite lookup_singleton_eq. intros [= <-] x.
    change (x ∈ ["c"; "b"; "c"] ↔ x ∈ ["b"; "c"]).
    rewrite !elem_of_cons, !elem_of_nil. tauto.
  - rewrite lookup_singleton_ne by done. discriminate.
Defined.

Lemma pendingChange_Some localTeam upstreamTeam change :
  pendingChange localTeam upstreamTeam = Some change →
  add change = NotIn (TeamConfig.Members localTeam) (TeamConfig.Members upstreamTeam) ∧
  remove change = NotIn (TeamConfig.Members upstreamTeam) (TeamConfig.Members localTeam).
Proof.
  unfold pendingChange, changeOf. case_decide; [done|]. simpl.
  destruct (_ || _); [|done]. by intros [= <-].
Qed.

Lemma pendingChanges_lookup up cfg name change :
  pendingChanges up cfg !! name = Some change →
  ∃ localTeam, Config.Teams cfg !! name = Some localTeam ∧
               pendingChange localTeam (Config.team up name) = Some change.
Proof.
  unfold pendingChanges. rewrite map_lookup_imap.
  destruct (Config.Teams cfg !! name) as [lt|]; [|done]. simpl. eauto.
Qed.

Lemma addMembers_emits_in tm rt (P : Event → Prop) name l :
  (∀ o, P (EvPrint o)) →
  (∀ u, u ∈ l →
        P (EvCall (AddTeamMembershipBySlug (owner tm) (slug rt name) u "member"))) →
  emits P (addMembers tm rt name l).
Proof.
  intros H1. induction l as [|u l IH]; intros H2; simpl; [apply emits_ret|].
  apply emits_bind; [by apply emits_emit|]. intros _.
  apply emits_bind; [apply call_emits, H2; by left|].
  intros []; [apply emits_ret|]. apply IH. intros u' Hu. apply H2. by right.
Qed.

Lemma removeMembers_emits_in tm rt (P : Event → Prop) name l :
  (∀ o, P (EvPrint o)) →
  (∀ u, u ∈ l →
        P (EvCall (RemoveTeamMembershipBySlug (owner tm) (slug rt name) u))) →
  emits P (removeMembers tm rt name l).
Proof.
  intros H1. induction l as [|u l IH]; intros H2; simpl; [apply emits_ret|].
  apply emits_bind; [by apply emits_emit|]. intros _.
  apply emits_bind; [apply call_emits, H2; by left|].
  intros []; [apply emits_ret|]. apply IH. intros u' Hu. apply H2. by right.
Qed.

Lemma applyLoop_emits_in tm rt (P : Event → Prop) dryRun l cfg :
  (∀ o, P (EvPrint o)) → (∀ d, P (EvStderr d)) →
  (∀ name change u, (name, change) ∈ l → u ∈ add change →
     P (EvCall (AddTeamMembershipBySlug (owner tm) (slug rt name) u "member"))) →
  (∀ name change u, (name, change) ∈ l → u ∈ remove change →
     P (EvCall (RemoveTeamMembershipBySlug (owner tm) (slug rt name) u))) →
  emits P (applyLoop tm rt dryRun l cfg).
Proof.
  intros H1 H2. revert cfg.
  induction l as [|[name change] l IH]; intros cfg H3 H4; simpl; [apply emits_ret|].
  apply emits_bind.
  - unfold applyChange. apply emits_bind.
    + destruct dryRun; simpl; [apply emits_ret|]. unfold SyncTeamMembers.
      apply emits_bind.
      * apply addMembers_emits_in; [done|]. intros u Hu. eapply H3; [by left|done].
      * intros []; [apply emits_ret|].
        apply removeMembers_emits_in; [done|]. intros u Hu. eapply H4; [by left|done].
    + intros []; [|apply emits_ret].
      apply emits_bind; [by apply emits_emit|intros; apply emits_ret].
  - intros c. apply IH.
    + intros n ch u Hin. apply H3. by right.
    + intros n ch u Hin. apply H4. by right.
Qed.

(** X12. Every mutation call of the membership pass is asked for by the
    diff: it adds to a team of the local configuration a member that the
    local team has and the remote team has not, or removes from it a member
    that the remote team has and the local team has not. *)
Theorem membershipPass_calls_only_the_diff tm rt (upstreamCfg localCfg : Config.t)
    (force dryRun : bool) tr :
  ∃ new, (membershipPass tm rt upstreamCfg localCfg force dryRun tr).1 = tr ++ new ∧
         ∀ c, c ∈ callsOf new → diffCall tm rt upstreamCfg localCfg c.
Proof.
  set (P := λ e, ∀ c, e = EvCall c → diffCall tm rt upstreamCfg localCfg c).
  assert (∃ new, (membershipPass tm rt upstreamCfg localCfg force dryRun tr).1
                 = tr ++ new ∧ Forall P new) as (new & Hn & Hall).
  { unfold membershipPass. rewrite bind_run, diffLoop_pendingChanges.
    destruct (diffLoop_emits P upstreamCfg
                (rangeMap rt RangeLocalTeams (Config.Teams localCfg)) ∅)
      with (tr := tr) as (n0 & E0 & F0); [by intros n a b c|].
    rewrite E0.
    assert (emits P
      (if negb (size (pendingChanges upstreamCfg localCfg) =? 0)%nat then
         emit (EvPrint GoingToSubmit);;
         printChanges (rangeMap rt RangeChangesPrint (pendingChanges upstreamCfg localCfg));;
         yes ← confirm rt force "Continue?";
         match yes with
         | inl err => mret (Fail err)
         | inr true =>
             localCfg' ← applyLoop tm rt dryRun
               (rangeMap rt RangeChangesApply (pendingChanges upstreamCfg localCfg))
               localCfg;
             mret (Done localCfg')
         | inr false => mret (Done localCfg)
         end
       else mret (Done localCfg))) as Hk.
    { destruct (negb _); [|apply emits_ret].
      apply emits_bind; [by apply emits_emit|intros _].
      apply emits_bind; [by apply printChanges_emits|intros _].
      apply emits_bind; [by apply confirm_emits|].
      intros [err|[]]; try apply emits_ret.
      apply emits_bind; [|intros; apply emits_ret].
      apply applyLoop_emits_in; try done.
      - intros name change u Hin Hu c [= <-].
        apply elem_of_rangeMap, pendingChanges_lookup in Hin as (lt & Hlt & Hp).
        apply pendingChange_Some in Hp as [Ha _]. rewrite Ha in Hu.
        apply NotIn_elem in Hu as [Hu1 Hu2].
        exists name, lt, u. split; [done|]. left. by split.
      - intros name change u Hin Hu c [= <-].
        apply elem_of_rangeMap, pendingChanges_lookup in Hin as (lt & Hlt & Hp).
        apply pendingChange_Some in Hp as [_ Hr]. rewrite Hr in Hu.
        apply NotIn_elem in Hu as [Hu1 Hu2].
        exists name, lt, u. split; [done|]. right. by split. }
    destruct (Hk (tr ++ n0)) as (n1 & E1 & F1).
    exists (n0 ++ n1). rewrite E1, <-(assoc_L (++)). split; [done|].
    by apply Forall_app. }
  exists new. split; [done|]. intros c Hc.
  unfold callsOf in Hc. apply list_elem_of_omap in Hc as (e & He & Hec).
  destruct e; try done. injection Hec as ->.
  eapply Forall_forall in Hall; [|exact He]. by apply Hall.
Qed.

(** ** What [SyncTeams] leaves of the local configuration *)

Lemma sameMemberSet_refl a : sameMemberSet a a.
Proof. split; [apply sameButMembers_refl|done]. Qed.

Lemma option_sameMemberSet_refl (o : option TeamConfig.t) :
  option_Forall2 sameMemberSet o o.
Proof. destruct o; constructor. apply sameMemberSet_refl. Qed.

(** The rebuilt member list of a team with a pending change has the
    members of the local team. *)
Lemma updateMembers_sameMemberSet rt up cfg name change :
  pendingChanges up cfg !! name = Some change →
  option_Forall2 sameMemberSet (Config.Teams cfg !! name)
    (Config.Teams (updateMembers rt cfg name change) !! name).
Proof.
  intros (lt & Hlt & Hp)%pendingChanges_lookup.
  apply pendingChange_Some in Hp as [Ha Hr].
  rewrite updateMembers_lookup, Hlt. constructor.
  unfold Config.team. rewrite Hlt. simpl. split; [done|]. intros x. simpl.
  rewrite elem_of_rangeSet, memberSet_elem, Ha, Hr, !NotIn_elem. simpl.
  destruct (decide (x ∈ elems (TeamConfig.Members lt))); tauto.
Qed.

Lemma applyLoop_sameMemberSet tm rt dryRun up cfg tr name :
  option_Forall2 sameMemberSet (Config.Teams cfg !! name)
    (Config.Teams
       (applyLoop tm rt dryRun
          (rangeMap rt RangeChangesApply (pendingChanges up cfg)) cfg tr).2 !! name).
Proof.
  destruct (pendingChanges up cfg !! name) as [change|] eqn:E.
  - destruct (applyLoop_team tm rt dryRun
                (rangeMap rt RangeChangesApply (pendingChanges up cfg)) cfg tr
                name change) as (tr0 & _ & _ & H).
    { apply rangeMap_NoDup. }
    { by apply elem_of_rangeMap. }
    simpl in H. destruct (attempt tm rt dryRun name change tr0).2.
    + destruct H as [_ ->]. apply option_sameMemberSet_refl.
    + rewrite H. by eapply updateMembers_sameMemberSet.
  - rewrite applyLoop_other; [apply option_sameMemberSet_refl|].
    rewrite rangeMap_fst. intros Hn%elem_of_rangeKeys. rewrite E in Hn.
    by destruct Hn.
Qed.

(** X13. A configuration that [SyncTeams] returns is the local
    configuration up to the member lists: the organization, the member
    directory and the exclusions are the same, and so are the teams, each
    with the same identifier, the same review assignment and the same set
    of members. Applying the changes never changes who is in a local
    team. *)
Theorem SyncTeams_keeps_local_member_sets tm rt fuel (localCfg cfg' : Config.t)
    (force dryRun : bool) tr :
  (SyncTeams tm rt fuel localCfg force dryRun tr).2 = Done cfg' →
  Config.Organization cfg' = Config.Organization localCfg ∧
  Config.Members cfg' = Config.Members localCfg ∧
  Config.ExcludeCRAFromAllTeams cfg' = Config.ExcludeCRAFromAllTeams localCfg ∧
  ∀ name, option_Forall2 sameMemberSet
            (Config.Teams localCfg !! name) (Config.Teams cfg' !! name).
Proof.
  unfold SyncTeams. rewrite bind_run.
  destruct (GetCurrentConfig tm fuel tr) as [tr1 [up|err|]]; simpl;
    [|intros [=]..].
  rewrite bind_run.
  pose proof (membershipPass_frame tm rt up localCfg force dryRun tr1) as Hf.
  destruct (membershipPass_result tm rt up localCfg force dryRun tr1) as [tr' Hr].
  destruct (membershipPass tm rt up localCfg force dryRun tr1) as [tr2 [c|err|]];
    simpl in *; [|intros [=]..].
  rewrite reviewPass_result. intros H.
  assert (c = cfg') as <-.
  { destruct (if force then inr true else
                AskForConfirmation rt "Do you want to update CodeReviewAssignments?")
      as [?|?]; [done|]. by injection H. }
  destruct (Hf c eq_refl) as (Ho & Hm & He & _).
  split; [done|]. split; [done|]. split; [done|]. intros name.
  destruct (size _ =? 0)%nat.
  { injection Hr as ->. apply option_sameMemberSet_refl. }
  destruct (if force then _ else _) as [err|[]]; [done| |].
  - injection Hr as ->. apply applyLoop_sameMemberSet.
  - injection Hr as ->. apply option_sameMemberSet_refl.
Qed.

Lemma SyncTeams_keeps_local_member_sets_witness :
  Config.Organization
    (updateMembers (Sample.runtime true reversedVisit)
       (updateMembers (Sample.runtime true reversedVisit)
          Sample.localCfg "ops" {| add := ["a"]; remove := ["c"] |})
       "qa" {| add := ["e"]; remove := [] |}) = Config.Organization Sample.localCfg ∧
  Config.Members
    (updateMembers (Sample.runtime true reversedVisit)
       (updateMembers (Sample.runtime true reversedVisit)
          Sample.localCfg "ops" {| add := ["a"]; remove := ["c"] |})
       "qa" {| add := ["e"]; remove := [] |}) = Config.Members Sample.localCfg ∧
  Config.ExcludeCRAFromAllTeams
    (updateMembers (Sample.runtime true reversedVisit)
       (updateMembers (Sample.runtime true reversedVisit)
          Sample.localCfg "ops" {| add := ["a"]; remove := ["c"] |})
       "qa" {| add := ["e"]; remove := [] |})
    = Config.ExcludeCRAFromAllTeams Sample.localCfg ∧
  ∀ name, option_Forall2 sameMemberSet
            (Config.Teams Sample.localCfg !! name)
            (Config.Teams
               (updateMembers (Sample.runtime true reversedVisit)
                  (updateMembers (Sample.runtime true reversedVisit)
                     Sample.localCfg "ops" {| add := ["a"]; remove := ["c"] |})
                  "qa" {| add := ["e"]; remove := [] |}) !! name).
Proof.
  apply (SyncTeams_keeps_local_member_sets Sample.manager
           (Sample.runtime true reversedVisit) 5 Sample.localCfg _ true false []).
  vm_compute. reflexivity.
Defined.

Lemma NotIn_nil_r a : NotIn a None = elems a.
Proof.
  unfold NotIn. simpl. induction (elems a) as [|x l IH]; [done|].
  rewrite filter_cons_True by apply not_elem_of_nil. by rewrite IH.
Qed.

(** X14. A team of the local configuration that the platform does not have
    is compared with the zero value: when it has members, its pending
    change is to add all of them and to remove none; when it has none,
    there is no pending change. *)
Theorem missing_remote_team_adds_all_members (upstreamCfg : Config.t)
    (name : string) (localTeam : TeamConfig.t) :
  Config.Teams upstreamCfg !! name = None →
  pendingChange localTeam (Config.team upstreamCfg name) =
  match elems (TeamConfig.Members localTeam) with
  | [] => None
  | members => Some {| add := members; remove := [] |}
  end.
Proof.
  intros Hn. unfold Config.team. rewrite Hn.
  change (default TeamConfig.zero None) with TeamConfig.zero.
  unfold pendingChange. case_decide as Heq.
  - apply (f_equal TeamConfig.Members) in Heq. simpl in Heq. by rewrite Heq.
  - unfold changeOf. simpl. rewrite NotIn_nil_r.
    by destruct (elems (TeamConfig.Members localTeam)).
Qed.

Lemma missing_remote_team_adds_all_members_witness :
  pendingChange Cases.newTeam (Config.team Sample.upstreamCfg "new") =
  Some {| add := ["x"; "y"]; remove := [] |}.
Proof.
  apply (missing_remote_team_adds_all_members Sample.upstreamCfg "new" Cases.newTeam).
  vm_compute. reflexivity.
Defined.



(** ** More on [slug] *)

(** X16. The names that are their own slug are exactly the strings of
    bytes of [a-z0-9] and single dashes that neither start nor end with a
    dash. *)
Theorem slug_fixed_points rt (s : string) :
  slug rt s = s ↔ Slug.noDouble true s = true ∧ Slug.endsWithDash s = false.
Proof.
  split.
  - intros H. rewrite <-H. apply SlugFacts.slug_noDouble.
  - intros [H1 H2]. by apply SlugFacts.slug_fixed.
Qed.

Lemma keepBytes_replaceRuns b s :
  keepBytes Slug.isSlugChar (Slug.replaceRuns b s) = keepBytes Slug.isSlugChar s.
Proof.
  revert b. induction s as [|c s IH]; intros b; simpl; [done|].
  destruct (Slug.isSlugChar c) eqn:Hc; simpl.
  - by rewrite Hc, IH.
  - destruct b; [apply IH|]. simpl. apply IH.
Qed.

Lemma keepBytes_trimLeft s :
  keepBytes Slug.isSlugChar (Slug.trimLeft s) = keepBytes Slug.isSlugChar s.
Proof.
  induction s as [|c s IH]; simpl; [done|].
  destruct (Slug.isDash c) eqn:Hd; [|done].
  by rewrite (SlugFacts.dash_not_slugChar c Hd).
Qed.

Lemma keepBytes_trimRight s :
  keepBytes Slug.isSlugChar (Slug.trimRight s) = keepBytes Slug.isSlugChar s.
Proof.
  induction s as [|c s IH]; simpl; [done|].
  destruct (Slug.trimRight s) as [|d t].
  - rewrite <-IH. destruct (Slug.isDash c) eqn:Hd; [|done].
    by rewrite (SlugFacts.dash_not_slugChar c Hd).
  - simpl in *. by rewrite IH.
Qed.

Lemma mapBytes_lowerByte_id s :
  Slug.anyb Slug.isUpper s = false → Slug.mapBytes Slug.lowerByte s = s.
Proof.
  induction s as [|c s IH]; simpl; [done|].
  intros [Hc Hs]%orb_false_iff. unfold Slug.lowerByte at 1. by rewrite Hc, IH.
Qed.

(** X17. The letters and digits of the slug of an ASCII name are those of
    the name, put in lower case, in the same order: [slug] drops or
    replaces nothing but the other bytes, and adds only dashes. *)
Theorem slug_keeps_letters_and_digits rt (s : string) :
  Slug.allb Slug.isASCII s = true →
  keepBytes Slug.isSlugChar (slug rt s) =
  keepBytes Slug.isSlugChar (Slug.mapBytes Slug.lowerByte s).
Proof.
  intros Ha. unfold slug, Slug.slug, Slug.Trim.
  rewrite keepBytes_trimRight, keepBytes_trimLeft, keepBytes_replaceRuns.
  unfold Slug.ToLower. rewrite Ha.
  destruct (Slug.anyb Slug.isUpper s) eqn:Hu; [done|].
  by rewrite mapBytes_lowerByte_id.
Qed.

Lemma slug_keeps_letters_and_digits_witness :
  keepBytes Slug.isSlugChar (slug (Sample.runtime true orderedVisit) "SIG Policy-2") =
  keepBytes Slug.isSlugChar (Slug.mapBytes Slug.lowerByte "SIG Policy-2").
Proof.
  apply (slug_keeps_letters_and_digits (Sample.runtime true orderedVisit) "SIG Policy-2").
  vm_compute. reflexivity.
Defined.

(** ** More on [getExcludedUsers] *)

Lemma getExcludedUsers_elem rt name members exc excAll tr id :
  id ∈ (getExcludedUsers rt name members exc excAll tr).2 ↔
  ∃ login user, (login ∈ ExcludedMember.Login <$> elems exc ∨ login ∈ elems excAll) ∧
    members !! login = Some user ∧ User.ID user = id.
Proof.
  unfold getExcludedUsers. rewrite bind_run. simpl.
  rewrite elem_of_rangeSet, excludeAllTeams_elem, excludeTeamMembers_elem,
    elem_of_empty. split.
  - intros [[[]|(l & u & ? & ? & ?)]|(l & u & ? & ? & ?)]; exists l, u; eauto.
  - intros (l & u & [?|?] & ? & ?); [left; right|right]; eauto.
Qed.

(** X18. The identities that [getExcludedUsers] returns do not depend on
    the order of the two exclusion lists, on the order in which the runtime
    visits its map, or on the name of the team: two resolutions of the same
    exclusions against the same directory return the same identities, up to
    their order. *)
Theorem getExcludedUsers_order_insensitive rt rt' (name name' : string)
    (members : gmap string User.t) (exc exc' : slice ExcludedMember.t)
    (excAll excAll' : slice string) tr tr' :
  elems exc ≡ₚ elems exc' →
  elems excAll ≡ₚ elems excAll' →
  (getExcludedUsers rt name members exc excAll tr).2 ≡ₚ
  (getExcludedUsers rt' name' members exc' excAll' tr').2.
Proof.
  intros He Ha. apply NoDup_Permutation.
  - unfold getExcludedUsers. rewrite bind_run. apply rangeSet_NoDup.
  - unfold getExcludedUsers. rewrite bind_run. apply rangeSet_NoDup.
  - intros id. rewrite !getExcludedUsers_elem.
    split; intros (l & u & Hl & Hu); exists l, u; (split; [|done]).
    + by rewrite <-He, <-Ha.
    + by rewrite He, Ha.
Qed.

Lemma getExcludedUsers_order_insensitive_witness :
  (getExcludedUsers (Sample.runtime true orderedVisit) "ops"
     (Config.Members Sample.localCfg)
     (Some [ {| ExcludedMember.Login := "a" |}; {| ExcludedMember.Login := "ghost" |} ])
     (Some ["d"; "bot"]) []).2 ≡ₚ
  (getExcludedUsers (Sample.runtime true reversedVisit) "dev"
     (Config.Members Sample.localCfg)
     (Some [ {| ExcludedMember.Login := "ghost" |}; {| ExcludedMember.Login := "a" |} ])
     (Some ["bot"; "d"]) []).2.
Proof.
  apply (getExcludedUsers_order_insensitive (Sample.runtime true orderedVisit)
           (Sample.runtime true reversedVisit) "ops" "dev"
           (Config.Members Sample.localCfg)).
  - simpl. apply perm_swap.
  - simpl. apply perm_swap.
Defined.

(** ** [addTeamsToConfig] *)

Lemma addTeamsToConfig_frame lookup addTeams cfg :
  let cfg' := (Cmd.addTeamsToConfig lookup addTeams cfg).1 in
  Config.Organization cfg' = Config.Organization cfg ∧
  Config.Members cfg' = Config.Members cfg ∧
  Config.ExcludeCRAFromAllTeams cfg' = Config.ExcludeCRAFromAllTeams cfg ∧
  ∀ name t, Config.Teams cfg !! name = Some t → Config.Teams cfg' !! name = Some t.
Proof.
  revert cfg. induction addTeams as [|s l IH]; intros cfg; simpl; [done|].
  destruct (lookup s) as [err|t]; [done|].
  destruct (Config.Teams cfg !! Cmd.Name t) eqn:E; [done|].
  destruct (IH (Config.setTeam cfg (Cmd.Name t)
                  {| TeamConfig.ID := Cmd.NodeID t; TeamConfig.Members := None;
                     TeamConfig.CRA := CodeReviewAssignment.zero |}))
    as (H1 & H2 & H3 & H4).
  split; [done|]. split; [done|]. split; [done|].
  intros name t' Hn. apply H4. simpl. rewrite lookup_insert_ne; [done|].
  intros Heq. rewrite Heq in E. congruence.
Qed.

(** X19. Whether it succeeds or fails, [addTeamsToConfig] leaves every team
    that the configuration already has as it is, and it leaves the
    organization, the member directory and the exclusions as they are. *)
Theorem addTeamsToConfig_keeps_existing_teams (GetTeamBySlug : string → error + Cmd.ghTeam)
    (addTeams : list string) (cfg : Config.t) (name : string) (team : TeamConfig.t) :
  Config.Teams cfg !! name = Some team →
  let cfg' := (Cmd.addTeamsToConfig GetTeamBySlug addTeams cfg).1 in
  Config.Teams cfg' !! name = Some team ∧
  Config.Organization cfg' = Config.Organization cfg ∧
  Config.Members cfg' = Config.Members cfg ∧
  Config.ExcludeCRAFromAllTeams cfg' = Config.ExcludeCRAFromAllTeams cfg.
Proof.
  intros Hn. destruct (addTeamsToConfig_frame GetTeamBySlug addTeams cfg)
    as (H1 & H2 & H3 & H4).
  simpl. split; [by apply H4|done].
Qed.

Lemma addTeamsToConfig_keeps_existing_teams_witness :
  let cfg' := (Cmd.addTeamsToConfig Cases.lookup ["sec"; "ops"; "docs"] Sample.localCfg).1 in
  Config.Teams cfg' !! "dev" = Some Sample.devTeam ∧
  Config.Organization cfg' = Config.Organization Sample.localCfg ∧
  Config.Members cfg' = Config.Members Sample.localCfg ∧
  Config.ExcludeCRAFromAllTeams cfg' = Config.ExcludeCRAFromAllTeams Sample.localCfg.
Proof.
  apply (addTeamsToConfig_keeps_existing_teams Cases.lookup ["sec"; "ops"; "docs"]
           Sample.localCfg "dev" Sample.devTeam).
  vm_compute. reflexivity.
Defined.

(** X20. When [addTeamsToConfig] returns no error, every slug was resolved,
    the resolved teams have names that are pairwise distinct and were not
    in the configuration, and each is now in it, with its node identifier,
    no member and the zero review assignment; the configuration has no
    other new team. *)
Theorem addTeamsToConfig_success (GetTeamBySlug : string → error + Cmd.ghTeam)
    (addTeams : list string) (cfg : Config.t) :
  (Cmd.addTeamsToConfig GetTeamBySlug addTeams cfg).2 = None →
  let cfg' := (Cmd.addTeamsToConfig GetTeamBySlug addTeams cfg).1 in
  ∃ teams,
    Forall2 (λ slug t, GetTeamBySlug slug = inr t) addTeams teams ∧
    NoDup (Cmd.Name <$> teams) ∧
    (∀ t, t ∈ teams →
       Config.Teams cfg !! Cmd.Name t = None ∧
       Config.Teams cfg' !! Cmd.Name t =
         Some {| TeamConfig.ID := Cmd.NodeID t; TeamConfig.Members := None;
                 TeamConfig.CRA := CodeReviewAssignment.zero |}) ∧
    dom (Config.Teams cfg') = dom (Config.Teams cfg) ∪ list_to_set (Cmd.Name <$> teams).
Proof.
  revert cfg. induction addTeams as [|s l IH]; intros cfg; simpl.
  - intros _. exists []. split; [constructor|]. split; [constructor|].
    split; [intros t Ht; by apply elem_of_nil in Ht|].
    simpl. by rewrite (right_id_L ∅ (∪)).
  - destruct (GetTeamBySlug s) as [err|t] eqn:Es; [done|].
    destruct (Config.Teams cfg !! Cmd.Name t) eqn:E; [done|].
    set (cfg1 := Config.setTeam cfg (Cmd.Name t)
                  {| TeamConfig.ID := Cmd.NodeID t; TeamConfig.Members := None;
                     TeamConfig.CRA := CodeReviewAssignment.zero |}).
    intros H. destruct (IH cfg1 H) as (teams & Hf & Hnd & Ht & Hd).
    destruct (addTeamsToConfig_frame GetTeamBySlug l cfg1) as (_ & _ & _ & Hkeep).
    assert (Cmd.Name t ∉ Cmd.Name <$> teams) as Hfresh.
    { intros (t' & Hn & Hin)%list_elem_of_fmap. destruct (Ht t' Hin) as [Hnone _].
      rewrite <-Hn in Hnone. simpl in Hnone. by rewrite lookup_insert_eq in Hnone. }
    exists (t :: teams). split; [by constructor|].
    split; [rewrite fmap_cons; by constructor|]. split.
    + intros t' [->|Hin]%elem_of_cons.
      * split; [done|]. apply Hkeep. simpl. apply lookup_insert_eq.
      * destruct (Ht t' Hin) as [Hnone Hsome]. split; [|done].
        simpl in Hnone. rewrite lookup_insert_ne in Hnone; [done|].
        intros Heq. apply Hfresh. rewrite Heq. apply list_elem_of_fmap. eauto.
    + rewrite Hd. simpl. rewrite dom_insert_L, (assoc_L (∪)).
      f_equal. apply (comm_L (∪)).
Qed.

Lemma addTeamsToConfig_success_witness :
  let cfg' := (Cmd.addTeamsToConfig Cases.lookup ["sec"; "docs"] Sample.localCfg).1 in
  ∃ teams,
    Forall2 (λ slug t, Cases.lookup slug = inr t) ["sec"; "docs"] teams ∧
    NoDup (Cmd.Name <$> teams) ∧
    (∀ t, t ∈ teams →
       Config.Teams Sample.localCfg !! Cmd.Name t = None ∧
       Config.Teams cfg' !! Cmd.Name t =
         Some {| TeamConfig.ID := Cmd.NodeID t; TeamConfig.Members := None;
                 TeamConfig.CRA := CodeReviewAssignment.zero |}) ∧
    dom (Config.Teams cfg') =
      dom (Config.Teams Sample.localCfg) ∪ list_to_set (Cmd.Name <$> teams).
Proof.
  apply (addTeamsToConfig_success Cases.lookup ["sec"; "docs"] Sample.localCfg).
  vm_compute. reflexivity.
Defined.

(** X21. When [addTeamsToConfig] returns an error, it has stopped at the
    first slug that the client does not resolve, or whose team has a name
    that the configuration has by then: the error is the wrapped error of
    the client, or the error that names the team. The teams of the slugs
    before that one have been added to the configuration, and none
    after. *)
Theorem addTeamsToConfig_stops_at_first_error
    (GetTeamBySlug : string → error + Cmd.ghTeam)
    (addTeams : list string) (cfg : Config.t) (e : Cmd.cmdError) :
  (Cmd.addTeamsToConfig GetTeamBySlug addTeams cfg).2 = Some e →
  let cfg' := (Cmd.addTeamsToConfig GetTeamBySlug addTeams cfg).1 in
  ∃ before slug after,
    addTeams = before ++ slug :: after ∧
    Cmd.addTeamsToConfig GetTeamBySlug before cfg = (cfg', None) ∧
    match GetTeamBySlug slug with
    | inl err => e = Cmd.ClientError (Wrap "failed to get GitHub team" err)
    | inr t => e = Cmd.TeamExists (Cmd.Name t) ∧
               is_Some (Config.Teams cfg' !! Cmd.Name t)
    end.
Proof.
  revert cfg. induction addTeams as [|s l IH]; intros cfg; simpl; [done|].
  destruct (GetTeamBySlug s) as [err|t] eqn:Es.
  - intros [= <-]. exists [], s, l. rewrite Es. done.
  - destruct (Config.Teams cfg !! Cmd.Name t) eqn:E.
    + intros [= <-]. exists [], s, l. rewrite Es. simpl. rewrite E. eauto.
    + intros H. destruct (IH _ H) as (before & slug & after & -> & Hb & Hm).
      exists (s :: before), slug, after. split; [done|]. split; [|done].
      simpl. by rewrite Es, E.
Qed.

Lemma addTeamsToConfig_stops_at_first_error_witness :
  let cfg' := (Cmd.addTeamsToConfig Cases.lookup ["sec"; "ops"; "docs"] Sample.localCfg).1 in
  ∃ before slug after,
    ["sec"; "ops"; "docs"] = before ++ slug :: after ∧
    Cmd.addTeamsToConfig Cases.lookup before Sample.localCfg = (cfg', None) ∧
    match Cases.lookup slug with
    | inl err => Cmd.TeamExists "ops" = Cmd.ClientError (Wrap "failed to get GitHub team" err)
    | inr t => Cmd.TeamExists "ops" = Cmd.TeamExists (Cmd.Name t) ∧
               is_Some (Config.Teams cfg' !! Cmd.Name t)
    end.
Proof.
  apply (addTeamsToConfig_stops_at_first_error Cases.lookup ["sec"; "ops"; "docs"]
           Sample.localCfg (Cmd.TeamExists "ops")).
  vm_compute. reflexivity.
Defined.

(** ** Two remote teams with one name *)

Lemma teamNodesLoop_cons tm fuel result t nodes v c tr :
  teamNodesLoop tm fuel result (t :: nodes) v c tr =
  let teamCfg := match Config.Teams c !! team.Name t with
                 | Some teamCfg => teamCfg
                 | None => newTeamCfg t
                 end in
  let r := membersLoop tm fuel false result t (team.Name t) teamCfg v c tr in
  match r.2 with
  | Done (v', c') => teamNodesLoop tm fuel result nodes v' c' r.1
  | Fail err => (r.1, Fail err)
  | OutOfFuel => (r.1, OutOfFuel)
  end.
Proof.
  simpl. rewrite bind_run.
  by destruct (membersLoop tm fuel false result t (team.Name t) _ v c tr)
    as [tr1 [[v' c']|err|]].
Qed.




(** ** The queries of [GetCurrentConfig] in front of a paged platform *)

Section FetchTrace.

Variable owner : string.
Variable org : Remote.t.

Lemma membersLoop_trace (t : Remote.Team) i n :
  t ∈ nth i org [] → NoDup (Remote.ID <$> nth i org []) →
  ∀ (j fuel : nat) (requery : bool) (result : queryResult.t)
    (teamCfg : TeamConfig.t) (v : Vars.t) (c : Config.t) (tr : list Event),
    length (Remote.MemberPages t) - S j = n → n < fuel →
    Remote.position (Vars.teamsCursor v) = i →
    (if requery then Vars.membersCursor v = Some (Remote.cursor j)
     else j = 0 ∧ result = Remote.page org i 0) →
    (membersLoop (Remote.manager owner org) fuel requery result (Remote.node 0 t)
       (Remote.Name t) teamCfg v c tr).1 =
    tr ++ (Queries.memberQuery (Vars.teamsCursor v)
             <$> (if requery then seq j (S n) else seq (S j) n)).
Proof.
  intros Hin Hnd. induction n as [|n IH];
    intros j fuel requery result teamCfg v c tr Hn Hfuel Hv Hreq;
    (destruct fuel as [|fuel]; [lia|]); simpl; rewrite bind_run.
  all: assert (((if requery then query (Remote.manager owner org) QueryMembers v
                 else mret (inr result)) tr)
               = (tr ++ (if requery then [Queries.memberQuery (Vars.teamsCursor v) j]
                         else []),
                  inr (Remote.page org i j))) as ->
    by (destruct requery;
        [ rewrite (surjective_pairing (query _ _ _ _)), query_trace, query_result,
            gqlQuery_page, Hv, Hreq, position_cursor;
          destruct v; simpl in *; by subst
        | destruct Hreq as [-> ->]; by rewrite app_nil_r ]).
  all: unfold Teams.WithID; simpl; rewrite find_node by done; simpl.
  all: destruct (foldl_addMember teamCfg c (nth j (Remote.MemberPages t) []))
         as (c1 & -> & Hc1).
  - assert ((S j <? length (Remote.MemberPages t))%nat = false) as ->
      by (apply Nat.ltb_ge; lia).
    simpl. by destruct requery.
  - assert ((S j <? length (Remote.MemberPages t))%nat = true) as ->
      by (apply Nat.ltb_lt; lia).
    simpl. rewrite (IH (S j) fuel true); [|lia|lia|exact Hv|reflexivity].
    simpl. destruct requery; [by rewrite <-(assoc_L (++))|by rewrite app_nil_r].
Qed.

Lemma teamNodesLoop_trace i limit :
  NoDup (Remote.ID <$> nth i org []) →
  ∀ (ts : list Remote.Team) (v : Vars.t) (c : Config.t) (tr : list Event),
    (∀ t, t ∈ ts → t ∈ nth i org [] ∧ length (Remote.MemberPages t) - 1 < limit) →
    Remote.position (Vars.teamsCursor v) = i →
    let r := teamNodesLoop (Remote.manager owner org) limit (Remote.page org i 0)
               (Remote.node 0 <$> ts) v c tr in
    r.1 = tr ++ Queries.ofTeams (Vars.teamsCursor v) ts ∧
    ∃ v' c', r.2 = Done (v', c') ∧ Vars.teamsCursor v' = Vars.teamsCursor v.
Proof.
  intros Hids. induction ts as [|t ts IH]; intros v c tr Hts Hv.
  - simpl. rewrite app_nil_r. split; [done|]. by eexists _, _.
  - destruct (Hts t) as [Hin Hlim]; [by left|].
    rewrite fmap_cons, teamNodesLoop_cons. cbv zeta.
    set (teamCfg := match Config.Teams c !! team.Name (Remote.node 0 t) with
                    | Some teamCfg => teamCfg
                    | None => newTeamCfg (Remote.node 0 t)
                    end).
    change (team.Name (Remote.node 0 t)) with (Remote.Name t).
    pose proof (membersLoop_trace t i (length (Remote.MemberPages t) - 1) Hin Hids
                  0 limit false (Remote.page org i 0) teamCfg v c tr) as Ht.
    destruct (membersLoop_serve owner org t i (length (Remote.MemberPages t) - 1)
                Hin Hids 0 limit false (Remote.page org i 0) teamCfg v c tr)
      as (v1 & c1 & E1 & Hv1 & _); [lia|done|done|done|].
    destruct (membersLoop (Remote.manager owner org) limit false
                (Remote.page org i 0) (Remote.node 0 t) (Remote.Name t) teamCfg v c tr)
      as [tr1 r1].
    simpl in E1, Ht. subst r1. rewrite Ht by (done || lia).
    cbn [fst snd].
    destruct (IH v1 c1 (tr ++ (Queries.memberQuery (Vars.teamsCursor v)
                                 <$> seq 1 (length (Remote.MemberPages t) - 1))))
      as (Htr & v2 & c2 & E2 & Hv2).
    { intros t' Ht'. apply Hts. by right. }
    { by rewrite Hv1. }
    split.
    + rewrite Htr, Hv1, <-(assoc_L (++)). done.
    + exists v2, c2. split; [done|]. congruence.
Qed.

Lemma teamsLoop_trace limit n :
  NoDup (Remote.ID <$> concat org) →
  (∀ t, t ∈ concat org → length (Remote.MemberPages t) - 1 < limit) →
  ∀ (i fuel : nat) (requery : bool) (result : queryResult.t)
    (v : Vars.t) (c : Config.t) (tr : list Event),
    length org - S i = n → n < fuel →
    (if requery
     then v = {| Vars.teamsCursor := Some (Remote.cursor i); Vars.membersCursor := None |}
     else i = 0 ∧ Vars.teamsCursor v = None ∧ result = Remote.page org 0 0) →
    (teamsLoop (Remote.manager owner org) limit fuel requery result v c tr).1 =
    tr ++ (if requery then Queries.ofPage org i
           else Queries.ofTeams None (nth 0 org []))
       ++ concat (Queries.ofPage org <$> seq (S i) n).
Proof.
  intros Hids Hlim. induction n as [|n IH];
    intros i fuel requery result v c tr Hn Hfuel Hreq;
    (destruct fuel as [|fuel]; [lia|]); simpl; rewrite bind_run.
  all: assert (Remote.position (Vars.teamsCursor v) = i) as Hv
    by (destruct requery;
        [subst v; apply position_cursor|by destruct Hreq as (-> & -> & _)]).
  all: assert (((if requery then query (Remote.manager owner org) QueryTeams v
                 else mret (inr result)) tr)
               = (tr ++ (if requery then [EvQuery QueryTeams v] else []),
                  inr (Remote.page org i 0))) as ->
    by (destruct requery;
        [ rewrite (surjective_pairing (query _ _ _ _)), query_trace, query_result,
            gqlQuery_page, Hv; by subst v
        | destruct Hreq as (-> & _ & ->); by rewrite app_nil_r ]).
  all: simpl; rewrite bind_run.
  all: destruct (teamNodesLoop_trace i limit (NoDup_fmap_nth _ _ i Hids)
                   (nth i org []) v c
                   (tr ++ (if requery then [EvQuery QueryTeams v] else [])))
         as (Htr & v1 & c1 & E1 & Hv1);
    [ intros t Ht; split; [done|]; apply Hlim;
      destruct (decide (i < length org)) as [Hi|Hi];
        [ apply list_elem_of_In, in_concat; exists (nth i org []);
          split; [apply nth_In; lia|by apply list_elem_of_In]
        | rewrite nth_overflow in Ht by lia; by apply elem_of_nil in Ht ]
    | done | ].
  all: simpl in Htr, E1.
  all: destruct (teamNodesLoop (Remote.manager owner org) limit (Remote.page org i 0)
                   (Remote.node 0 <$> nth i org []) v c _) as [tr1 r1].
  all: simpl in Htr, E1; subst tr1 r1; simpl.
  - assert ((S i <? length org)%nat = false) as -> by (apply Nat.ltb_ge; lia).
    simpl. rewrite app_nil_r, <-(assoc_L (++)).
    destruct requery; [by subst v|]. by destruct Hreq as (-> & -> & _).
  - assert ((S i <? length org)%nat = true) as -> by (apply Nat.ltb_lt; lia).
    simpl. rewrite (IH (S i) fuel true); [|lia|lia|done].
    rewrite <-!(assoc_L (++)). f_equal.
    destruct requery.
    + subst v. by simpl.
    + destruct Hreq as (-> & -> & _). simpl. done.
Qed.

End FetchTrace.

(** X23. In front of a platform that serves the organization in pages,
    [GetCurrentConfig] with enough fuel makes exactly these queries, in
    this order: the first query; for every team of a team page, one requery
    per member page of the team after its first; and, between two team
    pages, one requery for the next team page. No page is asked for twice.
    The identifiers of the teams are pairwise distinct. *)
Theorem GetCurrentConfig_queries_every_page_once (owner : string) (org : Remote.t)
    (fuel : nat) tr :
  NoDup (Remote.ID <$> concat org) →
  (Remote.fuel org ≤ fuel)%nat →
  (GetCurrentConfig (Remote.manager owner org) fuel tr).1 = tr ++ Queries.all org.
Proof.
  intros Hids Hfuel.
  assert (∀ t, t ∈ concat org → length (Remote.MemberPages t) - 1 < fuel) as Hlim.
  { intros t Hin. pose proof (fuel_members org t Hin). lia. }
  unfold GetCurrentConfig. rewrite bind_run, query_result, query_trace.
  change (gqlQuery (Remote.manager owner org) Vars.empty)
    with (inr (B := queryResult.t) (A := error) (Remote.page org 0 0)).
  cbv beta iota.
  rewrite (teamsLoop_trace owner org fuel (length org - 1) Hids Hlim 0 fuel false);
    [|lia|unfold Remote.fuel in Hfuel; lia|done].
  unfold Queries.all. by rewrite <-!(assoc_L (++)).
Qed.

Lemma GetCurrentConfig_queries_every_page_once_witness :
  (GetCurrentConfig (Remote.manager "acme" Sample.org) 5 []).1 =
  [] ++ Queries.all Sample.org.
Proof.
  apply (GetCurrentConfig_queries_every_page_once "acme" Sample.org 5 []).
  - refine (bool_decide_unpack _ _). vm_compute. reflexivity.
  - vm_compute. lia.
Defined.
